(** * Distributed Game of Life (MPI, 1-D strips and 2-D patches)

    A shallow embedding of [life_mpi.py] and [life_mpi_2d.py]: the B3/S23
    cell rule, the two stencil kernels, the remainder-rule decomposition,
    the halo exchange (with its messages, sources and tags), the
    scatter / gather of the global grid and the simulation drivers,
    followed by the properties of the specification.  Around them: the
    seeding of the initial grid ([create_*], [initialize_grid]), the
    checksum, the snapshot files ([save_snapshot] and the readers of
    [visualize.py], [visualize_local.py], [deliverables/visualize.py]) and
    the integer computations of the visualisers (trimming, bounding boxes,
    zoom windows, rank boundaries and workloads, image scaling).

    Conventions.  A numpy 2-D [int8] array is a list of rows of [Z]
    ([grid]); array positions are [nat]; Python integer arithmetic that may
    go through negative values ([(rank - 1) % size], [(j + dj) % nx],
    [i + di]) is carried out in [Z] and converted back.  The state of the
    whole job is the list of the local grids of all ranks, indexed by rank.
    A posted operation that can never complete (a receive without a
    matching send) or that MPI rejects (a message longer than the receive
    buffer, contributions that do not match the collective's counts) makes
    the modelled call return [None]; so does a call that raises (a
    division by zero, an index out of range).  A Python string is a list
    of characters ([str]). *)

From Stdlib Require Import ZArith List Lia Bool Arith PeanoNat.
From Stdlib Require Import Permutation Sorted.
From Stdlib Require Ascii String.
Import ListNotations.
Import Ascii.AsciiSyntax String.StringSyntax.
Delimit Scope string_scope with string.

Set Implicit Arguments.

(* ================================================================== *)
(** ** Arrays *)
(* ================================================================== *)

Definition grid := list (list Z).

(** [g[i]] and [g[i, j]] for in-range, non-negative positions (the only
    ones the two programs ever form). *)
Definition row (g : grid) (i : nat) : list Z := nth i g [].
Definition cell (g : grid) (i j : nat) : Z := nth j (row g i) 0%Z.

(** [g.shape[0]] and [g.shape[1]]. *)
Definition nrows (g : grid) : nat := length g.
Definition ncols (g : grid) : nat := length (row g 0).

(** [np.zeros(n)] and [np.zeros((r, c))]. *)
Definition zeros (n : nat) : list Z := repeat 0%Z n.
Definition zeros2 (r c : nat) : grid := repeat (zeros c) r.

(** [l[a:b]], [g[r0:r1, c0:c1]] and [g[r0:r1, j]]. *)
Definition slice (A : Type) (a b : nat) (l : list A) : list A :=
  firstn (b - a) (skipn a l).
Definition subgrid (r0 r1 c0 c1 : nat) (g : grid) : grid :=
  map (slice c0 c1) (slice r0 r1 g).
Definition column (r0 r1 j : nat) (g : grid) : list Z :=
  map (fun rw => nth j rw 0%Z) (slice r0 r1 g).

(** [l[k] = v]. *)
Fixpoint set_nth (A : Type) (k : nat) (v : A) (l : list A) : list A :=
  match l, k with
  | [], _ => []
  | _ :: t, O => v :: t
  | h :: t, S k' => h :: set_nth k' v t
  end.

(** [l[a:a+len(data)] = data]; in both programs the slice on the left and
    the data on the right always have the same length. *)
Definition set_slice (A : Type) (a : nat) (data l : list A) : list A :=
  firstn a l ++ data ++ skipn (a + length data) l.

(** [g[i, :] = data], [g[i, c0:c0+len(data)] = data], [g[i, j] = v],
    [g[r0:r0+len(data), j] = data] and
    [g[r0:r0+rows(p), c0:c0+cols(p)] = p]. *)
Definition set_row (g : grid) (i : nat) (data : list Z) : grid :=
  set_nth i data g.
Definition set_row_slice (g : grid) (i c0 : nat) (data : list Z) : grid :=
  set_nth i (set_slice c0 data (row g i)) g.
Definition set_cell (g : grid) (i j : nat) (v : Z) : grid :=
  set_nth i (set_nth j v (row g i)) g.
Definition set_col_slice (g : grid) (r0 j : nat) (data : list Z) : grid :=
  fold_left (fun g' k => set_cell g' (r0 + k) j (nth k data 0%Z))
            (seq 0 (length data)) g.
Definition set_block (g : grid) (r0 c0 : nat) (p : grid) : grid :=
  fold_left (fun g' k => set_row_slice g' (r0 + k) c0 (row p k))
            (seq 0 (length p)) g.

(** [a.flatten()] and [flat.reshape(rows, cols)]. *)
Definition flatten (g : grid) : list Z := concat g.
Definition reshape (rows cols : nat) (flat : list Z) : grid :=
  map (fun i => slice (i * cols) (i * cols + cols) flat) (seq 0 rows).

(** A grid built cell by cell (used for the reference semantics and for
    the statements, never for the programs). *)
Definition tabulate (rows cols : nat) (f : nat -> nat -> Z) : grid :=
  map (fun i => map (f i) (seq 0 cols)) (seq 0 rows).

(** [g] is a [rows] x [cols] array. *)
Definition shape (rows cols : nat) (g : grid) : Prop :=
  length g = rows /\ forall i, i < rows -> length (row g i) = cols.

(** every cell is 0 or 1 *)
Definition binary (g : grid) : Prop :=
  forall i j, cell g i j = 0%Z \/ cell g i j = 1%Z.

(** Python's [a % n] for a positive [n] (the result is never negative). *)
Definition py_mod (a : Z) (n : nat) : nat := Z.to_nat (a mod Z.of_nat n).

(** The option monad used for calls that may never return. *)
Definition bind (A B : Type) (x : option A) (f : A -> option B) : option B :=
  match x with Some a => f a | None => None end.

Notation "x <- e ;; k" := (bind e (fun x => k))
  (at level 61, e at next level, right associativity).

Fixpoint mapM (A B : Type) (f : A -> option B) (l : list A) : option (list B) :=
  match l with
  | [] => Some []
  | a :: t => b <- f a ;; bs <- mapM f t ;; Some (b :: bs)
  end.

Fixpoint foldM (S A : Type) (f : S -> A -> option S) (l : list A) (s : S)
  : option S :=
  match l with
  | [] => Some s
  | a :: t => s' <- f s a ;; foldM f t s'
  end.

(* ================================================================== *)
(** ** The cell rule and the kernels *)
(* ================================================================== *)

(** [update_cell(current, neighbors)] *)
Definition update_cell (current neighbors : Z) : Z :=
  if (current =? 1)%Z then
    (if (neighbors =? 2)%Z || (neighbors =? 3)%Z then 1%Z else 0%Z)
  else
    (if (neighbors =? 3)%Z then 1%Z else 0%Z).

(** Arithmetic on [np.int8] scalars wraps around. *)
Definition int8 (z : Z) : Z := ((z + 128) mod 256 - 128)%Z.

(** [for di in [-1, 0, 1]: for dj in [-1, 0, 1]:] without [(0, 0)], in
    the order of the loops. *)
Definition offsets : list (Z * Z) :=
  flat_map (fun di =>
    flat_map (fun dj =>
      if (di =? 0)%Z && (dj =? 0)%Z then [] else [(di, dj)])
      [-1; 0; 1]%Z) [-1; 0; 1]%Z.

(** The positions the 1-D kernel reads for the neighbours of [(i, j)]:
    [ni = i + di], [nj = (j + dj) % nx]. *)
Definition neighbor_indices (nx i j : nat) : list (nat * nat) :=
  map (fun '(di, dj) =>
         (Z.to_nat (Z.of_nat i + di), py_mod (Z.of_nat j + dj) nx))
      offsets.

(** The positions the 2-D kernel reads: [i + di], [j + dj]. *)
Definition neighbor_indices_2d (i j : nat) : list (nat * nat) :=
  map (fun '(di, dj) =>
         (Z.to_nat (Z.of_nat i + di), Z.to_nat (Z.of_nat j + dj)))
      offsets.

(** [neighbors = 0; neighbors += local_grid[ni, nj]] over the positions. *)
Definition neighbors_sum (local_grid : grid) (idx : list (nat * nat)) : Z :=
  fold_left (fun neighbors '(ni, nj) => int8 (neighbors + cell local_grid ni nj))
            idx 0%Z.

(** [compute_next_generation(local_grid, nx)] of [life_mpi.py]. *)
Definition compute_next_generation (local_grid : grid) (nx : nat) : grid :=
  map (fun i =>
         map (fun j =>
                update_cell (cell local_grid i j)
                  (neighbors_sum local_grid (neighbor_indices nx i j)))
             (seq 0 nx))
      (seq 1 (nrows local_grid - 1 - 1)).

(** [compute_next_generation_2d(local_grid)] of [life_mpi_2d.py]. *)
Definition compute_next_generation_2d (local_grid : grid) : grid :=
  map (fun i =>
         map (fun j =>
                update_cell (cell local_grid i j)
                  (neighbors_sum local_grid (neighbor_indices_2d i j)))
             (seq 1 (ncols local_grid - 1 - 1)))
      (seq 1 (nrows local_grid - 1 - 1)).

(* ================================================================== *)
(** ** Decomposition (remainder rule) *)
(* ================================================================== *)

(** [(n // p + 1) if r < n % p else n // p]: the number of rows (columns)
    of strip [r] when [n] rows (columns) are dealt to [p] strips. *)
Definition block_count (n p r : nat) : nat :=
  if r <? n mod p then n / p + 1 else n / p.

(** [sum([... for r in range(k)])]: where strip [k] starts. *)
Definition block_start (n p k : nat) : nat :=
  list_sum (map (block_count n p) (seq 0 k)).

(** The loop of [life_mpi.py] that fills [send_counts] (or [recv_counts])
    and [displacements], both counted in cells. *)
Definition distribution (ny nx size : nat) : list nat * list nat :=
  let rows_per_rank := ny / size in
  let remainder := ny mod size in
  let '(counts, displacements, _) :=
    fold_left
      (fun '(counts, displacements, offset) r =>
         let row_count :=
           if r <? remainder then rows_per_rank + 1 else rows_per_rank in
         (counts ++ [row_count * nx], displacements ++ [offset],
          offset + row_count * nx))
      (seq 0 size) ([], [], 0) in
  (counts, displacements).

(* ================================================================== *)
(** ** Messages *)
(* ================================================================== *)

Record message := Msg {
  msg_src : nat;
  msg_dst : nat;
  msg_tag : nat;
  msg_data : list Z
}.

(** A receive posted by [me] for [(source, tag)] into [buf] completes with
    the first message from [source] to [me] carrying [tag]; it never
    completes when there is none, and MPI rejects a message longer than
    the buffer. *)
Definition Irecv (net : list message) (me : nat) (buf : list Z)
           (source tag : nat) : option (list Z) :=
  match find (fun m => (msg_src m =? source) && (msg_dst m =? me)
                       && (msg_tag m =? tag)) net with
  | Some m =>
      if length (msg_data m) <=? length buf
      then Some (msg_data m ++ skipn (length (msg_data m)) buf)
      else None
  | None => None
  end.

(* ================================================================== *)
(** ** 1-D program ([life_mpi.py]) *)
(* ================================================================== *)

Definition top_neighbor (rank size : nat) : nat := py_mod (Z.of_nat rank - 1) size.
Definition bottom_neighbor (rank size : nat) : nat := (rank + 1) mod size.

(** The two [Isend]s of [exchange_halo] on rank [rank]. *)
Definition halo_sends (local_grid : grid) (rank size : nat) : list message :=
  let local_rows_total := nrows local_grid in
  let local_rows_real := local_rows_total - 2 in
  let top_real_row := row local_grid 1 in
  let bottom_real_row := row local_grid local_rows_real in
  [ Msg rank (bottom_neighbor rank size) 0 bottom_real_row;
    Msg rank (top_neighbor rank size) 1 top_real_row ].

(** [exchange_halo(local_grid, comm, rank, size, nx)], given the messages
    [net] posted by all ranks in this exchange. *)
Definition exchange_halo (net : list message) (local_grid : grid)
           (rank size nx : nat) : option grid :=
  let local_rows_total := nrows local_grid in
  recv_buf_top <- Irecv net rank (zeros nx) (top_neighbor rank size) 0 ;;
  recv_buf_bottom <- Irecv net rank (zeros nx) (bottom_neighbor rank size) 1 ;;
  Some (set_row (set_row local_grid 0 recv_buf_top)
                (local_rows_total - 1) recv_buf_bottom).

(** One exchange on all the ranks of the job. *)
Definition halo_network (ps : list grid) (size : nat) : list message :=
  flat_map (fun r => halo_sends (nth r ps []) r size) (seq 0 size).

Definition exchange_all (ps : list grid) (size nx : nat) : option (list grid) :=
  mapM (fun r => exchange_halo (halo_network ps size) (nth r ps []) r size nx)
       (seq 0 size).

(** [local_grid[1:local_rows+1, :]] *)
Definition interior (local_grid : grid) : grid :=
  let local_rows := nrows local_grid - 2 in
  slice 1 (local_rows + 1) local_grid.

(** [gather_grid]: every rank contributes its flattened interior and
    [Gatherv] deposits it on root at its displacement; the collective
    requires each contribution to have the announced count. *)
Definition gather_grid (ps : list grid) (size ny nx : nat) : option grid :=
  let '(recv_counts, displacements) := distribution ny nx size in
  let local_data r := flatten (interior (nth r ps [])) in
  if forallb (fun r => length (local_data r) =? nth r recv_counts 0) (seq 0 size)
  then
    let global_flat :=
      fold_left (fun buf r => set_slice (nth r displacements 0) (local_data r) buf)
                (seq 0 size) (zeros (ny * nx)) in
    Some (reshape ny nx global_flat)
  else None.

(** The part of [main] from "Calculate distribution" to "Reshape and add
    halo rows", for all ranks: [Scatterv] hands rank [r] the
    [send_counts[r]] cells at [displacements[r]]. *)
Definition scatter_grid (global_grid : grid) (size ny nx : nat) : list grid :=
  let '(send_counts, displacements) := distribution ny nx size in
  let global_flat := flatten global_grid in
  map (fun rank =>
         let local_rows := block_count ny size rank in
         let local_data :=
           slice (nth rank displacements 0)
                 (nth rank displacements 0 + nth rank send_counts 0) global_flat in
         let local_grid_2d := reshape local_rows nx local_data in
         set_slice 1 local_grid_2d (zeros2 (local_rows + 2) nx))
      (seq 0 size).

(** One iteration of the main loop on all ranks; the state is the local
    grids together with the snapshots written so far. *)
Definition loop_body (size ny nx steps save_interval : nat)
           (st : list grid * list (nat * grid)) (step : nat)
  : option (list grid * list (nat * grid)) :=
  let '(ps, snapshots) := st in
  let ps1 := map (fun local_grid =>
                    let next_gen := compute_next_generation local_grid nx in
                    set_slice 1 next_gen local_grid) ps in
  ps2 <- (if step <? steps - 1 then exchange_all ps1 size nx else Some ps1) ;;
  if (0 <? save_interval) && ((step + 1) mod save_interval =? 0) then
    frame_grid <- gather_grid ps2 size ny nx ;;
    Some (ps2, snapshots ++ [(step + 1, frame_grid)])
  else Some (ps2, snapshots).

(** [main] of [life_mpi.py] on [size] ranks, from the point where root
    holds [global_grid] (what [initialize_grid] returned for the chosen
    pattern and seed): the snapshots written in the loop (and the initial
    one), each with its step number, and the final grid. *)
Definition main (size ny nx steps save_interval : nat) (global_grid : grid)
  : option (list (nat * grid) * grid) :=
  let ps := scatter_grid global_grid size ny nx in
  ps <- exchange_all ps size nx ;;
  snapshots <- (if 0 <? save_interval then
                  initial_grid <- gather_grid ps size ny nx ;;
                  Some [(0, initial_grid)]
                else Some []) ;;
  st <- foldM (loop_body size ny nx steps save_interval) (seq 0 steps)
              (ps, snapshots) ;;
  final_grid <- gather_grid (fst st) size ny nx ;;
  Some (snd st, final_grid).

(* ================================================================== *)
(** ** 2-D program ([life_mpi_2d.py]) *)
(* ================================================================== *)

(** The Cartesian communicator.  [dims] is what [MPI.Compute_dims] returns
    (any factorisation of the number of ranks; taken as a parameter).
    Ranks are laid out in row-major order, as MPI prescribes, and the
    communicator keeps the ranks of [COMM_WORLD]. *)
Definition Get_cart_rank (dims : nat * nat) (coords : nat * nat) : nat :=
  fst coords * snd dims + snd coords.
Definition Get_coords (dims : nat * nat) (rank : nat) : nat * nat :=
  (rank / snd dims, rank mod snd dims).

(** [cart_comm.Shift(direction, 1)] on a periodic grid: the ranks one step
    back and one step forward along [direction]. *)
Definition Shift (dims coords : nat * nat) (direction : nat) : nat * nat :=
  match direction with
  | O => (Get_cart_rank dims (py_mod (Z.of_nat (fst coords) - 1) (fst dims), snd coords),
          Get_cart_rank dims (py_mod (Z.of_nat (fst coords) + 1) (fst dims), snd coords))
  | _ => (Get_cart_rank dims (fst coords, py_mod (Z.of_nat (snd coords) - 1) (snd dims)),
          Get_cart_rank dims (fst coords, py_mod (Z.of_nat (snd coords) + 1) (snd dims)))
  end.

Record neighbors8 := Nbrs {
  north : nat; south : nat; west : nat; east : nat;
  nw : nat; ne : nat; sw : nat; se : nat
}.

(** The eight neighbours computed at the top of [exchange_halo_2d]. *)
Definition neighbors_2d (coords dims : nat * nat) : neighbors8 :=
  let '(north, south) := Shift dims coords 0 in
  let '(west, east) := Shift dims coords 1 in
  let up := py_mod (Z.of_nat (fst coords) - 1) (fst dims) in
  let down := py_mod (Z.of_nat (fst coords) + 1) (fst dims) in
  let left := py_mod (Z.of_nat (snd coords) - 1) (snd dims) in
  let right := py_mod (Z.of_nat (snd coords) + 1) (snd dims) in
  Nbrs north south west east
       (Get_cart_rank dims (up, left)) (Get_cart_rank dims (up, right))
       (Get_cart_rank dims (down, left)) (Get_cart_rank dims (down, right)).

(** The eight [Isend]s of [exchange_halo_2d]. *)
Definition halo_sends_2d (local_grid : grid) (rank : nat) (coords dims : nat * nat)
  : list message :=
  let local_rows := nrows local_grid - 2 in
  let local_cols := ncols local_grid - 2 in
  let n := neighbors_2d coords dims in
  let north_row := slice 1 (local_cols + 1) (row local_grid 1) in
  let south_row := slice 1 (local_cols + 1) (row local_grid local_rows) in
  let west_col := column 1 (local_rows + 1) 1 local_grid in
  let east_col := column 1 (local_rows + 1) local_cols local_grid in
  let nw_cell := [cell local_grid 1 1] in
  let ne_cell := [cell local_grid 1 local_cols] in
  let sw_cell := [cell local_grid local_rows 1] in
  let se_cell := [cell local_grid local_rows local_cols] in
  [ Msg rank (south n) 0 south_row;
    Msg rank (north n) 1 north_row;
    Msg rank (east n) 2 east_col;
    Msg rank (west n) 3 west_col;
    Msg rank (se n) 4 se_cell;
    Msg rank (sw n) 5 sw_cell;
    Msg rank (ne n) 6 ne_cell;
    Msg rank (nw n) 7 nw_cell ].

(** [exchange_halo_2d(local_grid, cart_comm, coords, dims)] on rank [rank],
    given the messages [net] posted by all ranks in this exchange. *)
Definition exchange_halo_2d (net : list message) (local_grid : grid)
           (rank : nat) (coords dims : nat * nat) : option grid :=
  let local_rows := nrows local_grid - 2 in
  let local_cols := ncols local_grid - 2 in
  let n := neighbors_2d coords dims in
  recv_north <- Irecv net rank (zeros local_cols) (north n) 0 ;;
  recv_south <- Irecv net rank (zeros local_cols) (south n) 1 ;;
  recv_west <- Irecv net rank (zeros local_rows) (west n) 2 ;;
  recv_east <- Irecv net rank (zeros local_rows) (east n) 3 ;;
  recv_nw <- Irecv net rank (zeros 1) (nw n) 4 ;;
  recv_ne <- Irecv net rank (zeros 1) (ne n) 5 ;;
  recv_sw <- Irecv net rank (zeros 1) (sw n) 6 ;;
  recv_se <- Irecv net rank (zeros 1) (se n) 7 ;;
  let g := set_row_slice local_grid 0 1 recv_north in
  let g := set_row_slice g (local_rows + 1) 1 recv_south in
  let g := set_col_slice g 1 0 recv_west in
  let g := set_col_slice g 1 (local_cols + 1) recv_east in
  let g := set_cell g 0 0 (nth 0 recv_nw 0%Z) in
  let g := set_cell g 0 (local_cols + 1) (nth 0 recv_ne 0%Z) in
  let g := set_cell g (local_rows + 1) 0 (nth 0 recv_sw 0%Z) in
  let g := set_cell g (local_rows + 1) (local_cols + 1) (nth 0 recv_se 0%Z) in
  Some g.

Definition halo_network_2d (ps : list grid) (dims : nat * nat) : list message :=
  flat_map (fun r => halo_sends_2d (nth r ps []) r (Get_coords dims r) dims)
           (seq 0 (fst dims * snd dims)).

Definition exchange_all_2d (ps : list grid) (dims : nat * nat)
  : option (list grid) :=
  mapM (fun r => exchange_halo_2d (halo_network_2d ps dims) (nth r ps []) r
                                  (Get_coords dims r) dims)
       (seq 0 (fst dims * snd dims)).

(** [local_grid[1:local_rows+1, 1:local_cols+1]] *)
Definition interior_2d (local_grid : grid) : grid :=
  let local_rows := nrows local_grid - 2 in
  let local_cols := ncols local_grid - 2 in
  subgrid 1 (local_rows + 1) 1 (local_cols + 1) local_grid.

(** The pairs [(proc_row, proc_col)] in the order of root's two loops. *)
Definition proc_grid (dims : nat * nat) : list (nat * nat) :=
  flat_map (fun proc_row => map (fun proc_col => (proc_row, proc_col))
                                (seq 0 (snd dims)))
           (seq 0 (fst dims)).

Definition has_shape (rows cols : nat) (g : grid) : bool :=
  (length g =? rows) && forallb (fun rw => length rw =? cols) g.

(** [gather_grid_2d]: root walks the process grid, takes the interior of
    each rank (its own, or the one that rank sent, which has to fit the
    [nrows] x [ncols] buffer and the target slice exactly) and stores it
    at [(row_start, col_start)]. *)
Definition gather_grid_2d (ps : list grid) (dims : nat * nat) (ny nx : nat)
  : option grid :=
  let patch_of '(proc_row, proc_col) :=
    interior_2d (nth (Get_cart_rank dims (proc_row, proc_col)) ps []) in
  if forallb (fun c => has_shape (block_count ny (fst dims) (fst c))
                                 (block_count nx (snd dims) (snd c))
                                 (patch_of c))
             (proc_grid dims)
  then
    Some (fold_left
            (fun global_grid c =>
               let row_start := block_start ny (fst dims) (fst c) in
               let col_start := block_start nx (snd dims) (snd c) in
               set_block global_grid row_start col_start (patch_of c))
            (proc_grid dims) (zeros2 ny nx))
  else None.

(** The part of [main] from "Calculate 2-D distribution" to "Add halo
    cells": root cuts one patch per pair [(proc_row, proc_col)] and
    addresses it to [target_rank]; every rank pads the patch addressed to
    it (and waits for ever when there is none). *)
Definition scatter_sends_2d (global_grid : grid) (dims : nat * nat) (ny nx : nat)
  : list (nat * grid) :=
  map (fun '(proc_row, proc_col) =>
         let nrows := block_count ny (fst dims) proc_row in
         let ncols := block_count nx (snd dims) proc_col in
         let row_start := block_start ny (fst dims) proc_row in
         let col_start := block_start nx (snd dims) proc_col in
         let patch := subgrid row_start (row_start + nrows)
                              col_start (col_start + ncols) global_grid in
         (Get_cart_rank dims (proc_row, proc_col), patch))
      (proc_grid dims).

Definition scatter_grid_2d (global_grid : grid) (dims : nat * nat) (ny nx : nat)
  : option (list grid) :=
  mapM (fun rank =>
          let coords := Get_coords dims rank in
          let local_rows := block_count ny (fst dims) (fst coords) in
          let local_cols := block_count nx (snd dims) (snd coords) in
          match find (fun m => fst m =? rank)
                     (scatter_sends_2d global_grid dims ny nx) with
          | Some (_, local_data) =>
              Some (set_block (zeros2 (local_rows + 2) (local_cols + 2)) 1 1
                              local_data)
          | None => None
          end)
       (seq 0 (fst dims * snd dims)).

Definition loop_body_2d (dims : nat * nat) (ny nx steps save_interval : nat)
           (st : list grid * list (nat * grid)) (step : nat)
  : option (list grid * list (nat * grid)) :=
  let '(ps, snapshots) := st in
  let ps1 := map (fun local_grid =>
                    let next_gen := compute_next_generation_2d local_grid in
                    set_block local_grid 1 1 next_gen) ps in
  ps2 <- (if step <? steps - 1 then exchange_all_2d ps1 dims else Some ps1) ;;
  if (0 <? save_interval) && ((step + 1) mod save_interval =? 0) then
    frame_grid <- gather_grid_2d ps2 dims ny nx ;;
    Some (ps2, snapshots ++ [(step + 1, frame_grid)])
  else Some (ps2, snapshots).

(** [main] of [life_mpi_2d.py] on [dims[0] * dims[1]] ranks, from the point
    where root holds [global_grid]. *)
Definition main_2d (dims : nat * nat) (ny nx steps save_interval : nat)
           (global_grid : grid) : option (list (nat * grid) * grid) :=
  ps <- scatter_grid_2d global_grid dims ny nx ;;
  ps <- exchange_all_2d ps dims ;;
  snapshots <- (if 0 <? save_interval then
                  initial_grid <- gather_grid_2d ps dims ny nx ;;
                  Some [(0, initial_grid)]
                else Some []) ;;
  st <- foldM (loop_body_2d dims ny nx steps save_interval) (seq 0 steps)
              (ps, snapshots) ;;
  final_grid <- gather_grid_2d (fst st) dims ny nx ;;
  Some (snd st, final_grid).

(* ================================================================== *)
(** ** Reference semantics (from the specification) *)
(* ================================================================== *)

(** The rule as the specification words it: a live cell survives iff it
    has 2 or 3 live neighbours, a dead cell is born iff it has 3. *)
Definition rule_B3S23 (v n : Z) : Z :=
  if ((v =? 1) && ((n =? 2) || (n =? 3)) || (v =? 0) && (n =? 3))%Z
  then 1%Z else 0%Z.

(** Cell [(y, x)] of the torus, for any integers [y] and [x]. *)
Definition torus (ny nx : nat) (G : grid) (y x : Z) : Z :=
  cell G (py_mod y ny) (py_mod x nx).

(** The Moore neighbourhood: offsets [(+-1, +-1)], [(+-1, 0)], [(0, +-1)]. *)
Definition moore : list (Z * Z) :=
  [(-1, -1); (-1, 0); (-1, 1); (0, -1); (0, 1); (1, -1); (1, 0); (1, 1)]%Z.

Definition sumZ (l : list Z) : Z := fold_right Z.add 0%Z l.

(** The number of live neighbours of [(y, x)] on the torus. *)
Definition live_neighbors (ny nx : nat) (G : grid) (y x : nat) : Z :=
  sumZ (map (fun '(dy, dx) => torus ny nx G (Z.of_nat y + dy) (Z.of_nat x + dx))
            moore).

(** One global application of the rule on the [ny] x [nx] torus, and [k]
    of them. *)
Definition global_step (ny nx : nat) (G : grid) : grid :=
  tabulate ny nx (fun y x => rule_B3S23 (cell G y x) (live_neighbors ny nx G y x)).

Definition global_steps (ny nx k : nat) (G : grid) : grid :=
  Nat.iter k (global_step ny nx) G.

(** [G] moved by [(dy, dx)] on the torus: the cell at [(y, x)] goes to
    [((y + dy) mod ny, (x + dx) mod nx)]. *)
Definition translate (ny nx : nat) (dy dx : Z) (G : grid) : grid :=
  tabulate ny nx (fun y x => torus ny nx G (Z.of_nat y - dy) (Z.of_nat x - dx)).

(* ================================================================== *)
(** ** Predicates used in the statements *)
(* ================================================================== *)

(** The local grids [ps] of a 1-D job hold the rows of [H] in their
    interiors (nothing is said about the halo rows). *)
Definition holds_1d (size ny nx : nat) (ps : list grid) (H : grid) : Prop :=
  length ps = size /\
  forall r, r < size ->
    shape (block_count ny size r + 2) nx (nth r ps []) /\
    forall i j, i < block_count ny size r -> j < nx ->
      cell (nth r ps []) (1 + i) j = cell H (block_start ny size r + i) j.

(** The halo-padded patch of [H] that starts at [(r0, c0)] and owns
    [rows] x [cols] cells once its halo is consistent with the torus;
    [view_1d] is the same for a strip, which has no halo columns. *)
Definition view_2d (ny nx : nat) (H : grid) (r0 rows c0 cols : nat) : grid :=
  tabulate (rows + 2) (cols + 2) (fun i j =>
    torus ny nx H (Z.of_nat r0 + Z.of_nat i - 1) (Z.of_nat c0 + Z.of_nat j - 1)).

Definition view_1d (ny nx : nat) (H : grid) (r0 rows : nat) : grid :=
  tabulate (rows + 2) nx (fun i j =>
    torus ny nx H (Z.of_nat r0 + Z.of_nat i - 1) (Z.of_nat j)).

(** All the strips (patches) of [H] with consistent halos, by rank. *)
Definition views_1d (size ny nx : nat) (H : grid) : list grid :=
  map (fun r => view_1d ny nx H (block_start ny size r) (block_count ny size r))
      (seq 0 size).

Definition views_2d (dims : nat * nat) (ny nx : nat) (H : grid) : list grid :=
  map (fun r =>
         let '(pr, pc) := Get_coords dims r in
         view_2d ny nx H (block_start ny (fst dims) pr) (block_count ny (fst dims) pr)
                         (block_start nx (snd dims) pc) (block_count nx (snd dims) pc))
      (seq 0 (fst dims * snd dims)).

(** The snapshots a run of [steps] steps is expected to write: step 0 and
    every multiple of [save_interval] up to [steps], each with the grid
    the reference semantics reaches after that many steps. *)
Definition snapshot_due (save_interval k : nat) : bool :=
  (0 <? save_interval) && (k mod save_interval =? 0).

Definition expected_snapshots (ny nx steps save_interval : nat) (G : grid)
  : list (nat * grid) :=
  map (fun k => (k, global_steps ny nx k G))
      (filter (snapshot_due save_interval) (seq 0 (S steps))).

(** The local grids [ps] of a 2-D job hold the cells of [H] in their
    interiors (nothing is said about the halo cells). *)
Definition holds_2d (dims : nat * nat) (ny nx : nat) (ps : list grid) (H : grid)
  : Prop :=
  length ps = fst dims * snd dims /\
  forall pr pc, pr < fst dims -> pc < snd dims ->
    let g := nth (Get_cart_rank dims (pr, pc)) ps [] in
    shape (block_count ny (fst dims) pr + 2) (block_count nx (snd dims) pc + 2) g /\
    forall i j, i < block_count ny (fst dims) pr -> j < block_count nx (snd dims) pc ->
      cell g (1 + i) (1 + j)
      = cell H (block_start ny (fst dims) pr + i) (block_start nx (snd dims) pc + j).

(** Every local grid of a 1-D (2-D) job has the shape the decomposition
    gives its rank, halo included; as a computable check and as a
    proposition. *)
Definition well_formed (size ny nx : nat) (ps : list grid) : bool :=
  (length ps =? size) &&
  forallb (fun r => has_shape (block_count ny size r + 2) nx (nth r ps []))
          (seq 0 size).

Definition well_formed_2d (dims : nat * nat) (ny nx : nat) (ps : list grid) : bool :=
  (length ps =? fst dims * snd dims) &&
  forallb (fun c => has_shape (block_count ny (fst dims) (fst c) + 2)
                              (block_count nx (snd dims) (snd c) + 2)
                              (nth (Get_cart_rank dims c) ps []))
          (proc_grid dims).

Definition wf_1d (size ny nx : nat) (ps : list grid) : Prop :=
  length ps = size /\
  forall r, r < size -> shape (block_count ny size r + 2) nx (nth r ps []).

Definition wf_2d (dims : nat * nat) (ny nx : nat) (ps : list grid) : Prop :=
  length ps = fst dims * snd dims /\
  forall pr pc, pr < fst dims -> pc < snd dims ->
    shape (block_count ny (fst dims) pr + 2) (block_count nx (snd dims) pc + 2)
          (nth (Get_cart_rank dims (pr, pc)) ps []).

(** every cell is 0 or 1, as a computable check *)
Definition binaryb (g : grid) : bool :=
  forallb (forallb (fun v => (v =? 0)%Z || (v =? 1)%Z)) g.

(** What rank [r] of a 1-D job holds after one halo exchange on the local
    grids [ps]: its own rows between the last owned row of the rank above
    and the first owned row of the rank below. *)
Definition exchanged_1d (size ny : nat) (ps : list grid) (r : nat) : grid :=
  set_row (set_row (nth r ps []) 0
                   (row (nth (top_neighbor r size) ps [])
                        (block_count ny size (top_neighbor r size))))
          (block_count ny size r + 1)
          (row (nth (bottom_neighbor r size) ps []) 1).

(** What the rank at [(a, b)] of a 2-D job holds after one halo exchange
    on the local grids [ps]: its own grid with the eight halo regions
    overwritten, in the order of the assignments of [exchange_halo_2d],
    by the edge rows, edge columns and corner cells its neighbours sent. *)
Definition exchanged_2d (dims : nat * nat) (ny nx : nat) (ps : list grid)
           (a b : nat) : grid :=
  let patch a b := nth (Get_cart_rank dims (a, b)) ps [] in
  let nr a := block_count ny (fst dims) a in
  let nc b := block_count nx (snd dims) b in
  let up := py_mod (Z.of_nat a - 1) (fst dims) in
  let down := py_mod (Z.of_nat a + 1) (fst dims) in
  let left := py_mod (Z.of_nat b - 1) (snd dims) in
  let right := py_mod (Z.of_nat b + 1) (snd dims) in
  let g := set_row_slice (patch a b) 0 1
             (slice 1 (nc b + 1) (row (patch up b) (nr up))) in
  let g := set_row_slice g (nr a + 1) 1
             (slice 1 (nc b + 1) (row (patch down b) 1)) in
  let g := set_col_slice g 1 0 (column 1 (nr a + 1) (nc left) (patch a left)) in
  let g := set_col_slice g 1 (nc b + 1) (column 1 (nr a + 1) 1 (patch a right)) in
  let g := set_cell g 0 0 (cell (patch up left) (nr up) (nc left)) in
  let g := set_cell g 0 (nc b + 1) (cell (patch up right) (nr up) 1) in
  let g := set_cell g (nr a + 1) 0 (cell (patch down left) 1 (nc left)) in
  set_cell g (nr a + 1) (nc b + 1) (cell (patch down right) 1 1).

(** Halo consistency, one axis at a time.  Position [i] of the padded
    strip [k] (which owns [cnt] rows or columns) shows position
    [halo_index] of strip [halo_strip]: the last owned position of the
    strip before [k] on the ring, an owned position of [k] itself, or the
    first owned position of the strip after [k]. *)
Definition halo_strip (p k cnt i : nat) : nat :=
  if i =? 0 then py_mod (Z.of_nat k - 1) p
  else if i =? cnt + 1 then py_mod (Z.of_nat k + 1) p
  else k.

Definition halo_index (n p k i : nat) : nat :=
  if i =? 0 then block_count n p (py_mod (Z.of_nat k - 1) p)
  else if i =? block_count n p k + 1 then 1
  else i.

(** A grid whose only live cells are a 2 x 2 block with its top-left cell
    at [(y0, x0)], and one whose only live cells are a horizontal blinker
    with its leftmost cell at [(y0, x0)]; positions are taken on the
    torus, so the pattern may straddle the seam. *)
Definition block_grid (ny nx y0 x0 : nat) : grid :=
  tabulate ny nx (fun y x =>
    if (py_mod (Z.of_nat y - Z.of_nat y0) ny <? 2)
       && (py_mod (Z.of_nat x - Z.of_nat x0) nx <? 2)
    then 1%Z else 0%Z).

Definition blinker_grid (ny nx y0 x0 : nat) : grid :=
  tabulate ny nx (fun y x =>
    if (py_mod (Z.of_nat y - Z.of_nat y0) ny =? 0)
       && (py_mod (Z.of_nat x - Z.of_nat x0) nx <? 3)
    then 1%Z else 0%Z).

(** The other phase of the blinker: three cells in a column. *)
Definition blinker_grid_vertical (ny nx y0 x0 : nat) : grid :=
  tabulate ny nx (fun y x =>
    if (py_mod (Z.of_nat y - Z.of_nat y0 + 1) ny <? 3)
       && (py_mod (Z.of_nat x - Z.of_nat x0) nx =? 1)
    then 1%Z else 0%Z).

(** The array positions a kernel evaluates, cell by cell in the order of
    its loops: the position of the cell it updates, paired with the
    positions it adds up for the neighbours. *)
Definition kernel_reads (local_grid : grid) (nx : nat)
  : list ((nat * nat) * list (nat * nat)) :=
  flat_map (fun i => map (fun j => ((i, j), neighbor_indices nx i j)) (seq 0 nx))
           (seq 1 (nrows local_grid - 1 - 1)).

Definition kernel_reads_2d (local_grid : grid)
  : list ((nat * nat) * list (nat * nat)) :=
  flat_map (fun i => map (fun j => ((i, j), neighbor_indices_2d i j))
                         (seq 1 (ncols local_grid - 1 - 1)))
           (seq 1 (nrows local_grid - 1 - 1)).

(** What a kernel makes of the positions it evaluates. *)
Definition eval_reads (local_grid : grid) (c : (nat * nat) * list (nat * nat)) : Z :=
  update_cell (cell local_grid (fst (fst c)) (snd (fst c)))
              (neighbors_sum local_grid (snd c)).

(** [p] is one of the eight cells around [c] (no wrap-around). *)
Definition adjacent (c p : nat * nat) : bool :=
  negb ((fst p =? fst c) && (snd p =? snd c))
  && (fst p <=? fst c + 1) && (fst c <=? fst p + 1)
  && (snd p <=? snd c + 1) && (snd c <=? snd p + 1).

(** Every updated cell is an interior cell [(i, j)], [1 <= i <= rows],
    [1 <= j <= cols], and the eight positions read for it are the cells
    around it in the padded patch. *)
Definition reads_halo_only (rows cols : nat)
           (reads : list ((nat * nat) * list (nat * nat))) : bool :=
  forallb (fun '(c, idx) =>
             (1 <=? fst c) && (fst c <=? rows) && (1 <=? snd c) && (snd c <=? cols)
             && (length idx =? 8) && forallb (adjacent c) idx)
          reads.

(** Every updated cell is [(i, j)] with [1 <= i <= rows] and
    [0 <= j < nx]; the positions read for it lie in rows [i - 1 .. i + 1]
    of the padded strip and in columns [j], [(j + 1) mod nx] and
    [(j - 1) mod nx]. *)
Definition reads_wrap_columns (rows nx : nat)
           (reads : list ((nat * nat) * list (nat * nat))) : bool :=
  forallb (fun '(c, idx) =>
             (1 <=? fst c) && (fst c <=? rows) && (snd c <? nx)
             && (length idx =? 8)
             && forallb (fun p =>
                   (fst p <=? fst c + 1) && (fst c <=? fst p + 1)
                   && ((snd p =? snd c) || (snd p =? (snd c + 1) mod nx)
                       || (snd p =? (snd c + nx - 1) mod nx)))
                 idx)
          reads.

(** Halo consistency of the local grids [ps] at rank [r] of a 1-D job:
    the top halo row shows the last owned row of the rank above, the
    bottom halo row the first owned row of the rank below. *)
Definition halo_consistent (size ny nx : nat) (ps : list grid) (r : nat) : Prop :=
  let c r := block_count ny size r in
  let t := top_neighbor r size in
  let b := bottom_neighbor r size in
  forall j, j < nx ->
    cell (nth r ps []) 0 j = cell (nth t ps []) (c t) j /\
    cell (nth r ps []) (c r + 1) j = cell (nth b ps []) 1 j.

(** Halo consistency at the rank with coordinates [(a, b)] of a 2-D job:
    each of the eight halo regions shows the owned edge row, edge column
    or corner cell of the neighbour [neighbors_2d] names on that side. *)
Definition halo_consistent_2d (dims : nat * nat) (ny nx : nat) (ps : list grid)
           (a b : nat) : Prop :=
  let nr := block_count ny (fst dims) a in
  let nc := block_count nx (snd dims) b in
  let rows_of q := block_count ny (fst dims) (fst (Get_coords dims q)) in
  let cols_of q := block_count nx (snd dims) (snd (Get_coords dims q)) in
  let n := neighbors_2d (a, b) dims in
  let g := nth (Get_cart_rank dims (a, b)) ps [] in
  (forall j, 1 <= j <= nc ->
     cell g 0 j = cell (nth (north n) ps []) (rows_of (north n)) j /\
     cell g (nr + 1) j = cell (nth (south n) ps []) 1 j) /\
  (forall i, 1 <= i <= nr ->
     cell g i 0 = cell (nth (west n) ps []) i (cols_of (west n)) /\
     cell g i (nc + 1) = cell (nth (east n) ps []) i 1) /\
  cell g 0 0 = cell (nth (nw n) ps []) (rows_of (nw n)) (cols_of (nw n)) /\
  cell g 0 (nc + 1) = cell (nth (ne n) ps []) (rows_of (ne n)) 1 /\
  cell g (nr + 1) 0 = cell (nth (sw n) ps []) 1 (cols_of (sw n)) /\
  cell g (nr + 1) (nc + 1) = cell (nth (se n) ps []) 1 1.

(** The owned cells of every rank are the same in [ps] and [ps']. *)
Definition same_owned (size ny nx : nat) (ps ps' : list grid) : Prop :=
  forall r i j, r < size -> 1 <= i <= block_count ny size r -> j < nx ->
    cell (nth r ps' []) i j = cell (nth r ps []) i j.

Definition same_owned_2d (dims : nat * nat) (ny nx : nat) (ps ps' : list grid)
  : Prop :=
  forall a b i j, a < fst dims -> b < snd dims ->
    1 <= i <= block_count ny (fst dims) a -> 1 <= j <= block_count nx (snd dims) b ->
    cell (nth (Get_cart_rank dims (a, b)) ps' []) i j
    = cell (nth (Get_cart_rank dims (a, b)) ps []) i j.

(** Example inputs: a blinker on a 4 x 4 torus, a 5 x 6 soup, a 3 x 4
    strip with its halo rows, a 2 x 4 grid for three ranks. *)
Definition example_blinker : grid :=
  [[0;0;0;0]; [1;1;1;0]; [0;0;0;0]; [0;0;0;0]]%Z.

Definition example_soup : grid :=
  [[0;1;0;0;0;1]; [1;1;1;0;0;0]; [0;0;1;0;1;0]; [0;0;0;1;1;0]; [1;0;0;0;0;1]]%Z.

Definition example_small : grid := [[1;1;1;0]; [0;0;0;0]]%Z.

(** The patch of the pair [c = (proc_row, proc_col)] owns the global cell
    [(y, x)]. *)
Definition owns (dims : nat * nat) (ny nx : nat) (c : nat * nat) (y x : nat) : Prop :=
  block_start ny (fst dims) (fst c) <= y
    < block_start ny (fst dims) (fst c) + block_count ny (fst dims) (fst c) /\
  block_start nx (snd dims) (snd c) <= x
    < block_start nx (snd dims) (snd c) + block_count nx (snd dims) (snd c).

(** The receives a rank posts in one exchange, each as (source, tag,
    length of the receive buffer), in the order of the [Irecv] calls of
    [exchange_halo] and of [exchange_halo_2d]. *)
Definition halo_recvs (rank size nx : nat) : list (nat * nat * nat) :=
  [ (top_neighbor rank size, 0, nx); (bottom_neighbor rank size, 1, nx) ].

Definition halo_recvs_2d (local_grid : grid) (coords dims : nat * nat)
  : list (nat * nat * nat) :=
  let local_rows := nrows local_grid - 2 in
  let local_cols := ncols local_grid - 2 in
  let n := neighbors_2d coords dims in
  [ (north n, 0, local_cols); (south n, 1, local_cols);
    (west n, 2, local_rows); (east n, 3, local_rows);
    (nw n, 4, 1); (ne n, 5, 1); (sw n, 6, 1); (se n, 7, 1) ].

(* ================================================================== *)
(** ** Initial patterns ([create_*], [initialize_grid]) *)
(* ================================================================== *)

(** Python strings, as lists of characters; [lit] turns a literal into
    one. *)
Definition str := list Ascii.ascii.
Definition lit (s : String.string) : str := String.list_ascii_of_string s.
Arguments lit s%_string.

(** [s == t] on strings. *)
Fixpoint str_eqb (s t : str) : bool :=
  match s, t with
  | [], [] => true
  | c :: s', d :: t' => Ascii.eqb c d && str_eqb s' t'
  | _, _ => false
  end.

(** The three arrays drawn by [create_glider_gun], [create_glider] and
    [create_r_pentomino]. *)
Definition gun_pattern : grid := [
    [0;0;0;0;0;0;0;0;0;0;0;0;0;0;0;0;0;0;0;0;0;0;0;0;1;0;0;0;0;0;0;0;0;0;0;0];
    [0;0;0;0;0;0;0;0;0;0;0;0;0;0;0;0;0;0;0;0;0;0;1;0;1;0;0;0;0;0;0;0;0;0;0;0];
    [0;0;0;0;0;0;0;0;0;0;0;0;1;1;0;0;0;0;0;0;1;1;0;0;0;0;0;0;0;0;0;0;0;0;1;1];
    [0;0;0;0;0;0;0;0;0;0;0;1;0;0;0;1;0;0;0;0;1;1;0;0;0;0;0;0;0;0;0;0;0;0;1;1];
    [1;1;0;0;0;0;0;0;0;0;1;0;0;0;0;0;1;0;0;0;1;1;0;0;0;0;0;0;0;0;0;0;0;0;0;0];
    [1;1;0;0;0;0;0;0;0;0;1;0;0;0;1;0;1;1;0;0;0;0;1;0;1;0;0;0;0;0;0;0;0;0;0;0];
    [0;0;0;0;0;0;0;0;0;0;1;0;0;0;0;0;1;0;0;0;0;0;0;0;1;0;0;0;0;0;0;0;0;0;0;0];
    [0;0;0;0;0;0;0;0;0;0;0;1;0;0;0;1;0;0;0;0;0;0;0;0;0;0;0;0;0;0;0;0;0;0;0;0];
    [0;0;0;0;0;0;0;0;0;0;0;0;1;1;0;0;0;0;0;0;0;0;0;0;0;0;0;0;0;0;0;0;0;0;0;0]
  ]%Z.

Definition glider : grid := [[0; 1; 0]; [0; 0; 1]; [1; 1; 1]]%Z.

Definition r_pentomino : grid := [[0; 1; 1]; [1; 1; 0]; [0; 1; 0]]%Z.

(** The double loop the three [create_*] functions share,
    [for i in range(h): for j in range(w):
       y = (start_y + i) % grid.shape[0]; x = (start_x + j) % grid.shape[1];
       grid[y, x] = pattern[i, j]].
    On an array without rows or without columns the first [%] raises
    ZeroDivisionError ([None]); the functions update [grid] in place, the
    model returns the updated array. *)
Definition write_pattern (pattern : grid) (h w : nat) (g : grid)
           (start_x start_y : Z) : option grid :=
  if (0 <? h * w) && ((nrows g =? 0) || (ncols g =? 0)) then None
  else
    Some (fold_left
            (fun g' '(i, j) =>
               let y := py_mod (start_y + Z.of_nat i) (nrows g) in
               let x := py_mod (start_x + Z.of_nat j) (ncols g) in
               set_cell g' y x (cell pattern i j))
            (list_prod (seq 0 h) (seq 0 w)) g).

Definition create_glider_gun (g : grid) (start_x start_y : Z) : option grid :=
  write_pattern gun_pattern (nrows gun_pattern) (ncols gun_pattern) g
                start_x start_y.

Definition create_glider (g : grid) (start_x start_y : Z) : option grid :=
  write_pattern glider 3 3 g start_x start_y.

Definition create_r_pentomino (g : grid) (start_x start_y : Z) : option grid :=
  write_pattern r_pentomino 3 3 g start_x start_y.

(** [initialize_grid(nx, ny, pattern, seed)].  [random_choice seed ny nx]
    stands for what [np.random.choice([0, 1], size=(ny, nx), p=[0.9, 0.1])]
    draws after [np.random.seed(seed)]; a pattern name that is none of the
    four leaves the array of zeros. *)
Definition initialize_grid (random_choice : Z -> nat -> nat -> grid)
           (nx ny : nat) (pattern : str) (seed : Z) : option grid :=
  let g := zeros2 ny nx in
  if str_eqb pattern (lit "random") then Some (random_choice seed ny nx)
  else if str_eqb pattern (lit "glider_gun") then
    create_glider_gun g (Z.max 20 (Z.of_nat nx / 4)) (Z.max 20 (Z.of_nat ny / 4))
  else if str_eqb pattern (lit "glider") then
    create_glider g (Z.max 10 (Z.of_nat nx / 2)) (Z.max 10 (Z.of_nat ny / 2))
  else if str_eqb pattern (lit "r_pentomino") then
    create_r_pentomino g (Z.max 10 (Z.of_nat nx / 2)) (Z.max 10 (Z.of_nat ny / 2))
  else Some g.

(** [pattern] (of [h] x [w] cells) laid over the [ny] x [nx] array [g]
    with its top-left cell at [(y0, x0)] of the torus; the other cells are
    those of [g] (used in the statements). *)
Definition overlay (pattern : grid) (h w ny nx : nat) (y0 x0 : Z) (g : grid)
  : grid :=
  tabulate ny nx (fun y x =>
    let i := py_mod (Z.of_nat y - y0) ny in
    let j := py_mod (Z.of_nat x - x0) nx in
    if (i <? h) && (j <? w) then cell pattern i j else cell g y x).

(** What a [create_*] call makes of [g] on a grid of any size, [g']:
    a cell holds the entry of the pattern that the loops wrote to it
    last (an entry [(i, j)] after which, in the order of the loops, no
    entry goes to the same cell), and a cell no entry goes to is left as
    it was (used in the statements). *)
Definition last_write_wins (pattern : grid) (h w ny nx : nat)
           (start_x start_y : Z) (g g' : grid) : Prop :=
  let target i j :=
    (py_mod (start_y + Z.of_nat i) ny, py_mod (start_x + Z.of_nat j) nx) in
  shape ny nx g' /\
  (forall i j, i < h -> j < w ->
     (forall i' j', i' < h -> j' < w -> i < i' \/ (i = i' /\ j < j') ->
                    target i' j' <> target i j) ->
     cell g' (fst (target i j)) (snd (target i j)) = cell pattern i j) /\
  (forall y x, y < ny -> x < nx ->
     (forall i j, i < h -> j < w -> target i j <> (y, x)) ->
     cell g' y x = cell g y x).

(* ================================================================== *)
(** ** Checksum and workloads *)
(* ================================================================== *)

(** [np.sum] of an integer array accumulates in 64-bit integers. *)
Definition int64 (z : Z) : Z := ((z + 2 ^ 63) mod 2 ^ 64 - 2 ^ 63)%Z.

Definition np_sum (g : grid) : Z := int64 (sumZ (flatten g)).

(** The number of cells of [g] that hold 1 (used in the statements). *)
Definition live_count (g : grid) : nat := count_occ Z.eq_dec (flatten g) 1%Z.

(** The loop of [create_rank_heatmap_animation] that fills
    [rank_boundaries]; [ny // num_ranks] raises ZeroDivisionError when
    [num_ranks] is 0. *)
Definition rank_boundaries (ny num_ranks : nat) : option (list (nat * nat)) :=
  if num_ranks =? 0 then None
  else
    let rows_per_rank := ny / num_ranks in
    let remainder := ny mod num_ranks in
    Some (fst (fold_left
                 (fun '(boundaries, current_row) r =>
                    let local_rows :=
                      if r <? remainder then rows_per_rank + 1 else rows_per_rank in
                    let end_row := current_row + local_rows in
                    (boundaries ++ [(current_row, end_row)], end_row))
                 (seq 0 num_ranks) ([], 0))).

(** [rank_workloads]: [np.sum(grid[start_row:end_row, :])] for every pair
    of [rank_boundaries]. *)
Definition rank_workloads (g : grid) (boundaries : list (nat * nat)) : list Z :=
  map (fun '(start_row, end_row) => np_sum (slice start_row end_row g))
      boundaries.

(* ================================================================== *)
(** ** Snapshot files ([save_snapshot], [load_snapshots]) *)
(* ================================================================== *)

Definition digit_char (d : nat) : Ascii.ascii := Ascii.ascii_of_nat (48 + d).

(** [str(n)] for [n >= 0]: the decimal digits, most significant first
    ([fuel] bounds the number of digits). *)
Fixpoint decimal_digits (fuel n : nat) (acc : str) : str :=
  match fuel with
  | O => acc
  | S fuel' =>
      let acc' := digit_char (n mod 10) :: acc in
      if n / 10 =? 0 then acc' else decimal_digits fuel' (n / 10) acc'
  end.

Definition str_of_nat (n : nat) : str := decimal_digits (S n) n [].

(** The format [{step:06d}]: at least six digits, padded with zeros on
    the left. *)
Definition format_06d (step : nat) : str :=
  let s := str_of_nat step in
  repeat (digit_char 0) (6 - length s) ++ s.

Definition sep : Ascii.ascii := Ascii.ascii_of_nat 47.
Definition is_sep (c : Ascii.ascii) : bool := Ascii.eqb c sep.

(** [os.path.join(a, b)] and [os.path.basename(p)] (POSIX). *)
Definition starts_with_sep (p : str) : bool :=
  match p with
  | c :: _ => is_sep c
  | [] => false
  end.

Definition path_join (a b : str) : str :=
  if starts_with_sep b then b
  else if (length a =? 0) || starts_with_sep (rev a) then a ++ b
  else a ++ sep :: b.

Fixpoint basename (p : str) : str :=
  match p with
  | [] => []
  | c :: t => if existsb is_sep t then basename t
              else if is_sep c then t else c :: t
  end.

(** The file name [save_snapshot] writes to:
    [os.path.join(output_dir, f"step_{step:06d}.npz")]. *)
Definition snapshot_filename (output_dir : str) (step : nat) : str :=
  path_join output_dir (lit "step_" ++ format_06d step ++ lit ".npz").

(** [s.split(c)] for a one-character separator. *)
Fixpoint split (c : Ascii.ascii) (s : str) : list str :=
  match s with
  | [] => [[]]
  | a :: t =>
      if Ascii.eqb a c then [] :: split c t
      else match split c t with
           | w :: ws => (a :: w) :: ws
           | [] => [[a]]
           end
  end.

(** [int(s)] on a non-empty string of ASCII digits; every other string
    is refused here (Python accepts a few more: a sign, blanks around the
    digits, underscores between them). *)
Definition digit_value (c : Ascii.ascii) : option nat :=
  let n := Ascii.nat_of_ascii c in
  if (48 <=? n) && (n <=? 57) then Some (n - 48) else None.

Fixpoint int_digits (s : str) (acc : nat) : option nat :=
  match s with
  | [] => Some acc
  | c :: t => d <- digit_value c ;; int_digits t (10 * acc + d)
  end.

Definition int_of_str (s : str) : option nat :=
  match s with
  | [] => None
  | _ => int_digits s 0
  end.

(** [int(os.path.basename(filename).split('_')[1].split('.')[0])], the
    step number the visualisers read back from a file name; an index out
    of range raises IndexError. *)
Definition step_of_filename (filename : str) : option nat :=
  match split (Ascii.ascii_of_nat 95) (basename filename) with
  | _ :: part :: _ =>
      match split (Ascii.ascii_of_nat 46) part with
      | number :: _ => int_of_str number
      | [] => None
      end
  | _ => None
  end.

(** [s < t] on strings: lexicographic, by code point. *)
Fixpoint str_ltb (s t : str) : bool :=
  match s, t with
  | _, [] => false
  | [], _ :: _ => true
  | c :: s', d :: t' =>
      (Ascii.nat_of_ascii c <? Ascii.nat_of_ascii d)
      || ((Ascii.nat_of_ascii c =? Ascii.nat_of_ascii d) && str_ltb s' t')
  end.

(** [sorted(l)] by a comparison [ltb]: a stable insertion sort, which
    returns what any stable sort returns. *)
Fixpoint insert_sorted (A : Type) (ltb : A -> A -> bool) (a : A) (l : list A)
  : list A :=
  match l with
  | [] => [a]
  | b :: t => if ltb b a then b :: insert_sorted ltb a t else a :: b :: t
  end.

Fixpoint sorted (A : Type) (ltb : A -> A -> bool) (l : list A) : list A :=
  match l with
  | [] => []
  | a :: t => insert_sorted ltb a (sorted ltb t)
  end.

(** [load_snapshots(input_dir)]: [files] is what [glob] finds in the
    directory, in whatever order, and [read f] the grid stored in the
    file [f]; the result is [None] when there is no file. *)
Definition load_snapshots (files : list str) (read : str -> grid)
  : option (list (str * grid)) :=
  let files := sorted str_ltb files in
  match files with
  | [] => None
  | _ => Some (map (fun f => (f, read f)) files)
  end.

(** The files a run leaves behind.  [save_snapshot] is called for the
    initial grid and in the loop (the pairs of [fst run], in that order)
    and once more for the final grid, at step [steps]; the metadata
    stored beside the grid is left out.  A later write to a name replaces
    the file: [file_content] is the grid of the last write to [name] (the
    empty array for a name that was never written). *)
Definition snapshot_writes (output_dir : str) (steps : nat)
           (run : list (nat * grid) * grid) : list (str * grid) :=
  map (fun '(step, g) => (snapshot_filename output_dir step, g)) (fst run)
  ++ [(snapshot_filename output_dir steps, snd run)].

Definition file_content (writes : list (str * grid)) (name : str) : grid :=
  match find (fun w => str_eqb (fst w) name) (rev writes) with
  | Some (_, g) => g
  | None => []
  end.

(* ================================================================== *)
(** ** Visualisers ([visualize.py], [visualize_local.py], [deliverables/visualize.py]) *)
(* ================================================================== *)

(** The [while] loop of [trim_inactive_tail], started at
    [last_active_idx = n - 1]: the index it stops at, or -1. *)
Fixpoint last_active_idx (alive_counts : list Z) (min_alive : Z) (n : nat) : Z :=
  match n with
  | O => (-1)%Z
  | S i => if (nth i alive_counts 0 <=? min_alive)%Z
           then last_active_idx alive_counts min_alive i
           else Z.of_nat i
  end.

(** [trim_inactive_tail(snapshots, alive_counts, min_alive)] *)
Definition trim_inactive_tail (A : Type) (snapshots : list A)
           (alive_counts : list Z) (min_alive : Z) : list A * list Z :=
  let last_active := last_active_idx alive_counts min_alive (length alive_counts) in
  if (last_active =? Z.of_nat (length alive_counts) - 1)%Z
  then (snapshots, alive_counts)
  else
    let trimmed := (last_active + 1)%Z in
    if (trimmed =? 0)%Z then (snapshots, alive_counts)
    else (firstn (Z.to_nat trimmed) snapshots,
          firstn (Z.to_nat trimmed) alive_counts).

(** [np.argwhere(grid > 0)]: the positions of the positive cells, in
    row-major order. *)
Definition alive_coords (g : grid) : list (Z * Z) :=
  flat_map (fun y =>
    flat_map (fun x =>
      if (0 <? cell g y x)%Z then [(Z.of_nat y, Z.of_nat x)] else [])
      (seq 0 (ncols g)))
    (seq 0 (nrows g)).

(** [min] and [max] of a non-empty list. *)
Definition list_min (l : list Z) : Z :=
  match l with
  | [] => 0%Z
  | a :: t => fold_left Z.min t a
  end.

Definition list_max (l : list Z) : Z :=
  match l with
  | [] => 0%Z
  | a :: t => fold_left Z.max t a
  end.

(** [get_active_bbox(grid, padding)] of [visualize_local.py]; the result
    is [(min_y, max_y, min_x, max_x)]. *)
Definition get_active_bbox (g : grid) (padding : Z) : Z * Z * Z * Z :=
  let alive := alive_coords g in
  let ny := Z.of_nat (nrows g) in
  let nx := Z.of_nat (ncols g) in
  if length alive =? 0 then
    (Z.max 0 (ny / 2 - 100), Z.min ny (ny / 2 + 100),
     Z.max 0 (nx / 2 - 100), Z.min nx (nx / 2 + 100))%Z
  else
    let min_y := list_min (map fst alive) in
    let min_x := list_min (map snd alive) in
    let max_y := list_max (map fst alive) in
    let max_x := list_max (map snd alive) in
    let min_y := Z.max 0 (min_y - padding) in
    let max_y := Z.min ny (max_y + padding) in
    let min_x := Z.max 0 (min_x - padding) in
    let max_x := Z.min nx (max_x + padding) in
    let height := (max_y - min_y)%Z in
    let width := (max_x - min_x)%Z in
    let min_size := 200%Z in
    let max_size := 800%Z in
    let '(min_y, max_y) :=
      if (height <? min_size)%Z then
        let expand := ((min_size - height) / 2)%Z in
        (Z.max 0 (min_y - expand), Z.min ny (max_y + expand))
      else (min_y, max_y) in
    let '(min_x, max_x) :=
      if (width <? min_size)%Z then
        let expand := ((min_size - width) / 2)%Z in
        (Z.max 0 (min_x - expand), Z.min nx (max_x + expand))
      else (min_x, max_x) in
    let '(min_y, max_y) :=
      if (max_size <? height)%Z then
        let center_y := ((min_y + max_y) / 2)%Z in
        (Z.max 0 (center_y - max_size / 2), Z.min ny (center_y + max_size / 2))
      else (min_y, max_y) in
    let '(min_x, max_x) :=
      if (max_size <? width)%Z then
        let center_x := ((min_x + max_x) / 2)%Z in
        (Z.max 0 (center_x - max_size / 2), Z.min nx (center_x + max_size / 2))
      else (min_x, max_x) in
    (min_y, max_y, min_x, max_x).

(** [get_active_bbox(grid, padding)] of [deliverables/visualize.py] (the
    expanding view). *)
Definition get_active_bbox_expanding (g : grid) (padding : Z) : Z * Z * Z * Z :=
  let alive := alive_coords g in
  let ny := Z.of_nat (nrows g) in
  let nx := Z.of_nat (ncols g) in
  if length alive =? 0 then
    (ny / 2 - 50, ny / 2 + 50, nx / 2 - 50, nx / 2 + 50)%Z
  else
    let min_y := list_min (map fst alive) in
    let min_x := list_min (map snd alive) in
    let max_y := list_max (map fst alive) in
    let max_x := list_max (map snd alive) in
    (Z.max 0 (min_y - padding), Z.min ny (max_y + padding),
     Z.max 0 (min_x - padding), Z.min nx (max_x + padding)).

(** The window both animations of [visualize_local.py] cut out of a
    frame: [target_region_size] cells a side, centred on the bounding box
    of the live cells and pushed back inside the grid. *)
Definition fixed_window (target_region_size full_ny full_nx : Z) (g : grid)
  : Z * Z * Z * Z :=
  let '(min_y, max_y, min_x, max_x) := get_active_bbox g 50 in
  let center_y := ((min_y + max_y) / 2)%Z in
  let center_x := ((min_x + max_x) / 2)%Z in
  let half_size := (target_region_size / 2)%Z in
  let min_y := Z.max 0 (center_y - half_size) in
  let max_y := Z.min full_ny (center_y + half_size) in
  let min_x := Z.max 0 (center_x - half_size) in
  let max_x := Z.min full_nx (center_x + half_size) in
  let '(min_y, max_y) :=
    if (max_y - min_y <? target_region_size)%Z then
      if (min_y =? 0)%Z then (min_y, Z.min full_ny target_region_size)
      else (Z.max 0 (full_ny - target_region_size), max_y)
    else (min_y, max_y) in
  let '(min_x, max_x) :=
    if (max_x - min_x <? target_region_size)%Z then
      if (min_x =? 0)%Z then (min_x, Z.min full_nx target_region_size)
      else (Z.max 0 (full_nx - target_region_size), max_x)
    else (min_x, max_x) in
  (min_y, max_y, min_x, max_x).

(** The loop of [create_expanding_animation] that smooths the view
    sizes: [view_sizes = [initial_size]], then one entry for every
    element of [required_sizes[1:]]. *)
Definition view_sizes (initial_size max_size : Z) (required_sizes : list Z)
  : list Z :=
  fold_left
    (fun view_sizes req_size =>
       let new_size := Z.max (last view_sizes 0%Z)
                             (Z.min req_size (last view_sizes 0%Z + 50)) in
       let new_size := Z.min new_size max_size in
       view_sizes ++ [new_size])
    (tl required_sizes) [initial_size].

(** [create_simple_animation] of [visualize.py], for one frame: the
    pixels [(1 - grid.astype(np.int32)) * 255] converted to [uint8], and
    the image enlarged by [scale = max(1, min(4, 800 // max(nx, ny)))]
    with [np.repeat] along both axes when [scale > 1]; the division
    raises ZeroDivisionError for a frame without rows and columns. *)
Definition int32 (z : Z) : Z := ((z + 2 ^ 31) mod 2 ^ 32 - 2 ^ 31)%Z.
Definition uint8 (z : Z) : Z := (z mod 256)%Z.

Definition np_repeat (A : Type) (repeats : nat) (l : list A) : list A :=
  flat_map (fun a => repeat a repeats) l.

Definition frame_image (g : grid) : option grid :=
  let img_data := map (map (fun v => uint8 (int32 (int32 (1 - v) * 255)))) g in
  let ny := nrows g in
  let nx := ncols g in
  if Nat.max nx ny =? 0 then None
  else
    let scale := Z.max 1 (Z.min 4 (800 / Z.of_nat (Nat.max nx ny))) in
    if (1 <? scale)%Z
    then Some (map (np_repeat (Z.to_nat scale)) (np_repeat (Z.to_nat scale) img_data))
    else Some img_data.

(** [create_simple_animation] of [visualize_local.py], for one frame:
    the window of the frame ([fixed_window] with a target of 600 when
    [auto_zoom] is set, the whole frame otherwise), its pixels
    [zoomed_grid.astype(np.uint8) * 255], enlarged by
    [scale = max(4, min(20, 2000 // max(nx, ny)))].  The bounds of the
    window are never negative, so the slices count from the start. *)
Definition window_image (min_y max_y min_x max_x : Z) (g : grid) : option grid :=
  let zoomed_grid :=
    subgrid (Z.to_nat min_y) (Z.to_nat max_y) (Z.to_nat min_x) (Z.to_nat max_x) g in
  let img_data := map (map (fun v => uint8 (uint8 v * 255))) zoomed_grid in
  let ny := nrows zoomed_grid in
  let nx := ncols zoomed_grid in
  if Nat.max nx ny =? 0 then None
  else
    let scale := Z.max 4 (Z.min 20 (2000 / Z.of_nat (Nat.max nx ny))) in
    Some (map (np_repeat (Z.to_nat scale)) (np_repeat (Z.to_nat scale) img_data)).

Definition zoomed_image (auto_zoom : bool) (full_ny full_nx : Z) (g : grid)
  : option grid :=
  let '(min_y, max_y, min_x, max_x) :=
    if auto_zoom then fixed_window 600 full_ny full_nx g
    else (0%Z, full_ny, 0%Z, full_nx) in
  window_image min_y max_y min_x max_x g.

(* ================================================================== *)
(** * Properties *)
(* ================================================================== *)

Unset Implicit Arguments.

(** ** Lists and arrays *)

Lemma length_set_nth (A : Type) (k : nat) (v : A) (l : list A) :
  length (set_nth k v l) = length l.
Proof.
  revert k; induction l as [|h t IH]; intros [|k]; simpl; auto.
Qed.

Lemma nth_set_nth (A : Type) (k i : nat) (v d : A) (l : list A) :
  nth i (set_nth k v l) d =
  if (i =? k) && (k <? length l) then v else nth i l d.
Proof.
  revert k i; induction l as [|h t IH]; intros k i.
  - simpl. replace (k <? 0) with false by (symmetry; apply Nat.ltb_ge; lia).
    rewrite andb_false_r. now destruct k.
  - destruct k as [|k], i as [|i]; simpl; auto.
Qed.

Lemma length_slice (A : Type) (a b : nat) (l : list A) :
  length (slice a b l) = Nat.min (b - a) (length l - a).
Proof.
  unfold slice. now rewrite length_firstn, length_skipn.
Qed.

Lemma nth_slice (A : Type) (a b i : nat) (d : A) (l : list A) :
  i < b - a -> nth i (slice a b l) d = nth (a + i) l d.
Proof.
  intros H. unfold slice. rewrite nth_firstn.
  destruct (Nat.ltb_spec i (b - a)); [|lia]. apply nth_skipn.
Qed.

Lemma length_set_slice (A : Type) (a : nat) (data l : list A) :
  a + length data <= length l ->
  length (set_slice a data l) = length l.
Proof.
  intros H. unfold set_slice.
  rewrite !length_app, length_firstn, length_skipn. lia.
Qed.

Lemma nth_set_slice (A : Type) (a i : nat) (d : A) (data l : list A) :
  a + length data <= length l ->
  nth i (set_slice a data l) d =
  if (a <=? i) && (i <? a + length data) then nth (i - a) data d else nth i l d.
Proof.
  intros H. unfold set_slice.
  assert (La : length (firstn a l) = a) by (rewrite length_firstn; lia).
  destruct (Nat.leb_spec a i) as [Hai|Hai]; simpl.
  - rewrite app_nth2 by lia. rewrite La.
    destruct (Nat.ltb_spec i (a + length data)) as [Hi|Hi].
    + apply app_nth1. lia.
    + rewrite app_nth2 by lia. rewrite nth_skipn. f_equal. lia.
  - rewrite app_nth1 by lia. rewrite nth_firstn.
    destruct (Nat.ltb_spec i a); [reflexivity|lia].
Qed.

Lemma nth_map_seq (A : Type) (f : nat -> A) (a n i : nat) (d : A) :
  i < n -> nth i (map f (seq a n)) d = f (a + i).
Proof.
  intros H. rewrite (nth_indep _ d (f 0)) by (now rewrite length_map, length_seq).
  rewrite (map_nth f (seq a n) 0 i). now rewrite seq_nth.
Qed.

Lemma nth_zeros (n i : nat) : nth i (zeros n) 0%Z = 0%Z.
Proof.
  unfold zeros. destruct (Nat.lt_ge_cases i n).
  - now apply nth_repeat_lt.
  - apply nth_overflow. now rewrite repeat_length.
Qed.

Lemma length_zeros (n : nat) : length (zeros n) = n.
Proof. apply repeat_length. Qed.

(** *** Grids *)

Lemma grid_ext (rows cols : nat) (g1 g2 : grid) :
  shape rows cols g1 -> shape rows cols g2 ->
  (forall i j, i < rows -> j < cols -> cell g1 i j = cell g2 i j) ->
  g1 = g2.
Proof.
  intros [L1 C1] [L2 C2] H.
  apply (nth_ext g1 g2 [] []); [congruence|].
  intros i Hi. rewrite L1 in Hi.
  apply (nth_ext _ _ 0%Z 0%Z).
  - fold (row g1 i) (row g2 i). rewrite C1, C2; auto.
  - intros j Hj. fold (row g1 i) in *. rewrite C1 in Hj by auto.
    now apply H.
Qed.

Lemma shape_tabulate (rows cols : nat) (f : nat -> nat -> Z) :
  shape rows cols (tabulate rows cols f).
Proof.
  unfold shape, tabulate, row. split.
  - now rewrite length_map, length_seq.
  - intros i Hi. rewrite (nth_map_seq _ _ 0 _ _ [] Hi).
    now rewrite length_map, length_seq.
Qed.

Lemma cell_tabulate (rows cols : nat) (f : nat -> nat -> Z) (i j : nat) :
  i < rows -> j < cols -> cell (tabulate rows cols f) i j = f i j.
Proof.
  intros Hi Hj. unfold cell, tabulate, row.
  rewrite (nth_map_seq _ _ 0 _ _ [] Hi). now rewrite (nth_map_seq _ _ 0 _ _ 0%Z Hj).
Qed.

Lemma shape_view_1d (ny nx : nat) (H : grid) (r0 rows : nat) :
  shape (rows + 2) nx (view_1d ny nx H r0 rows).
Proof. apply shape_tabulate. Qed.

Lemma shape_view_2d (ny nx : nat) (H : grid) (r0 rows c0 cols : nat) :
  shape (rows + 2) (cols + 2) (view_2d ny nx H r0 rows c0 cols).
Proof. apply shape_tabulate. Qed.

Lemma row_overflow (g : grid) (i : nat) : length g <= i -> row g i = [].
Proof. intros H. unfold row. now apply nth_overflow. Qed.

Lemma cell_overflow_row (g : grid) (i j : nat) :
  length g <= i -> cell g i j = 0%Z.
Proof.
  intros H. unfold cell. rewrite row_overflow by auto. now destruct j.
Qed.

Lemma cell_overflow_col (g : grid) (i j : nat) :
  length (row g i) <= j -> cell g i j = 0%Z.
Proof. intros H. unfold cell. now apply nth_overflow. Qed.

Lemma shape_zeros2 (r c : nat) : shape r c (zeros2 r c).
Proof.
  unfold shape, zeros2, row. split; [apply repeat_length|].
  intros i Hi. rewrite nth_repeat_lt by auto. apply length_zeros.
Qed.

Lemma cell_zeros2 (r c i j : nat) : cell (zeros2 r c) i j = 0%Z.
Proof.
  unfold cell, row, zeros2. destruct (Nat.lt_ge_cases i r).
  - rewrite nth_repeat_lt by auto. apply nth_zeros.
  - rewrite (nth_overflow (repeat (zeros c) r)) by (now rewrite repeat_length).
    now destruct j.
Qed.

(** [g[i, :] = data] *)
Lemma row_set_row (g : grid) (k i : nat) (data : list Z) :
  row (set_row g k data) i =
  if (i =? k) && (k <? length g) then data else row g i.
Proof. unfold row, set_row. apply nth_set_nth. Qed.

Lemma length_set_row (g : grid) (k : nat) (data : list Z) :
  length (set_row g k data) = length g.
Proof. apply length_set_nth. Qed.

(** [g[i, j] = v] *)
Lemma shape_set_cell (rows cols : nat) (g : grid) (i j : nat) (v : Z) :
  shape rows cols g -> shape rows cols (set_cell g i j v).
Proof.
  intros [L C]. unfold shape, set_cell. rewrite length_set_nth. split; auto.
  intros k Hk. unfold row at 1. rewrite nth_set_nth.
  destruct ((k =? i) && (i <? length g)) eqn:E.
  - rewrite length_set_nth. apply andb_prop in E as [E _].
    apply Nat.eqb_eq in E. subst. auto.
  - now apply C.
Qed.

Lemma cell_set_cell (rows cols : nat) (g : grid) (i j a b : nat) (v : Z) :
  shape rows cols g -> i < rows -> j < cols ->
  cell (set_cell g i j v) a b =
  if (a =? i) && (b =? j) then v else cell g a b.
Proof.
  intros [L C] Hi Hj. unfold cell, set_cell. unfold row at 1.
  rewrite nth_set_nth.
  destruct (Nat.eqb_spec a i) as [->|Hai]; simpl.
  - destruct (Nat.ltb_spec i (length g)); [|lia].
    rewrite nth_set_nth. rewrite C by auto.
    destruct (Nat.ltb_spec j cols); [|lia]. now rewrite andb_true_r.
  - reflexivity.
Qed.

(** [g[i, c0:c0+len(data)] = data] *)
Lemma shape_set_row_slice (rows cols : nat) (g : grid) (i c0 : nat) (data : list Z) :
  shape rows cols g -> c0 + length data <= cols ->
  shape rows cols (set_row_slice g i c0 data).
Proof.
  intros [L C] H. unfold shape, set_row_slice. rewrite length_set_nth.
  split; auto. intros k Hk. unfold row at 1. rewrite nth_set_nth.
  destruct ((k =? i) && (i <? length g)) eqn:E.
  - apply andb_prop in E as [E _]. apply Nat.eqb_eq in E. subst k.
    rewrite length_set_slice; rewrite C; auto.
  - now apply C.
Qed.

Lemma cell_set_row_slice (rows cols : nat) (g : grid) (i c0 a b : nat)
      (data : list Z) :
  shape rows cols g -> i < rows -> c0 + length data <= cols ->
  cell (set_row_slice g i c0 data) a b =
  if (a =? i) && (c0 <=? b) && (b <? c0 + length data)
  then nth (b - c0) data 0%Z else cell g a b.
Proof.
  intros [L C] Hi H. unfold cell, set_row_slice. unfold row at 1.
  rewrite nth_set_nth.
  destruct (Nat.eqb_spec a i) as [->|Hai]; simpl.
  - destruct (Nat.ltb_spec i (length g)); [|lia].
    rewrite nth_set_slice by (rewrite C; auto). reflexivity.
  - reflexivity.
Qed.

Ltac bool_true :=
  repeat (apply andb_true_intro; split);
  first [apply Nat.ltb_lt | apply Nat.leb_le | apply Nat.eqb_eq]; lia.

Ltac decide_nat_bools :=
  repeat match goal with
    | |- context [Nat.eqb ?x ?y] =>
        first [ replace (Nat.eqb x y) with true by (symmetry; apply Nat.eqb_eq; lia)
              | replace (Nat.eqb x y) with false by (symmetry; apply Nat.eqb_neq; lia) ]
    | |- context [Nat.ltb ?x ?y] =>
        first [ replace (Nat.ltb x y) with true by (symmetry; apply Nat.ltb_lt; lia)
              | replace (Nat.ltb x y) with false by (symmetry; apply Nat.ltb_ge; lia) ]
    | |- context [Nat.leb ?x ?y] =>
        first [ replace (Nat.leb x y) with true by (symmetry; apply Nat.leb_le; lia)
              | replace (Nat.leb x y) with false by (symmetry; apply Nat.leb_gt; lia) ]
    end; cbn [andb orb].

Ltac nat_cases :=
  repeat match goal with
    | |- context [Nat.ltb ?a ?b] => destruct (Nat.ltb_spec a b)
    | |- context [Nat.leb ?a ?b] => destruct (Nat.leb_spec a b)
    | |- context [Nat.eqb ?a ?b] => destruct (Nat.eqb_spec a b)
    end; simpl; try lia; try reflexivity.

(** [g[r0:r0+len(data), j] = data] *)
Lemma set_col_slice_spec (rows cols : nat) (g : grid) (r0 j : nat) (data : list Z) :
  shape rows cols g -> r0 + length data <= rows -> j < cols ->
  shape rows cols (set_col_slice g r0 j data) /\
  forall a b, cell (set_col_slice g r0 j data) a b =
              if (b =? j) && (r0 <=? a) && (a <? r0 + length data)
              then nth (a - r0) data 0%Z else cell g a b.
Proof.
  intros Hg Hr Hj. unfold set_col_slice.
  assert (G : forall n, n <= length data ->
    let g' := fold_left (fun g' k => set_cell g' (r0 + k) j (nth k data 0%Z))
                        (seq 0 n) g in
    shape rows cols g' /\
    forall a b, cell g' a b =
                if (b =? j) && (r0 <=? a) && (a <? r0 + n)
                then nth (a - r0) data 0%Z else cell g a b).
  { induction n as [|n IH]; intros Hn; cbv zeta.
    - simpl. split; auto. intros a b. nat_cases.
    - rewrite seq_S, fold_left_app. simpl.
      destruct IH as [S1 C1]; [lia|]. split.
      + now apply shape_set_cell.
      + intros a b. rewrite (cell_set_cell _ _ _ _ _ _ _ _ S1) by lia. rewrite C1.
        nat_cases. f_equal. lia. }
  apply (G (length data)). lia.
Qed.

(** [g[r0:r0+pr, c0:c0+pc] = p] for a [pr] x [pc] array [p] *)
Lemma set_block_spec (rows cols pr pc : nat) (g p : grid) (r0 c0 : nat) :
  shape rows cols g -> shape pr pc p -> r0 + pr <= rows -> c0 + pc <= cols ->
  shape rows cols (set_block g r0 c0 p) /\
  forall a b, cell (set_block g r0 c0 p) a b =
              if (r0 <=? a) && (a <? r0 + pr) && (c0 <=? b) && (b <? c0 + pc)
              then cell p (a - r0) (b - c0) else cell g a b.
Proof.
  intros Hg [Lp Cp] Hr Hc. unfold set_block. rewrite Lp.
  assert (G : forall n, n <= pr ->
    let g' := fold_left (fun g' k => set_row_slice g' (r0 + k) c0 (row p k))
                        (seq 0 n) g in
    shape rows cols g' /\
    forall a b, cell g' a b =
                if (r0 <=? a) && (a <? r0 + n) && (c0 <=? b) && (b <? c0 + pc)
                then cell p (a - r0) (b - c0) else cell g a b).
  { induction n as [|n IH]; intros Hn; cbv zeta.
    - simpl. split; auto. intros a b. nat_cases.
    - rewrite seq_S, fold_left_app. simpl.
      destruct IH as [S1 C1]; [lia|].
      assert (Ln : length (row p n) = pc) by (apply Cp; lia).
      split.
      + apply shape_set_row_slice; auto. lia.
      + intros a b. rewrite (cell_set_row_slice _ _ _ _ _ _ _ _ S1) by lia.
        rewrite C1, Ln. unfold cell at 1.
        nat_cases. replace (a - r0) with n by lia. reflexivity. }
  apply (G pr). lia.
Qed.

(** [g[r0:r1, c0:c1]] *)
Lemma subgrid_spec (rows cols : nat) (g : grid) (r0 r1 c0 c1 : nat) :
  shape rows cols g -> r1 <= rows -> c1 <= cols ->
  shape (r1 - r0) (c1 - c0) (subgrid r0 r1 c0 c1 g) /\
  forall a b, a < r1 - r0 -> b < c1 - c0 ->
              cell (subgrid r0 r1 c0 c1 g) a b = cell g (r0 + a) (c0 + b).
Proof.
  intros [L C] Hr Hc. unfold subgrid.
  assert (R : forall a, a < r1 - r0 ->
            row (map (slice c0 c1) (slice r0 r1 g)) a = slice c0 c1 (row g (r0 + a))).
  { intros a Ha. unfold row.
    rewrite (nth_indep _ [] (slice c0 c1 [])) by
      (rewrite length_map, length_slice; lia).
    rewrite map_nth. now rewrite nth_slice. }
  split; [split|].
  - rewrite length_map, length_slice. lia.
  - intros a Ha. rewrite R by auto. rewrite length_slice, C; lia.
  - intros a b Ha Hb. unfold cell. rewrite R by auto. now apply nth_slice.
Qed.

(** [g[r0:r1, j]] *)
Lemma column_spec (rows cols : nat) (g : grid) (r0 r1 j : nat) :
  shape rows cols g -> r1 <= rows ->
  length (column r0 r1 j g) = r1 - r0 /\
  forall k, k < r1 - r0 -> nth k (column r0 r1 j g) 0%Z = cell g (r0 + k) j.
Proof.
  intros [L C] Hr. unfold column. split.
  - rewrite length_map, length_slice. lia.
  - intros k Hk.
    rewrite (nth_indep _ 0%Z (nth j [] 0%Z)) by
      (rewrite length_map, length_slice; lia).
    rewrite (map_nth (fun rw => nth j rw 0%Z)). now rewrite nth_slice.
Qed.

(** *** The option monad *)

Lemma mapM_map (A B : Type) (f : A -> option B) (g : A -> B) (l : list A) :
  (forall a, In a l -> f a = Some (g a)) -> mapM f l = Some (map g l).
Proof.
  induction l as [|a t IH]; intros H; simpl; auto.
  rewrite H by (now left). simpl. rewrite IH; auto.
  intros; apply H; now right.
Qed.

Lemma find_unique (A : Type) (p : A -> bool) (x : A) (l : list A) :
  In x l -> p x = true -> (forall y, In y l -> p y = true -> y = x) ->
  find p l = Some x.
Proof.
  induction l as [|a t IH]; intros Hin Hp Hu; simpl; [contradiction|].
  destruct (p a) eqn:E.
  - f_equal. apply Hu; auto. now left.
  - destruct Hin as [->|Hin]; [congruence|].
    apply IH; auto. intros; apply Hu; auto. now right.
Qed.

(** ** Decomposition *)

Lemma block_start_S (n p k : nat) :
  block_start n p (S k) = block_start n p k + block_count n p k.
Proof.
  unfold block_start. rewrite seq_S, map_app, list_sum_app. simpl. lia.
Qed.

Lemma block_start_closed (n p k : nat) :
  block_start n p k = k * (n / p) + Nat.min k (n mod p).
Proof.
  induction k as [|k IH]; [reflexivity|].
  rewrite block_start_S, IH. unfold block_count.
  destruct (Nat.ltb_spec k (n mod p)); lia.
Qed.

Lemma block_start_total (n p : nat) : 0 < p -> block_start n p p = n.
Proof.
  intros Hp. rewrite block_start_closed.
  pose proof (Nat.mod_upper_bound n p ltac:(lia)).
  pose proof (Nat.div_mod_eq n p). lia.
Qed.

Lemma block_start_mono (n p k k' : nat) :
  k <= k' -> block_start n p k <= block_start n p k'.
Proof.
  induction 1; [lia|]. rewrite block_start_S. lia.
Qed.

Lemma block_end_le (n p k : nat) :
  0 < p -> k < p -> block_start n p k + block_count n p k <= n.
Proof.
  intros Hp Hk. rewrite <- block_start_S.
  rewrite <- (block_start_total n p Hp) at 2. apply block_start_mono. lia.
Qed.

Lemma block_count_pos (n p r : nat) :
  0 < p -> p <= n -> 0 < block_count n p r.
Proof.
  intros Hp Hn. unfold block_count.
  assert (0 < n / p) by (apply Nat.div_str_pos; lia).
  destruct (r <? n mod p); lia.
Qed.

Lemma block_owner_exists (n p y : nat) :
  0 < p -> y < n ->
  exists k, k < p /\ block_start n p k <= y < block_start n p k + block_count n p k.
Proof.
  intros Hp Hy.
  assert (G : forall k, y < block_start n p k ->
              exists r, r < k /\ block_start n p r <= y < block_start n p (S r)).
  { induction k as [|k IH]; intros H.
    - unfold block_start in H. simpl in H. lia.
    - destruct (Nat.lt_ge_cases y (block_start n p k)) as [Hlt|Hge].
      + destruct (IH Hlt) as (r & Hr & Hb). exists r. split; [lia|auto].
      + exists k. split; [lia|]. lia. }
  destruct (G p) as (r & Hr & Hb).
  - now rewrite block_start_total.
  - exists r. rewrite block_start_S in Hb. auto.
Qed.

Lemma block_owner_unique (n p y k k' : nat) :
  block_start n p k <= y < block_start n p k + block_count n p k ->
  block_start n p k' <= y < block_start n p k' + block_count n p k' ->
  k = k'.
Proof.
  intros H H'. rewrite <- block_start_S in H, H'.
  destruct (Nat.lt_trichotomy k k') as [L|[E|L]]; auto; exfalso.
  - pose proof (block_start_mono n p (S k) k' L). lia.
  - pose proof (block_start_mono n p (S k') k L). lia.
Qed.

Lemma distribution_spec (ny nx size : nat) :
  distribution ny nx size =
  (map (fun r => block_count ny size r * nx) (seq 0 size),
   map (fun r => block_start ny size r * nx) (seq 0 size)).
Proof.
  unfold distribution.
  assert (G : forall n,
    fold_left
      (fun '(counts, displacements, offset) r =>
         let row_count :=
           if r <? ny mod size then ny / size + 1 else ny / size in
         (counts ++ [row_count * nx], displacements ++ [offset],
          offset + row_count * nx))
      (seq 0 n) ([], [], 0) =
    (map (fun r => block_count ny size r * nx) (seq 0 n),
     map (fun r => block_start ny size r * nx) (seq 0 n),
     block_start ny size n * nx)).
  { induction n as [|n IH]; [reflexivity|].
    rewrite seq_S, fold_left_app, IH. simpl.
    rewrite !map_app. simpl. rewrite block_start_S.
    fold (block_count ny size n). f_equal. lia. }
  now rewrite G.
Qed.

Lemma nth_counts (ny nx size r : nat) :
  r < size ->
  nth r (fst (distribution ny nx size)) 0 = block_count ny size r * nx.
Proof.
  intros H. rewrite distribution_spec. simpl.
  now rewrite (nth_map_seq _ _ 0 _ _ 0 H).
Qed.

Lemma nth_displacements (ny nx size r : nat) :
  r < size ->
  nth r (snd (distribution ny nx size)) 0 = block_start ny size r * nx.
Proof.
  intros H. rewrite distribution_spec. simpl.
  now rewrite (nth_map_seq _ _ 0 _ _ 0 H).
Qed.

(** ** Flattening and reshaping *)

Lemma shape_cons (rows cols : nat) (r : list Z) (g : grid) :
  shape (S rows) cols (r :: g) -> length r = cols /\ shape rows cols g.
Proof.
  intros [L C]. simpl in L. split.
  - apply (C 0). lia.
  - split; [lia|]. intros i Hi. apply (C (S i)). lia.
Qed.

Lemma length_flatten (rows cols : nat) (g : grid) :
  shape rows cols g -> length (flatten g) = rows * cols.
Proof.
  revert g. induction rows as [|rows IH]; intros g Hg.
  - destruct Hg as [L _]. destruct g; [reflexivity|discriminate].
  - destruct g as [|r g]; [destruct Hg; discriminate|].
    apply shape_cons in Hg as [Lr Hg]. unfold flatten in *. simpl.
    rewrite length_app, IH by auto. lia.
Qed.

Lemma nth_flatten (rows cols : nat) (g : grid) (y x : nat) :
  shape rows cols g -> y < rows -> x < cols ->
  nth (y * cols + x) (flatten g) 0%Z = cell g y x.
Proof.
  revert g y. induction rows as [|rows IH]; intros g y Hg Hy Hx; [lia|].
  destruct g as [|r g]; [destruct Hg; discriminate|].
  apply shape_cons in Hg as [Lr Hg]. unfold flatten in *. simpl.
  destruct y as [|y].
  - simpl. rewrite app_nth1 by lia. reflexivity.
  - rewrite app_nth2 by (simpl; lia).
    replace (S y * cols + x - length r) with (y * cols + x) by (simpl; lia).
    rewrite IH by (auto; lia). reflexivity.
Qed.

Lemma nth_flatten_divmod (rows cols : nat) (g : grid) (k : nat) :
  shape rows cols g -> k < rows * cols ->
  nth k (flatten g) 0%Z = cell g (k / cols) (k mod cols).
Proof.
  intros Hg Hk.
  assert (Hc : cols <> 0) by (intros ->; lia).
  rewrite (Nat.div_mod_eq k cols) at 1.
  rewrite (Nat.mul_comm cols). apply (nth_flatten rows); auto.
  - apply Nat.Div0.div_lt_upper_bound. lia.
  - now apply Nat.mod_upper_bound.
Qed.

Lemma reshape_spec (rows cols : nat) (flat : list Z) :
  rows * cols <= length flat ->
  shape rows cols (reshape rows cols flat) /\
  forall i j, i < rows -> j < cols ->
              cell (reshape rows cols flat) i j = nth (i * cols + j) flat 0%Z.
Proof.
  intros Hl. unfold reshape.
  assert (R : forall i, i < rows ->
            row (map (fun i => slice (i * cols) (i * cols + cols) flat) (seq 0 rows)) i
            = slice (i * cols) (i * cols + cols) flat).
  { intros i Hi. unfold row. now rewrite (nth_map_seq _ _ 0 _ _ [] Hi). }
  split; [split|].
  - now rewrite length_map, length_seq.
  - intros i Hi. rewrite R by auto. rewrite length_slice.
    assert (S i * cols <= rows * cols) by (apply Nat.mul_le_mono_r; lia).
    simpl in *. lia.
  - intros i j Hi Hj. unfold cell. rewrite R by auto.
    apply nth_slice. lia.
Qed.

(** [local_grid[1:local_rows+1, :]] *)
Lemma interior_spec (c nx : nat) (g : grid) :
  shape (c + 2) nx g ->
  shape c nx (interior g) /\
  forall i j, cell (interior g) i j = if i <? c then cell g (1 + i) j else 0%Z.
Proof.
  intros [L C]. unfold interior, nrows. rewrite L.
  replace (c + 2 - 2 + 1) with (c + 1) by lia.
  assert (Ls : length (slice 1 (c + 1) g) = c) by (rewrite length_slice; lia).
  split; [split; auto|].
  - intros i Hi. unfold row. rewrite nth_slice by lia. apply C. lia.
  - intros i j. destruct (Nat.ltb_spec i c).
    + unfold cell, row. now rewrite nth_slice by lia.
    + apply cell_overflow_row. lia.
Qed.

(** *** Gather (1-D) *)

Lemma gather_grid_correct (size ny nx : nat) (ps : list grid) (H : grid) :
  0 < size -> shape ny nx H -> holds_1d size ny nx ps H ->
  gather_grid ps size ny nx = Some H.
Proof.
  intros Hsize HH [Lps Hps]. unfold gather_grid.
  rewrite distribution_spec.
  pose (data := fun r => flatten (interior (nth r ps []))).
  change (
    (if forallb (fun r => length (data r) =?
           nth r (map (fun r => block_count ny size r * nx) (seq 0 size)) 0)
          (seq 0 size)
     then Some (reshape ny nx
            (fold_left
               (fun buf r => set_slice
                  (nth r (map (fun r => block_start ny size r * nx) (seq 0 size)) 0)
                  (data r) buf)
               (seq 0 size) (zeros (ny * nx))))
     else None) = Some H).
  assert (Ld : forall r, r < size -> length (data r) = block_count ny size r * nx).
  { intros r Hr. destruct (Hps r Hr) as [Sr _].
    apply interior_spec in Sr as [Si _]. unfold data.
    now rewrite (length_flatten _ _ _ Si). }
  assert (Hd : forall r k, r < size -> k < block_count ny size r * nx ->
            nth k (data r) 0%Z = nth (block_start ny size r * nx + k) (flatten H) 0%Z).
  { intros r k Hr Hk. destruct (Hps r Hr) as [Sr Cr].
    destruct (interior_spec _ _ _ Sr) as [Si Ci]. unfold data.
    assert (Hnx : nx <> 0) by (intros ->; lia).
    assert (Hq : k / nx < block_count ny size r)
      by (apply Nat.Div0.div_lt_upper_bound; lia).
    assert (Hm : k mod nx < nx) by (now apply Nat.mod_upper_bound).
    rewrite (nth_flatten_divmod _ _ _ _ Si Hk), Ci.
    destruct (Nat.ltb_spec (k / nx) (block_count ny size r)); [|lia].
    rewrite Cr by auto.
    rewrite <- (nth_flatten ny nx H) by
      (auto; pose proof (block_end_le ny size r Hsize Hr); lia).
    f_equal. pose proof (Nat.div_mod_eq k nx). lia. }
  assert (Hcheck : forallb (fun r => length (data r) =?
              nth r (map (fun r => block_count ny size r * nx) (seq 0 size)) 0)
             (seq 0 size) = true).
  { apply forallb_forall. intros r Hr. apply in_seq in Hr.
    rewrite (nth_map_seq _ _ 0 _ _ 0) by lia. apply Nat.eqb_eq, Ld. lia. }
  rewrite Hcheck. f_equal.
  set (F := fold_left _ _ _).
  assert (G : forall n, n <= size ->
    let F := fold_left
               (fun buf r => set_slice
                  (nth r (map (fun r => block_start ny size r * nx) (seq 0 size)) 0)
                  (data r) buf)
               (seq 0 n) (zeros (ny * nx)) in
    length F = ny * nx /\
    forall p, p < block_start ny size n * nx -> nth p F 0%Z = nth p (flatten H) 0%Z).
  { induction n as [|n IH]; intros Hn; cbv zeta.
    - simpl. split; [apply length_zeros|]. unfold block_start. simpl. lia.
    - rewrite seq_S, fold_left_app. simpl.
      destruct IH as [L1 N1]; [lia|].
      rewrite (nth_map_seq _ _ 0 _ _ 0) by lia. simpl.
      assert (Hfit : block_start ny size n * nx + length (data n) <= ny * nx).
      { rewrite Ld by lia. rewrite <- Nat.mul_add_distr_r.
        apply Nat.mul_le_mono_r. apply block_end_le; lia. }
      split.
      + rewrite length_set_slice; lia.
      + intros p Hp. rewrite nth_set_slice by lia.
        rewrite block_start_S, Nat.mul_add_distr_r in Hp.
        rewrite Ld by lia.
        destruct (Nat.leb_spec (block_start ny size n * nx) p); simpl.
        * destruct (Nat.ltb_spec p (block_start ny size n * nx
                                    + block_count ny size n * nx)); [|lia].
          rewrite Hd by lia. f_equal. lia.
        * now apply N1. }
  destruct (G size (le_n _)) as [LF NF]. fold F in LF, NF.
  rewrite block_start_total in NF by auto.
  destruct (reshape_spec ny nx F) as [SR CR]; [lia|].
  apply (grid_ext ny nx); auto.
  intros i j Hi Hj. rewrite CR by auto.
  assert (i * nx + j < ny * nx).
  { assert (S i * nx <= ny * nx) by (apply Nat.mul_le_mono_r; lia).
    simpl in *. lia. }
  rewrite NF by auto. now apply (nth_flatten ny).
Qed.

(** *** Scatter (1-D) *)

Lemma scatter_grid_holds (size ny nx : nat) (G : grid) :
  0 < size -> shape ny nx G ->
  holds_1d size ny nx (scatter_grid G size ny nx) G.
Proof.
  intros Hsize HG. unfold scatter_grid. rewrite distribution_spec.
  split; [now rewrite length_map, length_seq|].
  intros r Hr. unfold grid. rewrite (nth_map_seq _ _ 0 _ _ [] Hr). simpl.
  rewrite !(nth_map_seq _ _ 0 _ _ 0 Hr). simpl. fold grid.
  set (c := block_count ny size r). set (s := block_start ny size r).
  set (local_data := slice _ _ _).
  assert (Hend : s + c <= ny) by (apply block_end_le; auto).
  assert (Hmul : s * nx + c * nx <= ny * nx)
    by (rewrite <- Nat.mul_add_distr_r; now apply Nat.mul_le_mono_r).
  assert (Ll : length local_data = c * nx).
  { unfold local_data. rewrite length_slice, (length_flatten ny nx) by auto. lia. }
  destruct (reshape_spec c nx local_data) as [[LR CR] NR]; [lia|].
  pose proof (shape_zeros2 (c + 2) nx) as [LZ CZ].
  assert (Hrow : forall k, row (set_slice 1 (reshape c nx local_data)
                                          (zeros2 (c + 2) nx)) k
                 = if (1 <=? k) && (k <? 1 + c)
                   then row (reshape c nx local_data) (k - 1)
                   else row (zeros2 (c + 2) nx) k).
  { intros k. unfold row. rewrite nth_set_slice by lia. now rewrite LR. }
  split; [split|].
  - rewrite length_set_slice; lia.
  - intros k Hk. rewrite Hrow.
    destruct ((1 <=? k) && (k <? 1 + c)) eqn:E.
    + apply CR. apply andb_prop in E as [E1 E2].
      apply Nat.leb_le in E1. apply Nat.ltb_lt in E2. lia.
    + now apply CZ.
  - intros i j Hi Hj. unfold cell at 1. rewrite Hrow.
    match goal with |- context [if ?b then _ else _] =>
      replace b with true
        by (symmetry; apply andb_true_intro; split;
            [apply Nat.leb_le|apply Nat.ltb_lt]; lia) end.
    replace (S i - 1) with i by lia.
    change (nth j (row (reshape c nx local_data) i) 0%Z)
      with (cell (reshape c nx local_data) i j).
    rewrite NR by auto. unfold local_data.
    assert (i * nx + j < c * nx).
    { assert (S i * nx <= c * nx) by (apply Nat.mul_le_mono_r; lia).
      simpl in *. lia. }
    rewrite nth_slice by lia.
    rewrite <- (nth_flatten ny nx G) by (auto; lia). f_equal. lia.
Qed.

(** ** The ring of strips *)

Lemma py_mod_small (a n : nat) : a < n -> py_mod (Z.of_nat a) n = a.
Proof.
  intros H. unfold py_mod. rewrite Z.mod_small by lia. apply Nat2Z.id.
Qed.

Lemma py_mod_lt (z : Z) (n : nat) : 0 < n -> py_mod z n < n.
Proof.
  intros H. unfold py_mod.
  pose proof (Z.mod_pos_bound z (Z.of_nat n) ltac:(lia)). lia.
Qed.

Lemma py_mod_pred (a n : nat) :
  a < n -> py_mod (Z.of_nat a - 1) n = if a =? 0 then n - 1 else a - 1.
Proof.
  intros H. unfold py_mod. destruct (Nat.eqb_spec a 0) as [->|Ha].
  - replace (Z.of_nat 0 - 1)%Z with ((Z.of_nat n - 1) + (-1) * Z.of_nat n)%Z by lia.
    rewrite Z_mod_plus_full, Z.mod_small by lia. lia.
  - rewrite Z.mod_small by lia. lia.
Qed.

Lemma py_mod_succ (a n : nat) :
  a < n -> py_mod (Z.of_nat a + 1) n = if a + 1 =? n then 0 else a + 1.
Proof.
  intros H. unfold py_mod. destruct (Nat.eqb_spec (a + 1) n) as [E|E].
  - replace (Z.of_nat a + 1)%Z with (Z.of_nat n) by lia.
    now rewrite Z_mod_same_full.
  - rewrite Z.mod_small by lia. lia.
Qed.

Lemma nat_mod_succ (a n : nat) :
  a < n -> (a + 1) mod n = if a + 1 =? n then 0 else a + 1.
Proof.
  intros H. destruct (Nat.eqb_spec (a + 1) n) as [E|E].
  - rewrite E. apply Nat.Div0.mod_same.
  - apply Nat.mod_small. lia.
Qed.

Lemma py_mod_idem (z : Z) (n : nat) :
  0 < n -> py_mod (Z.of_nat (py_mod z n)) n = py_mod z n.
Proof. intros H. apply py_mod_small. now apply py_mod_lt. Qed.

(** The strip before [k] on the ring ends where [k] starts, and the strip
    after [k] starts where [k] ends (modulo [n]). *)
Lemma ring_pred (n p k : nat) :
  0 < p -> p <= n -> k < p ->
  let t := py_mod (Z.of_nat k - 1) p in
  t < p /\ py_mod (Z.of_nat t + 1) p = k /\
  block_count n p t <> 0 /\
  py_mod (Z.of_nat (block_start n p k) - 1) n
  = block_start n p t + block_count n p t - 1.
Proof.
  intros Hp Hn Hk t. unfold t. rewrite py_mod_pred by auto.
  destruct (Nat.eqb_spec k 0) as [->|Hk0].
  - pose proof (block_count_pos n p (p - 1) Hp Hn).
    repeat split; try lia.
    + rewrite py_mod_succ by lia. nat_cases.
    + pose proof (block_start_S n p (p - 1)) as E.
      replace (S (p - 1)) with p in E by lia.
      rewrite block_start_total in E by auto.
      change (block_start n p 0) with 0. rewrite (py_mod_pred 0 n) by lia.
      simpl. lia.
  - pose proof (block_count_pos n p (k - 1) Hp Hn).
    repeat split; try lia.
    + rewrite py_mod_succ by lia. nat_cases.
    + pose proof (block_start_S n p (k - 1)) as E.
      replace (S (k - 1)) with k in E by lia.
      pose proof (block_end_le n p k Hp Hk).
      pose proof (block_count_pos n p k Hp Hn).
      rewrite py_mod_pred by lia. nat_cases.
Qed.

Lemma ring_succ (n p k : nat) :
  0 < p -> p <= n -> k < p ->
  let b := py_mod (Z.of_nat k + 1) p in
  b < p /\ py_mod (Z.of_nat b - 1) p = k /\
  block_count n p b <> 0 /\
  py_mod (Z.of_nat (block_start n p k + block_count n p k)) n
  = block_start n p b.
Proof.
  intros Hp Hn Hk b. unfold b. rewrite py_mod_succ by auto.
  pose proof (block_start_S n p k) as E. rewrite <- E.
  destruct (Nat.eqb_spec (k + 1) p) as [Hkp|Hkp].
  - pose proof (block_count_pos n p 0 Hp Hn).
    repeat split; try lia.
    + rewrite py_mod_pred by lia. simpl. lia.
    + replace (S k) with p by lia. rewrite block_start_total by auto.
      unfold py_mod. now rewrite Z_mod_same_full.
  - pose proof (block_count_pos n p (k + 1) Hp Hn).
    repeat split; try lia.
    + rewrite py_mod_pred by lia. nat_cases.
    + replace (k + 1) with (S k) by lia.
      pose proof (block_end_le n p (S k) Hp ltac:(lia)).
      pose proof (block_count_pos n p (S k) Hp Hn).
      apply py_mod_small. lia.
Qed.

(** ** Messages *)

Lemma Irecv_found (net : list message) (m : message) (buf : list Z) :
  In m net ->
  (forall y, In y net -> msg_src y = msg_src m -> msg_dst y = msg_dst m ->
             msg_tag y = msg_tag m -> y = m) ->
  length (msg_data m) = length buf ->
  Irecv net (msg_dst m) buf (msg_src m) (msg_tag m) = Some (msg_data m).
Proof.
  intros Hin Hu Hl. unfold Irecv.
  rewrite (find_unique _ _ m net Hin).
  - rewrite Hl, Nat.leb_refl, skipn_all2, app_nil_r by lia. reflexivity.
  - now rewrite !Nat.eqb_refl.
  - intros y Hy Hp. apply andb_prop in Hp as [Hp H3].
    apply andb_prop in Hp as [H1 H2].
    apply Nat.eqb_eq in H1, H2, H3. now apply Hu.
Qed.

(** ** Halo exchange (1-D) *)

Lemma in_halo_network (ps : list grid) (size : nat) (m : message) :
  In m (halo_network ps size) <->
  exists r, r < size /\ In m (halo_sends (nth r ps []) r size).
Proof.
  unfold halo_network. rewrite in_flat_map. split.
  - intros (r & Hr & Hm). apply in_seq in Hr. exists r. split; [lia|auto].
  - intros (r & Hr & Hm). exists r. split; [apply in_seq; lia|auto].
Qed.

Lemma bottom_neighbor_py (rank size : nat) :
  rank < size -> bottom_neighbor rank size = py_mod (Z.of_nat rank + 1) size.
Proof.
  intros H. unfold bottom_neighbor.
  now rewrite nat_mod_succ, py_mod_succ.
Qed.

Lemma ring_topology (p k : nat) :
  0 < p -> k < p ->
  py_mod (Z.of_nat k - 1) p < p /\ py_mod (Z.of_nat k + 1) p < p /\
  py_mod (Z.of_nat (py_mod (Z.of_nat k - 1) p) + 1) p = k /\
  py_mod (Z.of_nat (py_mod (Z.of_nat k + 1) p) - 1) p = k.
Proof.
  intros Hp Hk. rewrite py_mod_pred, py_mod_succ by auto.
  destruct (Nat.eqb_spec k 0); destruct (Nat.eqb_spec (k + 1) p);
    repeat split; try lia;
    first [rewrite py_mod_succ by lia | rewrite py_mod_pred by lia];
    nat_cases.
Qed.

Lemma holds_wf_1d (size ny nx : nat) (ps : list grid) (H : grid) :
  holds_1d size ny nx ps H -> wf_1d size ny nx ps.
Proof.
  intros [L Hp]. split; auto. intros r Hr. now destruct (Hp r Hr).
Qed.

Section Exchange1D.

Variables (size ny nx : nat) (ps : list grid).
Hypothesis Hsize : 0 < size.
Hypothesis Hwf : wf_1d size ny nx ps.

Local Abbreviation c r := (block_count ny size r).
Local Abbreviation s r := (block_start ny size r).

Lemma wf_row_length (r i : nat) :
  r < size -> i < c r + 2 -> length (row (nth r ps []) i) = nx.
Proof.
  intros Hr Hi. destruct Hwf as [_ Hp]. destruct (Hp r Hr) as [_ C]. now apply C.
Qed.

Lemma wf_nrows (r : nat) : r < size -> nrows (nth r ps []) = c r + 2.
Proof.
  intros Hr. destruct Hwf as [_ Hp]. destruct (Hp r Hr) as [L _]. exact L.
Qed.

Lemma recv_top (r : nat) :
  r < size ->
  let t := top_neighbor r size in
  Irecv (halo_network ps size) r (zeros nx) t 0 = Some (row (nth t ps []) (c t)).
Proof.
  intros Hr t.
  destruct (ring_topology size r Hsize Hr) as (Ht & _ & Hback & _).
  fold (top_neighbor r size) in Ht, Hback. fold t in Ht, Hback.
  pose (m := Msg t r 0 (row (nth t ps []) (c t))).
  change (Irecv (halo_network ps size) (msg_dst m) (zeros nx) (msg_src m) (msg_tag m)
          = Some (msg_data m)).
  apply Irecv_found.
  - apply in_halo_network. exists t. split; auto.
    unfold halo_sends. rewrite wf_nrows by auto.
    replace (c t + 2 - 2) with (c t) by lia.
    rewrite bottom_neighbor_py, Hback by auto. now left.
  - intros y Hy E1 E2 E3. apply in_halo_network in Hy as (r' & Hr' & Hy).
    unfold halo_sends in Hy. simpl in Hy.
    destruct Hy as [<-|[<-|[]]]; simpl in *; [|discriminate].
    subst r'. unfold m. f_equal; auto.
    rewrite wf_nrows by auto. f_equal. lia.
  - simpl. rewrite length_zeros. apply wf_row_length; auto. lia.
Qed.

Lemma recv_bottom (r : nat) :
  r < size ->
  let b := bottom_neighbor r size in
  Irecv (halo_network ps size) r (zeros nx) b 1 = Some (row (nth b ps []) 1).
Proof.
  intros Hr b.
  destruct (ring_topology size r Hsize Hr) as (_ & Hb & _ & Hback).
  rewrite <- bottom_neighbor_py in Hb, Hback by auto.
  fold b in Hb, Hback.
  pose (m := Msg b r 1 (row (nth b ps []) 1)).
  change (Irecv (halo_network ps size) (msg_dst m) (zeros nx) (msg_src m) (msg_tag m)
          = Some (msg_data m)).
  apply Irecv_found.
  - apply in_halo_network. exists b. split; auto.
    unfold halo_sends. unfold top_neighbor. rewrite Hback. right. now left.
  - intros y Hy E1 E2 E3. apply in_halo_network in Hy as (r' & Hr' & Hy).
    unfold halo_sends in Hy. simpl in Hy.
    destruct Hy as [<-|[<-|[]]]; simpl in *; [discriminate|].
    subst r'. unfold m. f_equal; auto.
  - simpl. rewrite length_zeros. apply wf_row_length; auto. lia.
Qed.

Lemma exchange_halo_rows (r : nat) :
  r < size ->
  exchange_halo (halo_network ps size) (nth r ps []) r size nx
  = Some (exchanged_1d size ny ps r).
Proof.
  intros Hr. unfold exchange_halo.
  rewrite recv_top, recv_bottom by auto. cbn [bind].
  rewrite wf_nrows by auto.
  replace (c r + 2 - 1) with (c r + 1) by lia. reflexivity.
Qed.

Lemma exchanged_1d_spec (r : nat) :
  r < size ->
  shape (c r + 2) nx (exchanged_1d size ny ps r) /\
  forall i j, cell (exchanged_1d size ny ps r) i j =
              if i =? c r + 1 then cell (nth (bottom_neighbor r size) ps []) 1 j
              else if i =? 0
                   then cell (nth (top_neighbor r size) ps [])
                             (c (top_neighbor r size)) j
                   else cell (nth r ps []) i j.
Proof.
  intros Hr. unfold exchanged_1d.
  destruct (ring_topology size r Hsize Hr) as (Ht & Hb & _ & _).
  rewrite <- bottom_neighbor_py in Hb by auto.
  fold (top_neighbor r size) in Ht.
  pose proof (wf_nrows r Hr) as Lr. unfold nrows in Lr.
  split; [split|].
  - now rewrite !length_set_row.
  - intros i Hi. rewrite !row_set_row, length_set_row, Lr.
    destruct (Nat.eqb_spec i (c r + 1)); simpl.
    + destruct (Nat.ltb_spec (c r + 1) (c r + 2)); [|lia].
      apply wf_row_length; auto. lia.
    + destruct (Nat.eqb_spec i 0); simpl.
      * destruct (Nat.ltb_spec 0 (c r + 2)); [|lia].
        apply wf_row_length; auto. lia.
      * now apply wf_row_length.
  - intros i j. unfold cell at 1. rewrite !row_set_row, length_set_row, Lr.
    destruct (Nat.ltb_spec (c r + 1) (c r + 2)); [|lia].
    destruct (Nat.ltb_spec 0 (c r + 2)); [|lia].
    rewrite !andb_true_r.
    destruct (i =? c r + 1); [reflexivity|]. now destruct (i =? 0).
Qed.

Lemma exchange_all_rows :
  exchange_all ps size nx = Some (map (exchanged_1d size ny ps) (seq 0 size)).
Proof.
  unfold exchange_all. apply mapM_map.
  intros r Hr. apply in_seq in Hr. apply exchange_halo_rows. lia.
Qed.

Lemma exchanged_wf_1d : wf_1d size ny nx (map (exchanged_1d size ny ps) (seq 0 size)).
Proof.
  split; [now rewrite length_map, length_seq|].
  intros r Hr. unfold grid. rewrite (nth_map_seq _ _ 0 _ _ [] Hr). fold grid.
  now apply exchanged_1d_spec.
Qed.

End Exchange1D.

Section Exchange1DView.

Variables (size ny nx : nat) (ps : list grid) (H : grid).
Hypothesis Hsize : 0 < size.
Hypothesis Hvalid : size <= ny.
Hypothesis HH : shape ny nx H.
Hypothesis Hps : holds_1d size ny nx ps H.

Local Abbreviation c r := (block_count ny size r).
Local Abbreviation s r := (block_start ny size r).

Lemma exchanged_1d_view (r : nat) :
  r < size ->
  exchanged_1d size ny ps r = view_1d ny nx H (s r) (c r).
Proof.
  intros Hr.
  pose proof (holds_wf_1d _ _ _ _ _ Hps) as Hwf.
  destruct (exchanged_1d_spec size ny nx ps Hsize Hwf r Hr) as [Sx Nx].
  destruct (ring_pred ny size r Hsize Hvalid Hr) as (Ht & _ & Hct & Et).
  destruct (ring_succ ny size r Hsize Hvalid Hr) as (Hb & _ & Hcb & Eb).
  rewrite <- bottom_neighbor_py in Hb, Hcb, Eb by auto.
  fold (top_neighbor r size) in Ht, Hct, Et.
  set (t := top_neighbor r size) in *. set (b := bottom_neighbor r size) in *.
  pose proof Hps as [_ Hp].
  destruct (Hp r Hr) as [_ Ir].
  destruct (Hp t Ht) as [_ It].
  destruct (Hp b Hb) as [_ Ib].
  pose proof (block_end_le ny size r Hsize Hr) as Hend.
  apply (grid_ext (c r + 2) nx); [exact Sx|apply shape_view_1d|].
  intros i j Hi Hj. rewrite Nx. unfold view_1d. rewrite cell_tabulate by auto.
  unfold torus. rewrite (py_mod_small j nx) by auto.
  destruct (Nat.eqb_spec i (c r + 1)) as [->|Hi1].
  - match goal with |- context [py_mod ?z ny] =>
      replace z with (Z.of_nat (s r + c r)) by lia end.
    rewrite Eb. specialize (Ib 0 j ltac:(lia) Hj).
    replace (block_start ny size b + 0) with (block_start ny size b) in Ib by lia.
    exact Ib.
  - destruct (Nat.eqb_spec i 0) as [->|Hi0].
    + match goal with |- context [py_mod ?z ny] =>
        replace z with (Z.of_nat (s r) - 1)%Z by lia end.
      rewrite Et. specialize (It (c t - 1) j ltac:(lia) Hj).
      replace (1 + (c t - 1)) with (c t) in It by lia.
      replace (s t + (c t - 1)) with (s t + c t - 1) in It by lia.
      exact It.
    + match goal with |- context [py_mod ?z ny] =>
        replace z with (Z.of_nat (s r + (i - 1))) by lia end.
      rewrite py_mod_small by lia.
      specialize (Ir (i - 1) j ltac:(lia) Hj).
      replace (1 + (i - 1)) with i in Ir by lia. exact Ir.
Qed.

Lemma exchange_all_view :
  exchange_all ps size nx = Some (views_1d size ny nx H).
Proof.
  rewrite (exchange_all_rows size ny nx ps Hsize (holds_wf_1d _ _ _ _ _ Hps)).
  f_equal. unfold views_1d. apply map_ext_in.
  intros r Hr. apply in_seq in Hr. apply exchanged_1d_view. lia.
Qed.

End Exchange1DView.

(** ** The kernels on a consistent patch *)

Lemma offsets_moore : offsets = moore.
Proof. reflexivity. Qed.

Lemma offsets_bounds (di dj : Z) :
  In (di, dj) offsets -> (-1 <= di <= 1)%Z /\ (-1 <= dj <= 1)%Z.
Proof.
  rewrite offsets_moore. unfold moore. simpl.
  intros H. repeat (destruct H as [H|H]; [inversion H; lia|]). contradiction.
Qed.

Lemma int8_small (z : Z) : (-128 <= z < 128)%Z -> int8 z = z.
Proof. intros H. unfold int8. rewrite Z.mod_small; lia. Qed.

Lemma update_cell_binary (v n : Z) : update_cell v n = 0%Z \/ update_cell v n = 1%Z.
Proof.
  unfold update_cell.
  destruct (v =? 1)%Z, ((n =? 2) || (n =? 3))%Z, (n =? 3)%Z; auto.
Qed.

Lemma update_cell_rule (v n : Z) :
  v = 0%Z \/ v = 1%Z -> update_cell v n = rule_B3S23 v n.
Proof.
  intros [->| ->]; unfold update_cell, rule_B3S23; simpl.
  - reflexivity.
  - now rewrite orb_false_r.
Qed.

Lemma binary_tabulate (rows cols : nat) (f : nat -> nat -> Z) :
  (forall i j, i < rows -> j < cols -> f i j = 0%Z \/ f i j = 1%Z) ->
  binary (tabulate rows cols f).
Proof.
  intros Hf i j.
  destruct (Nat.lt_ge_cases i rows) as [Hi|Hi].
  - destruct (Nat.lt_ge_cases j cols) as [Hj|Hj].
    + rewrite cell_tabulate by auto. auto.
    + left. apply cell_overflow_col.
      destruct (shape_tabulate rows cols f) as [_ C]. rewrite C; auto.
  - left. apply cell_overflow_row.
    destruct (shape_tabulate rows cols f) as [L _]. now rewrite L.
Qed.

Lemma binary_global_step (ny nx : nat) (G : grid) : binary (global_step ny nx G).
Proof.
  apply binary_tabulate. intros i j _ _. unfold rule_B3S23.
  destruct (_ || _)%bool; auto.
Qed.

Lemma binary_view_2d (ny nx : nat) (H : grid) (r0 rows c0 cols : nat) :
  binary H -> binary (view_2d ny nx H r0 rows c0 cols).
Proof. intros B. apply binary_tabulate. intros. apply B. Qed.

Lemma binary_view_1d (ny nx : nat) (H : grid) (r0 rows : nat) :
  binary H -> binary (view_1d ny nx H r0 rows).
Proof. intros B. apply binary_tabulate. intros. apply B. Qed.

(** On a 0/1 grid the [int8] accumulation never wraps. *)
Lemma neighbors_sum_binary (g : grid) (idx : list (nat * nat)) :
  binary g -> length idx <= 100 ->
  neighbors_sum g idx = sumZ (map (fun p => cell g (fst p) (snd p)) idx).
Proof.
  intros B. unfold neighbors_sum.
  assert (G : forall acc : Z,
    (0 <= acc)%Z -> (acc + Z.of_nat (length idx) <= 100)%Z ->
    fold_left (fun neighbors '(ni, nj) => int8 (neighbors + cell g ni nj)) idx acc
    = (acc + sumZ (map (fun p => cell g (fst p) (snd p)) idx))%Z).
  { induction idx as [|[a b] t IH]; intros acc H0 H1; simpl in *.
    - lia.
    - destruct (B a b) as [E|E]; rewrite E;
        rewrite int8_small by lia; rewrite IH by lia; lia. }
  intros L. rewrite G; lia.
Qed.

(** The cell computed from a patch position whose 3 x 3 surroundings show
    the torus around [(y, x)] is the cell of the global step at [(y, x)]. *)
Lemma stencil_point (ny nx : nat) (H g : grid) (y x i j : nat)
      (F : Z * Z -> nat * nat) :
  y < ny -> x < nx -> binary g ->
  cell g i j = cell H y x ->
  (forall di dj, In (di, dj) offsets ->
     cell g (fst (F (di, dj))) (snd (F (di, dj)))
     = torus ny nx H (Z.of_nat y + di) (Z.of_nat x + dj)) ->
  update_cell (cell g i j) (neighbors_sum g (map F offsets))
  = cell (global_step ny nx H) y x.
Proof.
  intros Hy Hx B Hc Hn. unfold global_step. rewrite cell_tabulate by auto.
  rewrite update_cell_rule by apply B. rewrite Hc. f_equal.
  rewrite neighbors_sum_binary by (auto; rewrite length_map; simpl; lia).
  unfold live_neighbors. rewrite <- offsets_moore, map_map. f_equal.
  apply map_ext_in. intros [di dj] Hin. now apply Hn.
Qed.

Lemma map_seq_grid (a b rows cols : nat) (f : nat -> nat -> Z) :
  shape rows cols (map (fun i => map (f i) (seq b cols)) (seq a rows)) /\
  forall i j, i < rows -> j < cols ->
    cell (map (fun i => map (f i) (seq b cols)) (seq a rows)) i j = f (a + i) (b + j).
Proof.
  split; [split|].
  - now rewrite length_map, length_seq.
  - intros i Hi. unfold row. rewrite (nth_map_seq _ _ a _ _ [] Hi).
    now rewrite length_map, length_seq.
  - intros i j Hi Hj. unfold cell, row.
    rewrite (nth_map_seq _ _ a _ _ [] Hi).
    now rewrite (nth_map_seq _ _ b _ _ 0%Z Hj).
Qed.

Lemma kernel_view_1d (ny nx : nat) (H : grid) (r0 rows : nat) :
  0 < nx -> r0 + rows <= ny -> binary H ->
  shape rows nx (compute_next_generation (view_1d ny nx H r0 rows) nx) /\
  forall i j, i < rows -> j < nx ->
    cell (compute_next_generation (view_1d ny nx H r0 rows) nx) i j
    = cell (global_step ny nx H) (r0 + i) j.
Proof.
  intros Hnx Hend B. unfold compute_next_generation.
  destruct (shape_view_1d ny nx H r0 rows) as [L _].
  unfold nrows. rewrite L.
  replace (rows + 2 - 1 - 1) with rows by lia.
  match goal with |- context [map (fun i => map (@?f i) (seq 0 nx)) (seq 1 rows)] =>
    destruct (map_seq_grid 1 0 rows nx f) as [S C] end.
  split; [exact S|].
  intros i j Hi Hj. rewrite C by auto. clear S C. simpl (0 + j).
  unfold neighbor_indices.
  apply stencil_point; try lia.
  - now apply binary_view_1d.
  - unfold view_1d. rewrite cell_tabulate by lia. unfold torus.
    rewrite (py_mod_small j nx) by auto. f_equal.
    replace (Z.of_nat r0 + Z.of_nat (1 + i) - 1)%Z with (Z.of_nat (r0 + i)) by lia.
    apply py_mod_small. lia.
  - intros di dj Hin. apply offsets_bounds in Hin as [Hdi Hdj]. cbn [fst snd].
    unfold view_1d. rewrite cell_tabulate by (try apply py_mod_lt; lia).
    unfold torus. rewrite py_mod_idem by auto. f_equal. f_equal. lia.
Qed.

Lemma kernel_view_2d (ny nx : nat) (H : grid) (r0 rows c0 cols : nat) :
  r0 + rows <= ny -> c0 + cols <= nx -> binary H ->
  shape rows cols (compute_next_generation_2d (view_2d ny nx H r0 rows c0 cols)) /\
  forall i j, i < rows -> j < cols ->
    cell (compute_next_generation_2d (view_2d ny nx H r0 rows c0 cols)) i j
    = cell (global_step ny nx H) (r0 + i) (c0 + j).
Proof.
  intros Hr Hc B. unfold compute_next_generation_2d.
  destruct (shape_view_2d ny nx H r0 rows c0 cols) as [L Cl].
  unfold nrows, ncols. rewrite L, Cl by lia.
  replace (rows + 2 - 1 - 1) with rows by lia.
  replace (cols + 2 - 1 - 1) with cols by lia.
  match goal with |- context [map (fun i => map (@?f i) (seq 1 cols)) (seq 1 rows)] =>
    destruct (map_seq_grid 1 1 rows cols f) as [S C] end.
  split; [exact S|].
  intros i j Hi Hj. rewrite C by auto. clear S C.
  unfold neighbor_indices_2d.
  apply stencil_point; try lia.
  - now apply binary_view_2d.
  - unfold view_2d. rewrite cell_tabulate by lia. unfold torus.
    replace (Z.of_nat r0 + Z.of_nat (1 + i) - 1)%Z with (Z.of_nat (r0 + i)) by lia.
    replace (Z.of_nat c0 + Z.of_nat (1 + j) - 1)%Z with (Z.of_nat (c0 + j)) by lia.
    rewrite !py_mod_small by lia. reflexivity.
  - intros di dj Hin. apply offsets_bounds in Hin as [Hdi Hdj]. cbn [fst snd].
    unfold view_2d. rewrite cell_tabulate by lia.
    f_equal; lia.
Qed.

(** ** The reference semantics *)

Lemma shape_global_steps (ny nx k : nat) (G : grid) :
  shape ny nx G -> shape ny nx (global_steps ny nx k G).
Proof.
  intros HG. destruct k; [exact HG|]. simpl. apply shape_tabulate.
Qed.

Lemma binary_global_steps (ny nx k : nat) (G : grid) :
  binary G -> binary (global_steps ny nx k G).
Proof.
  intros BG. destruct k; [exact BG|]. simpl. apply binary_global_step.
Qed.

(** ** The 1-D driver *)

Lemma views_hold_1d (size ny nx : nat) (H : grid) :
  0 < size -> shape ny nx H ->
  holds_1d size ny nx (views_1d size ny nx H) H.
Proof.
  intros Hsize HH. unfold views_1d.
  split; [now rewrite length_map, length_seq|].
  intros r Hr. unfold grid. rewrite (nth_map_seq _ _ 0 _ _ [] Hr). simpl.
  fold grid. split; [apply shape_view_1d|].
  intros i j Hi Hj. unfold view_1d.
  pose proof (block_end_le ny size r Hsize Hr).
  destruct HH as [_ C].
  rewrite cell_tabulate by lia. unfold torus.
  replace (Z.of_nat (block_start ny size r) + Z.of_nat (S i) - 1)%Z
    with (Z.of_nat (block_start ny size r + i)) by lia.
  rewrite !py_mod_small by lia. reflexivity.
Qed.

Lemma step_holds_1d (size ny nx : nat) (H : grid) :
  0 < size -> 0 < nx -> binary H ->
  holds_1d size ny nx
    (map (fun local_grid =>
            let next_gen := compute_next_generation local_grid nx in
            set_slice 1 next_gen local_grid)
         (views_1d size ny nx H))
    (global_step ny nx H).
Proof.
  intros Hsize Hnx B. unfold views_1d. rewrite map_map.
  split; [now rewrite length_map, length_seq|].
  intros r Hr. unfold grid. rewrite (nth_map_seq _ _ 0 _ _ [] Hr). simpl.
  fold grid.
  set (c := block_count ny size r). set (s := block_start ny size r).
  pose proof (block_end_le ny size r Hsize Hr) as Hend. fold c s in Hend.
  destruct (kernel_view_1d ny nx H s c Hnx Hend B) as [[LK CK] NK].
  destruct (shape_view_1d ny nx H s c) as [LV CV].
  set (next_gen := compute_next_generation _ _) in *.
  set (v := view_1d ny nx H s c) in *.
  assert (Hrow : forall k, row (set_slice 1 next_gen v) k
                 = if (1 <=? k) && (k <? 1 + c) then row next_gen (k - 1) else row v k).
  { intros k. unfold row. rewrite nth_set_slice by lia. now rewrite LK. }
  split; [split|].
  - rewrite length_set_slice; lia.
  - intros k Hk. rewrite Hrow.
    destruct (Nat.leb_spec 1 k); destruct (Nat.ltb_spec k (1 + c)); simpl;
      try (apply CV; lia). apply CK. lia.
  - intros i j Hi Hj. unfold cell at 1. rewrite Hrow.
    match goal with |- context [if ?b then _ else _] =>
      replace b with true
        by (symmetry; apply andb_true_intro; split;
            [apply Nat.leb_le|apply Nat.ltb_lt]; lia) end.
    replace (S i - 1) with i by lia.
    change (nth j (row next_gen i) 0%Z) with (cell next_gen i j).
    now apply NK.
Qed.

Lemma filter_seq_S (p : nat -> bool) (a n : nat) :
  filter p (seq a (S n)) = (if p a then [a] else []) ++ filter p (seq (S a) n).
Proof. simpl. now destruct (p a). Qed.

Section Driver1D.

Variables (size ny nx steps save_interval : nat) (G : grid).
Hypothesis Hsize : 0 < size.
Hypothesis Hvalid : size <= ny.
Hypothesis Hnx : 0 < nx.
Hypothesis HG : shape ny nx G.
Hypothesis BG : binary G.

Local Abbreviation Gk k := (global_steps ny nx k G).

Lemma loop_1d (n : nat) :
  forall k ps snapshots,
    k + n = steps ->
    holds_1d size ny nx ps (Gk k) ->
    (0 < n -> ps = views_1d size ny nx (Gk k)) ->
    exists ps',
      foldM (loop_body size ny nx steps save_interval) (seq k n) (ps, snapshots)
      = Some (ps', snapshots ++
                   map (fun k => (k, Gk k))
                       (filter (snapshot_due save_interval) (seq (S k) n)))
      /\ holds_1d size ny nx ps' (Gk steps).
Proof.
  induction n as [|n IH]; intros k ps snapshots Hk Hh Hv.
  - exists ps. simpl. rewrite app_nil_r. replace steps with k by lia. auto.
  - rewrite Hv by lia. cbn [seq foldM]. unfold loop_body at 1.
    pose proof (step_holds_1d size ny nx (Gk k) Hsize Hnx
                  (binary_global_steps ny nx k G BG)) as Hstep.
    cbv zeta in Hstep. set (ps1 := map _ (views_1d size ny nx (Gk k))) in *.
    change (global_step ny nx (Gk k)) with (Gk (S k)) in Hstep.
    assert (HS : shape ny nx (Gk (S k))) by (now apply shape_global_steps).
    assert (Hex : exists ps2,
               (if k <? steps - 1 then exchange_all ps1 size nx else Some ps1) = Some ps2
               /\ holds_1d size ny nx ps2 (Gk (S k))
               /\ (0 < n -> ps2 = views_1d size ny nx (Gk (S k)))).
    { destruct (Nat.ltb_spec k (steps - 1)).
      - exists (views_1d size ny nx (Gk (S k))). split; [|split; auto].
        + now apply exchange_all_view.
        + now apply views_hold_1d.
      - exists ps1. split; [|split]; auto. lia. }
    destruct Hex as (ps2 & E2 & Hh2 & Hv2). rewrite E2. cbn [bind].
    fold (snapshot_due save_interval (k + 1)).
    replace (k + 1) with (S k) by lia. cbn [filter].
    destruct (snapshot_due save_interval (S k)).
    + rewrite (gather_grid_correct size ny nx ps2 (Gk (S k))) by auto.
      cbn [bind].
      destruct (IH (S k) ps2 (snapshots ++ [(S k, Gk (S k))]) ltac:(lia) Hh2 Hv2)
        as (ps' & E' & Hh').
      exists ps'. split; auto. rewrite E'. f_equal. f_equal.
      rewrite <- app_assoc. reflexivity.
    + destruct (IH (S k) ps2 snapshots ltac:(lia) Hh2 Hv2) as (ps' & E' & Hh').
      exists ps'. split; auto.
Qed.

Lemma main_1d_correct :
  main size ny nx steps save_interval G
  = Some (expected_snapshots ny nx steps save_interval G, Gk steps).
Proof.
  unfold main.
  rewrite (exchange_all_view size ny nx _ G Hsize Hvalid)
    by (now apply scatter_grid_holds).
  cbn [bind]. fold (views_1d size ny nx G).
  pose proof (views_hold_1d size ny nx G Hsize HG) as Hh0.
  assert (E0 : (if 0 <? save_interval
                then initial_grid <- gather_grid (views_1d size ny nx G) size ny nx ;;
                     Some [(0, initial_grid)]
                else Some [])
               = Some (map (fun k => (k, Gk k))
                           (filter (snapshot_due save_interval) [0]))).
  { unfold snapshot_due. simpl filter.
    destruct (Nat.ltb_spec 0 save_interval) as [Hs|Hs]; simpl.
    - rewrite (gather_grid_correct size ny nx _ G) by auto. simpl.
      rewrite Nat.Div0.mod_0_l. reflexivity.
    - reflexivity. }
  rewrite E0. cbn [bind].
  destruct (loop_1d steps 0 (views_1d size ny nx G)
              (map (fun k => (k, Gk k)) (filter (snapshot_due save_interval) [0]))
              ltac:(lia) Hh0 ltac:(reflexivity)) as (ps' & E & Hh).
  rewrite E. cbn [bind fst snd].
  rewrite (gather_grid_correct size ny nx ps' (Gk steps))
    by (auto; now apply shape_global_steps).
  cbn [bind]. unfold expected_snapshots.
  rewrite <- map_app. f_equal. f_equal. f_equal.
  change [0] with (seq 0 1). rewrite <- filter_app.
  reflexivity.
Qed.

End Driver1D.

(** ** The Cartesian grid of ranks *)

Lemma rank_lt (py px a b : nat) : a < py -> b < px -> a * px + b < py * px.
Proof.
  intros Ha Hb.
  assert (S a * px <= py * px) by (apply Nat.mul_le_mono_r; lia).
  simpl in *. lia.
Qed.

Lemma coords_rank (dims : nat * nat) (a b : nat) :
  b < snd dims -> Get_coords dims (Get_cart_rank dims (a, b)) = (a, b).
Proof.
  intros Hb. unfold Get_coords, Get_cart_rank. cbn [fst snd]. f_equal.
  - rewrite Nat.div_add_l by lia. rewrite Nat.div_small by auto. lia.
  - rewrite Nat.add_comm, Nat.Div0.mod_add. now apply Nat.mod_small.
Qed.

Lemma rank_coords (dims : nat * nat) (r : nat) :
  Get_cart_rank dims (Get_coords dims r) = r.
Proof.
  unfold Get_coords, Get_cart_rank. cbn [fst snd].
  pose proof (Nat.div_mod_eq r (snd dims)). lia.
Qed.

Lemma coords_lt (dims : nat * nat) (r : nat) :
  0 < snd dims -> r < fst dims * snd dims ->
  fst (Get_coords dims r) < fst dims /\ snd (Get_coords dims r) < snd dims.
Proof.
  intros Hp Hr. unfold Get_coords. cbn [fst snd]. split.
  - apply Nat.Div0.div_lt_upper_bound. lia.
  - apply Nat.mod_upper_bound. lia.
Qed.

Lemma in_proc_grid (dims : nat * nat) (a b : nat) :
  In (a, b) (proc_grid dims) <-> a < fst dims /\ b < snd dims.
Proof.
  unfold proc_grid. rewrite in_flat_map. split.
  - intros (pr & Hpr & Hin). apply in_map_iff in Hin as (pc & E & Hpc).
    inversion E; subst. apply in_seq in Hpr, Hpc. lia.
  - intros [Ha Hb]. exists a. split; [apply in_seq; lia|].
    apply in_map_iff. exists b. split; auto. apply in_seq. lia.
Qed.

Lemma has_shape_true (rows cols : nat) (g : grid) :
  shape rows cols g -> has_shape rows cols g = true.
Proof.
  intros [L C]. unfold has_shape. apply andb_true_intro. split.
  - now apply Nat.eqb_eq.
  - apply forallb_forall. intros rw Hin.
    destruct (In_nth _ _ [] Hin) as (i & Hi & E).
    apply Nat.eqb_eq. rewrite <- E. apply C. lia.
Qed.

(** [local_grid[1:local_rows+1, 1:local_cols+1]] *)
Lemma interior_2d_spec (r c : nat) (g : grid) :
  shape (r + 2) (c + 2) g ->
  shape r c (interior_2d g) /\
  forall i j, i < r -> j < c -> cell (interior_2d g) i j = cell g (1 + i) (1 + j).
Proof.
  intros Hg. unfold interior_2d, nrows, ncols.
  destruct Hg as [L C]. rewrite L, C by lia.
  destruct (subgrid_spec (r + 2) (c + 2) g 1 (r + 2 - 2 + 1) 1 (c + 2 - 2 + 1))
    as [S N]; try lia; [split; auto|].
  replace (r + 2 - 2 + 1 - 1) with r in * by lia.
  replace (c + 2 - 2 + 1 - 1) with c in * by lia.
  split; auto.
Qed.

(** ** Scatter and gather (2-D) *)

Section Distribute2D.

Variables (dims : nat * nat) (ny nx : nat).
Hypothesis Hpy : 0 < fst dims.
Hypothesis Hpx : 0 < snd dims.

Local Abbreviation nr a := (block_count ny (fst dims) a).
Local Abbreviation nc b := (block_count nx (snd dims) b).
Local Abbreviation rs a := (block_start ny (fst dims) a).
Local Abbreviation cs b := (block_start nx (snd dims) b).

Lemma scatter_grid_2d_holds (G : grid) :
  shape ny nx G ->
  exists ps, scatter_grid_2d G dims ny nx = Some ps /\ holds_2d dims ny nx ps G.
Proof.
  intros HG.
  pose (patch := fun a b => subgrid (rs a) (rs a + nr a) (cs b) (cs b + nc b) G).
  pose (g := fun rank =>
    let '(a, b) := Get_coords dims rank in
    set_block (zeros2 (nr a + 2) (nc b + 2)) 1 1 (patch a b)).
  exists (map g (seq 0 (fst dims * snd dims))). split.
  - unfold scatter_grid_2d. apply mapM_map. intros r Hr. apply in_seq in Hr.
    destruct (coords_lt dims r Hpx ltac:(lia)) as [Ha Hb].
    pose proof (rank_coords dims r) as Erank.
    unfold g. destruct (Get_coords dims r) as [a b]. cbn [fst snd] in *.
    rewrite (find_unique _ _ (r, patch a b)); auto.
    + unfold scatter_sends_2d. apply in_map_iff.
      exists (a, b). rewrite Erank. split; auto. now apply in_proc_grid.
    + simpl. apply Nat.eqb_refl.
    + intros [q p] Hin Hq. simpl in Hq. apply Nat.eqb_eq in Hq. subst q.
      unfold scatter_sends_2d in Hin. apply in_map_iff in Hin as ([a' b'] & E & Hin).
      apply in_proc_grid in Hin as [Ha' Hb']. inversion E as [[E1 E2]].
      pose proof (coords_rank dims a' b' Hb') as Ec.
      rewrite E1, <- Erank, coords_rank in Ec by auto.
      inversion Ec; subst. reflexivity.
  - split; [now rewrite length_map, length_seq|].
    intros a b Ha Hb. cbv zeta.
    pose proof (rank_lt (fst dims) (snd dims) a b Ha Hb) as Hr.
    unfold grid. rewrite (nth_map_seq _ _ 0 _ _ [] Hr). fold grid.
    change (0 + (a * snd dims + b)) with (Get_cart_rank dims (a, b)).
    unfold g. rewrite (coords_rank dims a b Hb).
    pose proof (block_end_le ny (fst dims) a Hpy Ha).
    pose proof (block_end_le nx (snd dims) b Hpx Hb).
    destruct (subgrid_spec ny nx G (rs a) (rs a + nr a) (cs b) (cs b + nc b) HG)
      as [SP NP]; try lia.
    replace (rs a + nr a - rs a) with (nr a) in * by lia.
    replace (cs b + nc b - cs b) with (nc b) in * by lia.
    destruct (set_block_spec (nr a + 2) (nc b + 2) (nr a) (nc b)
                (zeros2 (nr a + 2) (nc b + 2)) (patch a b) 1 1
                (shape_zeros2 _ _) SP) as [SB NB]; try lia.
    split; [exact SB|].
    intros i j Hi Hj. rewrite NB.
    match goal with |- context [if ?c then _ else _] =>
      replace c with true by (symmetry; bool_true) end.
    replace (1 + i - 1) with i by lia. replace (1 + j - 1) with j by lia.
    unfold patch. now apply NP.
Qed.

Lemma gather_grid_2d_correct (ps : list grid) (H : grid) :
  shape ny nx H -> holds_2d dims ny nx ps H ->
  gather_grid_2d ps dims ny nx = Some H.
Proof.
  intros HH [Lps Hps]. unfold gather_grid_2d.
  pose (patch_of := fun '(proc_row, proc_col) =>
    interior_2d (nth (Get_cart_rank dims (proc_row, proc_col)) ps [])).
  change ((if forallb (fun c => has_shape (nr (fst c)) (nc (snd c)) (patch_of c))
                      (proc_grid dims)
           then Some (fold_left
                        (fun global_grid c =>
                           set_block global_grid (rs (fst c)) (cs (snd c)) (patch_of c))
                        (proc_grid dims) (zeros2 ny nx))
           else None) = Some H).
  assert (Hpatch : forall a b, a < fst dims -> b < snd dims ->
            shape (nr a) (nc b) (patch_of (a, b)) /\
            forall i j, i < nr a -> j < nc b ->
              cell (patch_of (a, b)) i j = cell H (rs a + i) (cs b + j)).
  { intros a b Ha Hb. destruct (Hps a b Ha Hb) as [Sg Ng].
    destruct (interior_2d_spec _ _ _ Sg) as [Si Ni].
    split; [exact Si|]. intros i j Hi Hj. unfold patch_of.
    rewrite Ni by auto. now apply Ng. }
  assert (Hcheck : forallb (fun c => has_shape (nr (fst c)) (nc (snd c)) (patch_of c))
                           (proc_grid dims) = true).
  { apply forallb_forall. intros [a b] Hin. apply in_proc_grid in Hin as [Ha Hb].
    apply has_shape_true. now apply Hpatch. }
  rewrite Hcheck. f_equal.
  assert (G : forall l g0,
    (forall a b, In (a, b) l -> a < fst dims /\ b < snd dims) ->
    shape ny nx g0 ->
    let g' := fold_left (fun global_grid c =>
                set_block global_grid (rs (fst c)) (cs (snd c)) (patch_of c)) l g0 in
    shape ny nx g' /\
    forall y x, y < ny -> x < nx ->
      (cell g0 y x = cell H y x \/
       exists a b, In (a, b) l /\ rs a <= y < rs a + nr a /\ cs b <= x < cs b + nc b) ->
      cell g' y x = cell H y x).
  { induction l as [|[a b] l IH]; intros g0 Hl Hg0; cbv zeta.
    - simpl. split; auto. intros y x Hy Hx [E0|(a & b & [] & _)]. exact E0.
    - cbn [fold_left fst snd].
      destruct (Hl a b (or_introl eq_refl)) as [Ha Hb].
      destruct (Hpatch a b Ha Hb) as [SP NP].
      pose proof (block_end_le ny (fst dims) a Hpy Ha).
      pose proof (block_end_le nx (snd dims) b Hpx Hb).
      destruct (set_block_spec ny nx (nr a) (nc b) g0 (patch_of (a, b)) (rs a) (cs b)
                  Hg0 SP) as [SB NB]; try lia.
      destruct (IH (set_block g0 (rs a) (cs b) (patch_of (a, b)))) as [S' N'];
        auto. { intros a' b' Hin. apply Hl. now right. }
      split; [exact S'|].
      intros y x Hy Hx Hor. apply N'; auto. rewrite NB.
      destruct (Nat.leb_spec (rs a) y); destruct (Nat.ltb_spec y (rs a + nr a));
        destruct (Nat.leb_spec (cs b) x); destruct (Nat.ltb_spec x (cs b + nc b));
        cbn [andb];
        try (left; rewrite NP by lia; f_equal; lia);
        (destruct Hor as [E0|(a' & b' & [Eab|Hin] & Hrow & Hcol)];
         [now left
         |inversion Eab; subst; lia
         |right; exists a', b'; auto]). }
  destruct (G (proc_grid dims) (zeros2 ny nx)) as [SF NF].
  - intros a b Hin. now apply in_proc_grid.
  - apply shape_zeros2.
  - apply (grid_ext ny nx); auto.
    intros y x Hy Hx. apply NF; auto. right.
    destruct (block_owner_exists ny (fst dims) y Hpy Hy) as (a & Ha & Hya).
    destruct (block_owner_exists nx (snd dims) x Hpx Hx) as (b & Hb & Hxb).
    exists a, b. split; [now apply in_proc_grid|auto].
Qed.

End Distribute2D.

(** ** The 2-D driver: patches between two exchanges *)

Section Patches2D.

Variables (dims : nat * nat) (ny nx : nat).
Hypothesis Hpy : 0 < fst dims.
Hypothesis Hpx : 0 < snd dims.

Local Abbreviation nr a := (block_count ny (fst dims) a).
Local Abbreviation nc b := (block_count nx (snd dims) b).
Local Abbreviation rs a := (block_start ny (fst dims) a).
Local Abbreviation cs b := (block_start nx (snd dims) b).

Lemma nth_views_2d (H : grid) (a b : nat) :
  a < fst dims -> b < snd dims ->
  nth (Get_cart_rank dims (a, b)) (views_2d dims ny nx H) []
  = view_2d ny nx H (rs a) (nr a) (cs b) (nc b).
Proof.
  intros Ha Hb. unfold views_2d.
  pose proof (rank_lt (fst dims) (snd dims) a b Ha Hb) as Hr.
  change (a * snd dims + b) with (Get_cart_rank dims (a, b)) in Hr.
  unfold grid. rewrite (nth_map_seq _ _ 0 _ _ [] Hr). fold grid.
  cbn [Nat.add]. now rewrite (coords_rank dims a b Hb).
Qed.

Lemma views_hold_2d (H : grid) :
  shape ny nx H -> holds_2d dims ny nx (views_2d dims ny nx H) H.
Proof.
  intros HH. split; [unfold views_2d; now rewrite length_map, length_seq|].
  intros a b Ha Hb. cbv zeta. rewrite nth_views_2d by auto.
  split; [apply shape_view_2d|].
  intros i j Hi Hj. unfold view_2d.
  pose proof (block_end_le ny (fst dims) a Hpy Ha).
  pose proof (block_end_le nx (snd dims) b Hpx Hb).
  rewrite cell_tabulate by lia. unfold torus.
  replace (Z.of_nat (rs a) + Z.of_nat (1 + i) - 1)%Z with (Z.of_nat (rs a + i)) by lia.
  replace (Z.of_nat (cs b) + Z.of_nat (1 + j) - 1)%Z with (Z.of_nat (cs b + j)) by lia.
  rewrite !py_mod_small by lia. reflexivity.
Qed.

Lemma step_holds_2d (H : grid) :
  binary H ->
  holds_2d dims ny nx
    (map (fun local_grid =>
            let next_gen := compute_next_generation_2d local_grid in
            set_block local_grid 1 1 next_gen)
         (views_2d dims ny nx H))
    (global_step ny nx H).
Proof.
  intros B.
  split; [unfold views_2d; now rewrite !length_map, length_seq|].
  intros a b Ha Hb. cbv zeta.
  pose proof (rank_lt (fst dims) (snd dims) a b Ha Hb) as Hr.
  change (a * snd dims + b) with (Get_cart_rank dims (a, b)) in Hr.
  assert (Lv : length (views_2d dims ny nx H) = fst dims * snd dims)
    by (unfold views_2d; now rewrite length_map, length_seq).
  unfold grid.
  rewrite (nth_indep _ [] ((fun local_grid : list (list Z) =>
            set_block local_grid 1 1 (compute_next_generation_2d local_grid)) []))
    by (rewrite length_map; fold grid; lia).
  rewrite (map_nth (fun local_grid : list (list Z) =>
            set_block local_grid 1 1 (compute_next_generation_2d local_grid))).
  fold grid. rewrite nth_views_2d by auto.
  pose proof (block_end_le ny (fst dims) a Hpy Ha) as Hra.
  pose proof (block_end_le nx (snd dims) b Hpx Hb) as Hcb.
  destruct (kernel_view_2d ny nx H (rs a) (nr a) (cs b) (nc b) Hra Hcb B) as [SK NK].
  destruct (set_block_spec (nr a + 2) (nc b + 2) (nr a) (nc b)
              (view_2d ny nx H (rs a) (nr a) (cs b) (nc b))
              (compute_next_generation_2d (view_2d ny nx H (rs a) (nr a) (cs b) (nc b)))
              1 1 (shape_view_2d _ _ _ _ _ _ _) SK) as [SB NB]; try lia.
  split; [exact SB|].
  intros i j Hi Hj. rewrite NB.
  match goal with |- context [if ?c then _ else _] =>
    replace c with true by (symmetry; bool_true) end.
  replace (1 + i - 1) with i by lia. replace (1 + j - 1) with j by lia.
  now apply NK.
Qed.

End Patches2D.

(** ** Halo exchange (2-D) *)

Lemma halo_sends_2d_src (g : grid) (r : nat) (co dims : nat * nat) (m : message) :
  In m (halo_sends_2d g r co dims) -> msg_src m = r.
Proof.
  unfold halo_sends_2d. cbn [In]. intros Hin.
  repeat (destruct Hin as [<-|Hin]; [reflexivity|]). contradiction.
Qed.

Lemma halo_sends_2d_tag (g : grid) (r : nat) (co dims : nat * nat) (m y : message) :
  In m (halo_sends_2d g r co dims) -> In y (halo_sends_2d g r co dims) ->
  msg_tag y = msg_tag m -> y = m.
Proof.
  unfold halo_sends_2d. cbn [In]. intros Hm Hy.
  repeat (destruct Hm as [<-|Hm]; [|]);
    try contradiction;
    repeat (destruct Hy as [<-|Hy]; [|]);
    try contradiction; cbn [msg_tag]; intros E;
    try discriminate E; reflexivity.
Qed.

Lemma holds_wf_2d (dims : nat * nat) (ny nx : nat) (ps : list grid) (H : grid) :
  holds_2d dims ny nx ps H -> wf_2d dims ny nx ps.
Proof.
  intros [L Hp]. split; auto. intros a b Ha Hb. now destruct (Hp a b Ha Hb).
Qed.

Section Exchange2D.

Variables (dims : nat * nat) (ny nx : nat) (ps : list grid).
Hypothesis Hpy : 0 < fst dims.
Hypothesis Hpx : 0 < snd dims.
Hypothesis Hwf : wf_2d dims ny nx ps.

Local Abbreviation nr a := (block_count ny (fst dims) a).
Local Abbreviation nc b := (block_count nx (snd dims) b).
Local Abbreviation rk a b := (Get_cart_rank dims (a, b)).
Local Abbreviation patch a b := (nth (Get_cart_rank dims (a, b)) ps []).
Local Abbreviation up a := (py_mod (Z.of_nat a - 1) (fst dims)).
Local Abbreviation down a := (py_mod (Z.of_nat a + 1) (fst dims)).
Local Abbreviation left b := (py_mod (Z.of_nat b - 1) (snd dims)).
Local Abbreviation right b := (py_mod (Z.of_nat b + 1) (snd dims)).

Lemma patch_shape (a b : nat) :
  a < fst dims -> b < snd dims -> shape (nr a + 2) (nc b + 2) (patch a b).
Proof. intros Ha Hb. destruct Hwf as [_ Hp]. now apply Hp. Qed.

Lemma in_halo_network_2d (m : message) :
  In m (halo_network_2d ps dims) <->
  exists a b, a < fst dims /\ b < snd dims /\
              In m (halo_sends_2d (patch a b) (rk a b) (a, b) dims).
Proof.
  unfold halo_network_2d. rewrite in_flat_map. split.
  - intros (r & Hr & Hm). apply in_seq in Hr.
    destruct (coords_lt dims r Hpx ltac:(lia)) as [Ha Hb].
    pose proof (rank_coords dims r) as E.
    destruct (Get_coords dims r) as [a b]. cbn [fst snd] in *.
    exists a, b. rewrite E. auto.
  - intros (a & b & Ha & Hb & Hm). exists (rk a b). split.
    + apply in_seq. pose proof (rank_lt _ _ a b Ha Hb).
      unfold Get_cart_rank. cbn [fst snd]. lia.
    + now rewrite coords_rank.
Qed.

Lemma halo_sends_2d_norm (a b : nat) :
  a < fst dims -> b < snd dims ->
  halo_sends_2d (patch a b) (rk a b) (a, b) dims =
  [ Msg (rk a b) (rk (down a) b) 0 (slice 1 (nc b + 1) (row (patch a b) (nr a)));
    Msg (rk a b) (rk (up a) b) 1 (slice 1 (nc b + 1) (row (patch a b) 1));
    Msg (rk a b) (rk a (right b)) 2 (column 1 (nr a + 1) (nc b) (patch a b));
    Msg (rk a b) (rk a (left b)) 3 (column 1 (nr a + 1) 1 (patch a b));
    Msg (rk a b) (rk (down a) (right b)) 4 [cell (patch a b) (nr a) (nc b)];
    Msg (rk a b) (rk (down a) (left b)) 5 [cell (patch a b) (nr a) 1];
    Msg (rk a b) (rk (up a) (right b)) 6 [cell (patch a b) 1 (nc b)];
    Msg (rk a b) (rk (up a) (left b)) 7 [cell (patch a b) 1 1] ].
Proof.
  intros Ha Hb. destruct (patch_shape a b Ha Hb) as [L C].
  unfold halo_sends_2d, neighbors_2d, Shift, nrows, ncols.
  rewrite L, C by lia. cbn [fst snd north south east west nw ne sw se].
  replace (nr a + 2 - 2) with (nr a) by lia.
  replace (nc b + 2 - 2) with (nc b) by lia.
  reflexivity.
Qed.

Lemma recv_from (me a b tag dst : nat) (data buf : list Z) :
  a < fst dims -> b < snd dims ->
  In (Msg (rk a b) dst tag data) (halo_sends_2d (patch a b) (rk a b) (a, b) dims) ->
  dst = me -> length data = length buf ->
  Irecv (halo_network_2d ps dims) me buf (rk a b) tag = Some data.
Proof.
  intros Ha Hb Hin -> Hl.
  pose (m := Msg (rk a b) me tag data).
  change (Irecv (halo_network_2d ps dims) (msg_dst m) buf (msg_src m) (msg_tag m)
          = Some (msg_data m)).
  apply Irecv_found; auto.
  - apply in_halo_network_2d. exists a, b. auto.
  - intros y Hy E1 E2 E3. apply in_halo_network_2d in Hy as (a' & b' & Ha' & Hb' & Hy).
    pose proof (halo_sends_2d_src _ _ _ _ _ Hy) as Es. rewrite E1 in Es.
    cbn [msg_src m] in Es.
    pose proof (coords_rank dims a' b' Hb') as Ec.
    rewrite <- Es, coords_rank in Ec by auto. inversion Ec; subst a' b'.
    apply (halo_sends_2d_tag _ _ _ _ m y Hin Hy E3).
Qed.

Lemma length_row_slice (a b : nat) (i : nat) :
  a < fst dims -> b < snd dims -> i < nr a + 2 ->
  length (slice 1 (nc b + 1) (row (patch a b) i)) = nc b.
Proof.
  intros Ha Hb Hi. destruct (patch_shape a b Ha Hb) as [_ C].
  rewrite length_slice, C by auto. lia.
Qed.

Lemma length_column (a b : nat) (j : nat) :
  a < fst dims -> b < snd dims ->
  length (column 1 (nr a + 1) j (patch a b)) = nr a.
Proof.
  intros Ha Hb.
  destruct (column_spec _ _ (patch a b) 1 (nr a + 1) j (patch_shape a b Ha Hb))
    as [Lc _]; [lia|].
  rewrite Lc. lia.
Qed.

Lemma exchange_halo_2d_sets (a b : nat) :
  a < fst dims -> b < snd dims ->
  exchange_halo_2d (halo_network_2d ps dims) (patch a b) (rk a b) (a, b) dims
  = Some (exchanged_2d dims ny nx ps a b).
Proof.
  intros Ha Hb.
  destruct (patch_shape a b Ha Hb) as [L C].
  destruct (ring_topology (fst dims) a Hpy Ha) as (Hu & Hd & Hud & Hdu).
  destruct (ring_topology (snd dims) b Hpx Hb) as (Hl & Hr & Hlr & Hrl).
  unfold exchange_halo_2d, neighbors_2d, Shift, nrows, ncols.
  rewrite L, C by lia. cbn [fst snd north south east west nw ne sw se].
  replace (nr a + 2 - 2) with (nr a) by lia.
  replace (nc b + 2 - 2) with (nc b) by lia.
  rewrite (recv_from (rk a b) (up a) b 0 (rk (down (up a)) b)
             (slice 1 (nc b + 1) (row (patch (up a) b) (nr (up a)))) (zeros (nc b)));
    [| assumption | assumption
     | rewrite halo_sends_2d_norm by auto; cbn [In]; tauto
     | now rewrite Hud
     | rewrite length_zeros; apply length_row_slice; auto; lia ].
  rewrite (recv_from (rk a b) (down a) b 1 (rk (up (down a)) b)
             (slice 1 (nc b + 1) (row (patch (down a) b) 1)) (zeros (nc b)));
    [| assumption | assumption
     | rewrite halo_sends_2d_norm by auto; cbn [In]; tauto
     | now rewrite Hdu
     | rewrite length_zeros; apply length_row_slice; auto; lia ].
  rewrite (recv_from (rk a b) a (left b) 2 (rk a (right (left b)))
             (column 1 (nr a + 1) (nc (left b)) (patch a (left b))) (zeros (nr a)));
    [| assumption | assumption
     | rewrite halo_sends_2d_norm by auto; cbn [In]; tauto
     | now rewrite Hlr
     | rewrite length_zeros; apply length_column; auto ].
  rewrite (recv_from (rk a b) a (right b) 3 (rk a (left (right b)))
             (column 1 (nr a + 1) 1 (patch a (right b))) (zeros (nr a)));
    [| assumption | assumption
     | rewrite halo_sends_2d_norm by auto; cbn [In]; tauto
     | now rewrite Hrl
     | rewrite length_zeros; apply length_column; auto ].
  rewrite (recv_from (rk a b) (up a) (left b) 4 (rk (down (up a)) (right (left b)))
             [cell (patch (up a) (left b)) (nr (up a)) (nc (left b))] (zeros 1));
    [| assumption | assumption
     | rewrite halo_sends_2d_norm by auto; cbn [In]; tauto
     | now rewrite Hud, Hlr | reflexivity ].
  rewrite (recv_from (rk a b) (up a) (right b) 5 (rk (down (up a)) (left (right b)))
             [cell (patch (up a) (right b)) (nr (up a)) 1] (zeros 1));
    [| assumption | assumption
     | rewrite halo_sends_2d_norm by auto; cbn [In]; tauto
     | now rewrite Hud, Hrl | reflexivity ].
  rewrite (recv_from (rk a b) (down a) (left b) 6 (rk (up (down a)) (right (left b)))
             [cell (patch (down a) (left b)) 1 (nc (left b))] (zeros 1));
    [| assumption | assumption
     | rewrite halo_sends_2d_norm by auto; cbn [In]; tauto
     | now rewrite Hdu, Hlr | reflexivity ].
  rewrite (recv_from (rk a b) (down a) (right b) 7 (rk (up (down a)) (left (right b)))
             [cell (patch (down a) (right b)) 1 1] (zeros 1));
    [| assumption | assumption
     | rewrite halo_sends_2d_norm by auto; cbn [In]; tauto
     | now rewrite Hdu, Hrl | reflexivity ].
  reflexivity.
Qed.

(** The eight assignments keep the shape, and give the cells below. *)
Lemma exchanged_2d_spec (a b : nat) :
  a < fst dims -> b < snd dims ->
  shape (nr a + 2) (nc b + 2) (exchanged_2d dims ny nx ps a b) /\
  forall i j, i < nr a + 2 -> j < nc b + 2 ->
    cell (exchanged_2d dims ny nx ps a b) i j =
    if (i =? nr a + 1) && (j =? nc b + 1) then cell (patch (down a) (right b)) 1 1
    else if (i =? nr a + 1) && (j =? 0)
      then cell (patch (down a) (left b)) 1 (nc (left b))
    else if (i =? 0) && (j =? nc b + 1)
      then cell (patch (up a) (right b)) (nr (up a)) 1
    else if (i =? 0) && (j =? 0)
      then cell (patch (up a) (left b)) (nr (up a)) (nc (left b))
    else if (j =? nc b + 1) && (1 <=? i) && (i <? 1 + nr a)
      then cell (patch a (right b)) i 1
    else if (j =? 0) && (1 <=? i) && (i <? 1 + nr a)
      then cell (patch a (left b)) i (nc (left b))
    else if (i =? nr a + 1) && (1 <=? j) && (j <? 1 + nc b)
      then cell (patch (down a) b) 1 j
    else if (i =? 0) && (1 <=? j) && (j <? 1 + nc b)
      then cell (patch (up a) b) (nr (up a)) j
    else cell (patch a b) i j.
Proof.
  intros Ha Hb.
  destruct (patch_shape a b Ha Hb) as [L C].
  destruct (ring_topology (fst dims) a Hpy Ha) as (Hu & Hd & _ & _).
  destruct (ring_topology (snd dims) b Hpx Hb) as (Hl & Hr & _ & _).
  unfold exchanged_2d.
  set (rN := slice 1 (nc b + 1) (row (patch (up a) b) (nr (up a)))).
  set (rS := slice 1 (nc b + 1) (row (patch (down a) b) 1)).
  set (rW := column 1 (nr a + 1) (nc (left b)) (patch a (left b))).
  set (rE := column 1 (nr a + 1) 1 (patch a (right b))).
  assert (LN : length rN = nc b) by (apply length_row_slice; auto; lia).
  assert (LS : length rS = nc b) by (apply length_row_slice; auto; lia).
  destruct (column_spec _ _ (patch a (left b)) 1 (nr a + 1) (nc (left b))
              (patch_shape a (left b) Ha Hl)) as [LW NW]; [lia|]. fold rW in LW, NW.
  destruct (column_spec _ _ (patch a (right b)) 1 (nr a + 1) 1
              (patch_shape a (right b) Ha Hr)) as [LE NE]; [lia|]. fold rE in LE, NE.
  replace (nr a + 1 - 1) with (nr a) in * by lia.
  pose proof (shape_set_row_slice _ _ (patch a b) 0 1 rN (conj L C) ltac:(lia)) as S1.
  pose proof (shape_set_row_slice _ _ _ (nr a + 1) 1 rS S1 ltac:(lia)) as S2.
  destruct (set_col_slice_spec _ _ _ 1 0 rW S2) as [S3 N3]; try lia.
  destruct (set_col_slice_spec _ _ _ 1 (nc b + 1) rE S3) as [S4 N4]; try lia.
  pose proof (shape_set_cell _ _ _ 0 0
                (cell (patch (up a) (left b)) (nr (up a)) (nc (left b))) S4) as S5.
  pose proof (shape_set_cell _ _ _ 0 (nc b + 1)
                (cell (patch (up a) (right b)) (nr (up a)) 1) S5) as S6.
  pose proof (shape_set_cell _ _ _ (nr a + 1) 0
                (cell (patch (down a) (left b)) 1 (nc (left b))) S6) as S7.
  pose proof (shape_set_cell _ _ _ (nr a + 1) (nc b + 1)
                (cell (patch (down a) (right b)) 1 1) S7) as S8.
  split; [exact S8|].
  intros i j Hi Hj.
  rewrite (cell_set_cell _ _ _ _ _ _ _ _ S7) by lia.
  rewrite (cell_set_cell _ _ _ _ _ _ _ _ S6) by lia.
  rewrite (cell_set_cell _ _ _ _ _ _ _ _ S5) by lia.
  rewrite (cell_set_cell _ _ _ _ _ _ _ _ S4) by lia.
  rewrite N4, N3.
  rewrite (cell_set_row_slice _ _ _ _ _ _ _ _ S1) by lia.
  rewrite (cell_set_row_slice _ _ _ _ _ _ _ _ (conj L C)) by lia.
  rewrite LN, LS, LW, LE.
  repeat match goal with
    | |- (if ?c then ?x else ?y) = (if ?c then ?x' else ?y') =>
        destruct c eqn:?
    end; try reflexivity;
    repeat match goal with
      | E : (_ && _)%bool = true |- _ => apply andb_prop in E; destruct E
      | E : (_ <=? _) = true |- _ => apply Nat.leb_le in E
      | E : (_ <? _) = true |- _ => apply Nat.ltb_lt in E
      | E : (_ =? _) = true |- _ => apply Nat.eqb_eq in E
      end.
  - rewrite NE by lia. f_equal. lia.
  - rewrite NW by lia. f_equal. lia.
  - unfold rS. rewrite nth_slice by lia. unfold cell. f_equal. lia.
  - unfold rN. rewrite nth_slice by lia. unfold cell. f_equal. lia.
Qed.

Lemma exchange_all_2d_sets :
  exchange_all_2d ps dims
  = Some (map (fun r => exchanged_2d dims ny nx ps
                          (fst (Get_coords dims r)) (snd (Get_coords dims r)))
              (seq 0 (fst dims * snd dims))).
Proof.
  unfold exchange_all_2d. apply mapM_map.
  intros r Hr. apply in_seq in Hr.
  destruct (coords_lt dims r Hpx ltac:(lia)) as [Ha Hb].
  pose proof (rank_coords dims r) as E.
  destruct (Get_coords dims r) as [a b]. cbn [fst snd] in *.
  rewrite <- E. now apply exchange_halo_2d_sets.
Qed.

Lemma exchanged_wf_2d :
  wf_2d dims ny nx
    (map (fun r => exchanged_2d dims ny nx ps
                     (fst (Get_coords dims r)) (snd (Get_coords dims r)))
         (seq 0 (fst dims * snd dims))).
Proof.
  split; [now rewrite length_map, length_seq|].
  intros a b Ha Hb.
  pose proof (rank_lt (fst dims) (snd dims) a b Ha Hb) as Hr.
  change (a * snd dims + b) with (Get_cart_rank dims (a, b)) in Hr.
  unfold grid. rewrite (nth_map_seq _ _ 0 _ _ [] Hr). fold grid.
  cbn [Nat.add]. rewrite (coords_rank dims a b Hb). cbn [fst snd].
  now apply exchanged_2d_spec.
Qed.

End Exchange2D.

Lemma halo_source_owned (n p k i : nat) :
  0 < p -> p <= n -> k < p -> i < block_count n p k + 2 ->
  halo_strip p k (block_count n p k) i < p /\
  1 <= halo_index n p k i <= block_count n p (halo_strip p k (block_count n p k) i).
Proof.
  intros Hp Hn Hk Hi. unfold halo_strip, halo_index.
  destruct (ring_topology p k Hp Hk) as (Hu & Hd & _ & _).
  pose proof (block_count_pos n p k Hp Hn).
  pose proof (block_count_pos n p (py_mod (Z.of_nat k - 1) p) Hp Hn).
  pose proof (block_count_pos n p (py_mod (Z.of_nat k + 1) p) Hp Hn).
  destruct (Nat.eqb_spec i 0); [lia|].
  destruct (Nat.eqb_spec i (block_count n p k + 1)); lia.
Qed.

Lemma halo_torus (n p k i : nat) :
  0 < p -> p <= n -> k < p -> i < block_count n p k + 2 ->
  py_mod (Z.of_nat (block_start n p k) + Z.of_nat i - 1) n
  = block_start n p (halo_strip p k (block_count n p k) i) + halo_index n p k i - 1.
Proof.
  intros Hp Hn Hk Hi. unfold halo_strip, halo_index.
  destruct (ring_pred n p k Hp Hn Hk) as (_ & _ & _ & Eu).
  destruct (ring_succ n p k Hp Hn Hk) as (_ & _ & _ & Ed).
  pose proof (block_end_le n p k Hp Hk).
  pose proof (block_count_pos n p (py_mod (Z.of_nat k - 1) p) Hp Hn).
  destruct (Nat.eqb_spec i 0) as [->|].
  - rewrite <- Eu. f_equal. lia.
  - destruct (Nat.eqb_spec i (block_count n p k + 1)) as [->|].
    + replace (block_start n p (py_mod (Z.of_nat k + 1) p) + 1 - 1)
        with (block_start n p (py_mod (Z.of_nat k + 1) p)) by lia.
      rewrite <- Ed. f_equal. lia.
    + replace (Z.of_nat (block_start n p k) + Z.of_nat i - 1)%Z
        with (Z.of_nat (block_start n p k + i - 1)) by lia.
      apply py_mod_small. lia.
Qed.

(** With non-empty patches the cell at [(i, j)] of the exchanged grid is
    an owned cell: of the patch itself or, on the halo, of the neighbour on
    that side. *)
Section Exchange2DCells.

Variables (dims : nat * nat) (ny nx : nat) (ps : list grid).
Hypothesis Hpy : 0 < fst dims.
Hypothesis Hpx : 0 < snd dims.
Hypothesis Hvy : fst dims <= ny.
Hypothesis Hvx : snd dims <= nx.
Hypothesis Hwf : wf_2d dims ny nx ps.

Local Abbreviation nr a := (block_count ny (fst dims) a).
Local Abbreviation nc b := (block_count nx (snd dims) b).
Local Abbreviation patch a b := (nth (Get_cart_rank dims (a, b)) ps []).

Lemma exchanged_2d_cells (a b i j : nat) :
  a < fst dims -> b < snd dims -> i < nr a + 2 -> j < nc b + 2 ->
  cell (exchanged_2d dims ny nx ps a b) i j
  = cell (patch (halo_strip (fst dims) a (nr a) i) (halo_strip (snd dims) b (nc b) j))
         (halo_index ny (fst dims) a i) (halo_index nx (snd dims) b j).
Proof.
  intros Ha Hb Hi Hj.
  destruct (exchanged_2d_spec dims ny nx ps Hpy Hpx Hwf a b Ha Hb) as [_ N].
  rewrite N by auto. unfold halo_strip, halo_index.
  pose proof (block_count_pos ny (fst dims) a Hpy Hvy) as Pa.
  pose proof (block_count_pos nx (snd dims) b Hpx Hvx) as Pb.
  assert (Ci : i = 0 \/ 1 <= i <= nr a \/ i = nr a + 1) by lia.
  assert (Cj : j = 0 \/ 1 <= j <= nc b \/ j = nc b + 1) by lia.
  destruct Ci as [-> | [Ci | ->]]; destruct Cj as [-> | [Cj | ->]];
    decide_nat_bools; reflexivity.
Qed.

End Exchange2DCells.

Section Exchange2DView.

Variables (dims : nat * nat) (ny nx : nat) (ps : list grid) (H : grid).
Hypothesis Hpy : 0 < fst dims.
Hypothesis Hpx : 0 < snd dims.
Hypothesis Hvy : fst dims <= ny.
Hypothesis Hvx : snd dims <= nx.
Hypothesis HH : shape ny nx H.
Hypothesis Hps : holds_2d dims ny nx ps H.

Local Abbreviation nr a := (block_count ny (fst dims) a).
Local Abbreviation nc b := (block_count nx (snd dims) b).
Local Abbreviation rs a := (block_start ny (fst dims) a).
Local Abbreviation cs b := (block_start nx (snd dims) b).
Local Abbreviation patch a b := (nth (Get_cart_rank dims (a, b)) ps []).

Lemma patch_cell (a b li lj : nat) :
  a < fst dims -> b < snd dims -> 1 <= li <= nr a -> 1 <= lj <= nc b ->
  cell (patch a b) li lj = cell H (rs a + li - 1) (cs b + lj - 1).
Proof.
  intros Ha Hb Hi Hj. destruct Hps as [_ Hp]. destruct (Hp a b Ha Hb) as [_ N].
  specialize (N (li - 1) (lj - 1) ltac:(lia) ltac:(lia)).
  replace (1 + (li - 1)) with li in N by lia.
  replace (1 + (lj - 1)) with lj in N by lia.
  rewrite N. f_equal; lia.
Qed.

Lemma exchanged_2d_view (a b : nat) :
  a < fst dims -> b < snd dims ->
  exchanged_2d dims ny nx ps a b = view_2d ny nx H (rs a) (nr a) (cs b) (nc b).
Proof.
  intros Ha Hb.
  pose proof (holds_wf_2d _ _ _ _ _ Hps) as Hwf.
  destruct (exchanged_2d_spec dims ny nx ps Hpy Hpx Hwf a b Ha Hb) as [S _].
  apply (grid_ext (nr a + 2) (nc b + 2)); [exact S|apply shape_view_2d|].
  intros i j Hi Hj.
  rewrite (exchanged_2d_cells dims ny nx ps Hpy Hpx Hvy Hvx Hwf) by auto.
  destruct (halo_source_owned ny (fst dims) a i Hpy Hvy Ha Hi) as [Hsa Hia].
  destruct (halo_source_owned nx (snd dims) b j Hpx Hvx Hb Hj) as [Hsb Hjb].
  rewrite patch_cell by auto.
  unfold view_2d. rewrite cell_tabulate by auto. unfold torus.
  now rewrite !halo_torus by auto.
Qed.

Lemma exchange_all_2d_view :
  exchange_all_2d ps dims = Some (views_2d dims ny nx H).
Proof.
  rewrite (exchange_all_2d_sets dims ny nx ps Hpy Hpx (holds_wf_2d _ _ _ _ _ Hps)).
  f_equal. unfold views_2d. apply map_ext_in.
  intros r Hr. apply in_seq in Hr.
  destruct (coords_lt dims r Hpx ltac:(lia)) as [Ha Hb].
  destruct (Get_coords dims r) as [a b]. cbn [fst snd] in *.
  now apply exchanged_2d_view.
Qed.

End Exchange2DView.

(** ** The 2-D driver *)

Section Driver2D.

Variables (dims : nat * nat) (ny nx steps save_interval : nat) (G : grid).
Hypothesis Hpy : 0 < fst dims.
Hypothesis Hpx : 0 < snd dims.
Hypothesis Hvy : fst dims <= ny.
Hypothesis Hvx : snd dims <= nx.
Hypothesis HG : shape ny nx G.
Hypothesis BG : binary G.

Local Abbreviation Gk k := (global_steps ny nx k G).

Lemma loop_2d (n : nat) :
  forall k ps snapshots,
    k + n = steps ->
    holds_2d dims ny nx ps (Gk k) ->
    (0 < n -> ps = views_2d dims ny nx (Gk k)) ->
    exists ps',
      foldM (loop_body_2d dims ny nx steps save_interval) (seq k n) (ps, snapshots)
      = Some (ps', snapshots ++
                   map (fun k => (k, Gk k))
                       (filter (snapshot_due save_interval) (seq (S k) n)))
      /\ holds_2d dims ny nx ps' (Gk steps).
Proof.
  induction n as [|n IH]; intros k ps snapshots Hk Hh Hv.
  - exists ps. simpl. rewrite app_nil_r. replace steps with k by lia. auto.
  - rewrite Hv by lia. cbn [seq foldM]. unfold loop_body_2d at 1.
    pose proof (step_holds_2d dims ny nx Hpy Hpx (Gk k)
                  (binary_global_steps ny nx k G BG)) as Hstep.
    cbv zeta in Hstep. set (ps1 := map _ (views_2d dims ny nx (Gk k))) in *.
    change (global_step ny nx (Gk k)) with (Gk (S k)) in Hstep.
    assert (HS : shape ny nx (Gk (S k))) by (now apply shape_global_steps).
    assert (Hex : exists ps2,
               (if k <? steps - 1 then exchange_all_2d ps1 dims else Some ps1) = Some ps2
               /\ holds_2d dims ny nx ps2 (Gk (S k))
               /\ (0 < n -> ps2 = views_2d dims ny nx (Gk (S k)))).
    { destruct (Nat.ltb_spec k (steps - 1)).
      - exists (views_2d dims ny nx (Gk (S k))). split; [|split; auto].
        + now apply exchange_all_2d_view.
        + now apply views_hold_2d.
      - exists ps1. split; [|split]; auto. lia. }
    destruct Hex as (ps2 & E2 & Hh2 & Hv2). rewrite E2. cbn [bind].
    fold (snapshot_due save_interval (k + 1)).
    replace (k + 1) with (S k) by lia. cbn [filter].
    destruct (snapshot_due save_interval (S k)).
    + rewrite (gather_grid_2d_correct dims ny nx Hpy Hpx ps2 (Gk (S k))) by auto.
      cbn [bind].
      destruct (IH (S k) ps2 (snapshots ++ [(S k, Gk (S k))]) ltac:(lia) Hh2 Hv2)
        as (ps' & E' & Hh').
      exists ps'. split; auto. rewrite E'. f_equal. f_equal.
      rewrite <- app_assoc. reflexivity.
    + destruct (IH (S k) ps2 snapshots ltac:(lia) Hh2 Hv2) as (ps' & E' & Hh').
      exists ps'. split; auto.
Qed.

Lemma main_2d_correct :
  main_2d dims ny nx steps save_interval G
  = Some (expected_snapshots ny nx steps save_interval G, Gk steps).
Proof.
  unfold main_2d.
  destruct (scatter_grid_2d_holds dims ny nx Hpy Hpx G HG) as (ps0 & E0 & Hh0).
  rewrite E0. cbn [bind].
  rewrite (exchange_all_2d_view dims ny nx ps0 G) by auto. cbn [bind].
  pose proof (views_hold_2d dims ny nx Hpy Hpx G HG) as Hh.
  assert (Es : (if 0 <? save_interval
                then initial_grid <- gather_grid_2d (views_2d dims ny nx G) dims ny nx ;;
                     Some [(0, initial_grid)]
                else Some [])
               = Some (map (fun k => (k, Gk k))
                           (filter (snapshot_due save_interval) [0]))).
  { unfold snapshot_due. simpl filter.
    destruct (Nat.ltb_spec 0 save_interval) as [Hs|Hs]; simpl.
    - rewrite (gather_grid_2d_correct dims ny nx Hpy Hpx _ G) by auto. simpl.
      rewrite Nat.Div0.mod_0_l. reflexivity.
    - reflexivity. }
  rewrite Es. cbn [bind].
  destruct (loop_2d steps 0 (views_2d dims ny nx G)
              (map (fun k => (k, Gk k)) (filter (snapshot_due save_interval) [0]))
              ltac:(lia) Hh ltac:(reflexivity)) as (ps' & E & Hh').
  rewrite E. cbn [bind fst snd].
  rewrite (gather_grid_2d_correct dims ny nx Hpy Hpx ps' (Gk steps))
    by (auto; now apply shape_global_steps).
  cbn [bind]. unfold expected_snapshots.
  rewrite <- map_app. f_equal. f_equal. f_equal.
  change [0] with (seq 0 1). rewrite <- filter_app. reflexivity.
Qed.

End Driver2D.

(** ** The programs never stop early

    Nothing in either program looks at the configuration: whatever the
    number of ranks, every exchange finds its messages, every step keeps
    the shapes, every gather fits, and the run reaches the final grid. *)

Lemma has_shape_shape (rows cols : nat) (g : grid) :
  has_shape rows cols g = true -> shape rows cols g.
Proof.
  unfold has_shape. intros E. apply andb_prop in E as [E1 E2].
  apply Nat.eqb_eq in E1. split; auto.
  intros i Hi. rewrite forallb_forall in E2.
  apply Nat.eqb_eq, E2. unfold row. apply nth_In. lia.
Qed.

Lemma kernel_shape_1d (c nx : nat) (g : grid) :
  shape (c + 2) nx g -> shape c nx (compute_next_generation g nx).
Proof.
  intros [L _]. unfold compute_next_generation, nrows. rewrite L.
  replace (c + 2 - 1 - 1) with c by lia.
  match goal with |- context [map (fun i => map (@?f i) (seq 0 nx)) (seq 1 c)] =>
    apply (map_seq_grid 1 0 c nx f) end.
Qed.

Lemma kernel_shape_2d (r c : nat) (g : grid) :
  shape (r + 2) (c + 2) g -> shape r c (compute_next_generation_2d g).
Proof.
  intros [L C]. unfold compute_next_generation_2d, nrows, ncols.
  rewrite L, C by lia.
  replace (r + 2 - 1 - 1) with r by lia. replace (c + 2 - 1 - 1) with c by lia.
  match goal with |- context [map (fun i => map (@?f i) (seq 1 c)) (seq 1 r)] =>
    apply (map_seq_grid 1 1 r c f) end.
Qed.

Lemma shape_set_rows (rows cols k : nat) (g p : grid) :
  shape rows cols g -> shape k cols p -> 1 + k <= rows ->
  shape rows cols (set_slice 1 p g).
Proof.
  intros [L C] [Lp Cp] Hk. split.
  - rewrite length_set_slice; lia.
  - intros i Hi. unfold row. rewrite nth_set_slice by lia. rewrite Lp.
    destruct (Nat.leb_spec 1 i); destruct (Nat.ltb_spec i (1 + k)); simpl;
      try (apply C; lia). apply Cp. lia.
Qed.

Section Total1D.

Variables (size ny nx steps save_interval : nat).
Hypothesis Hsize : 0 < size.

Lemma step_wf_1d (ps : list grid) :
  wf_1d size ny nx ps ->
  wf_1d size ny nx
    (map (fun local_grid =>
            let next_gen := compute_next_generation local_grid nx in
            set_slice 1 next_gen local_grid) ps).
Proof.
  intros [L Hp]. split; [now rewrite length_map|].
  intros r Hr. unfold grid.
  rewrite (nth_indep _ [] ((fun local_grid : list (list Z) =>
            set_slice 1 (compute_next_generation local_grid nx) local_grid) []))
    by (rewrite length_map; fold grid; lia).
  rewrite (map_nth (fun local_grid : list (list Z) =>
            set_slice 1 (compute_next_generation local_grid nx) local_grid)).
  fold grid. apply (shape_set_rows _ _ (block_count ny size r)); auto; [|lia].
  apply kernel_shape_1d. auto.
Qed.

Lemma gather_grid_total (ps : list grid) :
  wf_1d size ny nx ps ->
  exists g, gather_grid ps size ny nx = Some g /\ shape ny nx g.
Proof.
  intros [Lps Hps]. unfold gather_grid. rewrite distribution_spec.
  pose (data := fun r => flatten (interior (nth r ps []))).
  change (exists g,
    (if forallb (fun r => length (data r) =?
           nth r (map (fun r => block_count ny size r * nx) (seq 0 size)) 0)
          (seq 0 size)
     then Some (reshape ny nx
            (fold_left
               (fun buf r => set_slice
                  (nth r (map (fun r => block_start ny size r * nx) (seq 0 size)) 0)
                  (data r) buf)
               (seq 0 size) (zeros (ny * nx))))
     else None) = Some g /\ shape ny nx g).
  assert (Ld : forall r, r < size -> length (data r) = block_count ny size r * nx).
  { intros r Hr. destruct (interior_spec _ _ _ (Hps r Hr)) as [Si _]. unfold data.
    now rewrite (length_flatten _ _ _ Si). }
  assert (Hcheck : forallb (fun r => length (data r) =?
              nth r (map (fun r => block_count ny size r * nx) (seq 0 size)) 0)
             (seq 0 size) = true).
  { apply forallb_forall. intros r Hr. apply in_seq in Hr.
    rewrite (nth_map_seq _ _ 0 _ _ 0) by lia. apply Nat.eqb_eq, Ld. lia. }
  rewrite Hcheck. eexists. split; [reflexivity|].
  apply reshape_spec.
  assert (G : forall n, n <= size ->
    length (fold_left
               (fun buf r => set_slice
                  (nth r (map (fun r => block_start ny size r * nx) (seq 0 size)) 0)
                  (data r) buf)
               (seq 0 n) (zeros (ny * nx))) = ny * nx).
  { induction n as [|n IH]; intros Hn.
    - simpl. apply length_zeros.
    - rewrite seq_S, fold_left_app. simpl.
      rewrite (nth_map_seq _ _ 0 _ _ 0) by lia. simpl.
      rewrite length_set_slice; rewrite IH by lia; auto.
      rewrite Ld by lia. rewrite <- Nat.mul_add_distr_r.
      apply Nat.mul_le_mono_r. apply block_end_le; lia. }
  rewrite G; lia.
Qed.

Lemma loop_total_1d (n : nat) :
  forall k ps snapshots,
    wf_1d size ny nx ps ->
    exists ps' snapshots',
      foldM (loop_body size ny nx steps save_interval) (seq k n) (ps, snapshots)
      = Some (ps', snapshots') /\ wf_1d size ny nx ps'.
Proof.
  induction n as [|n IH]; intros k ps snapshots Hwf.
  - exists ps, snapshots. auto.
  - cbn [seq foldM]. unfold loop_body at 1.
    pose proof (step_wf_1d ps Hwf) as Hwf1. cbv zeta in Hwf1.
    set (ps1 := map _ ps) in *.
    assert (Hex : exists ps2,
               (if k <? steps - 1 then exchange_all ps1 size nx else Some ps1) = Some ps2
               /\ wf_1d size ny nx ps2).
    { destruct (k <? steps - 1).
      - eexists. split; [now apply (exchange_all_rows size ny nx)|].
        now apply exchanged_wf_1d.
      - exists ps1. auto. }
    destruct Hex as (ps2 & E2 & Hwf2). rewrite E2. cbn [bind].
    destruct ((0 <? save_interval) && ((k + 1) mod save_interval =? 0)).
    + destruct (gather_grid_total ps2 Hwf2) as (g & Eg & _). rewrite Eg. cbn [bind].
      apply IH. exact Hwf2.
    + apply IH. exact Hwf2.
Qed.

Lemma main_total_1d (G : grid) :
  shape ny nx G ->
  exists snapshots final,
    main size ny nx steps save_interval G = Some (snapshots, final)
    /\ shape ny nx final.
Proof.
  intros HG. unfold main.
  pose proof (holds_wf_1d _ _ _ _ _ (scatter_grid_holds size ny nx G Hsize HG)) as Hwf0.
  rewrite (exchange_all_rows size ny nx _ Hsize Hwf0). cbn [bind].
  pose proof (exchanged_wf_1d size ny nx _ Hsize Hwf0) as Hwf1.
  set (ps1 := map _ (seq 0 size)) in *.
  assert (Hs : exists snaps,
            (if 0 <? save_interval
             then initial_grid <- gather_grid ps1 size ny nx ;; Some [(0, initial_grid)]
             else Some []) = Some snaps).
  { destruct (0 <? save_interval); [|eauto].
    destruct (gather_grid_total ps1 Hwf1) as (g & Eg & _). rewrite Eg. simpl. eauto. }
  destruct Hs as (snaps & Es). rewrite Es. cbn [bind].
  destruct (loop_total_1d steps 0 ps1 snaps Hwf1) as (ps' & snaps' & E & Hwf').
  rewrite E. cbn [bind fst snd].
  destruct (gather_grid_total ps' Hwf') as (g & Eg & Sg). rewrite Eg. cbn [bind].
  eauto.
Qed.

End Total1D.

Section Total2D.

Variables (dims : nat * nat) (ny nx steps save_interval : nat).
Hypothesis Hpy : 0 < fst dims.
Hypothesis Hpx : 0 < snd dims.

Local Abbreviation nr a := (block_count ny (fst dims) a).
Local Abbreviation nc b := (block_count nx (snd dims) b).
Local Abbreviation rs a := (block_start ny (fst dims) a).
Local Abbreviation cs b := (block_start nx (snd dims) b).

Lemma step_wf_2d (ps : list grid) :
  wf_2d dims ny nx ps ->
  wf_2d dims ny nx
    (map (fun local_grid =>
            let next_gen := compute_next_generation_2d local_grid in
            set_block local_grid 1 1 next_gen) ps).
Proof.
  intros [L Hp]. split; [now rewrite length_map|].
  intros a b Ha Hb.
  pose proof (rank_lt (fst dims) (snd dims) a b Ha Hb) as Hr.
  change (a * snd dims + b) with (Get_cart_rank dims (a, b)) in Hr.
  unfold grid.
  rewrite (nth_indep _ [] ((fun local_grid : list (list Z) =>
            set_block local_grid 1 1 (compute_next_generation_2d local_grid)) []))
    by (rewrite length_map; fold grid; lia).
  rewrite (map_nth (fun local_grid : list (list Z) =>
            set_block local_grid 1 1 (compute_next_generation_2d local_grid))).
  fold grid.
  apply (set_block_spec (nr a + 2) (nc b + 2) (nr a) (nc b)); auto; try lia.
  apply kernel_shape_2d. auto.
Qed.

Lemma gather_grid_2d_total (ps : list grid) :
  wf_2d dims ny nx ps ->
  exists g, gather_grid_2d ps dims ny nx = Some g /\ shape ny nx g.
Proof.
  intros [Lps Hps]. unfold gather_grid_2d.
  pose (patch_of := fun '(proc_row, proc_col) =>
    interior_2d (nth (Get_cart_rank dims (proc_row, proc_col)) ps [])).
  change (exists g,
          (if forallb (fun c => has_shape (nr (fst c)) (nc (snd c)) (patch_of c))
                      (proc_grid dims)
           then Some (fold_left
                        (fun global_grid c =>
                           set_block global_grid (rs (fst c)) (cs (snd c)) (patch_of c))
                        (proc_grid dims) (zeros2 ny nx))
           else None) = Some g /\ shape ny nx g).
  assert (Hpatch : forall a b, a < fst dims -> b < snd dims ->
            shape (nr a) (nc b) (patch_of (a, b))).
  { intros a b Ha Hb. now apply interior_2d_spec, Hps. }
  assert (Hcheck : forallb (fun c => has_shape (nr (fst c)) (nc (snd c)) (patch_of c))
                           (proc_grid dims) = true).
  { apply forallb_forall. intros [a b] Hin. apply in_proc_grid in Hin as [Ha Hb].
    apply has_shape_true. now apply Hpatch. }
  rewrite Hcheck. eexists. split; [reflexivity|].
  assert (G : forall l g0,
    (forall a b, In (a, b) l -> a < fst dims /\ b < snd dims) ->
    shape ny nx g0 ->
    shape ny nx (fold_left (fun global_grid c =>
                   set_block global_grid (rs (fst c)) (cs (snd c)) (patch_of c)) l g0)).
  { induction l as [|[a b] l IH]; intros g0 Hl Hg0; [exact Hg0|].
    cbn [fold_left fst snd].
    destruct (Hl a b (or_introl eq_refl)) as [Ha Hb].
    pose proof (block_end_le ny (fst dims) a Hpy Ha).
    pose proof (block_end_le nx (snd dims) b Hpx Hb).
    apply IH; [intros a' b' Hin; apply Hl; now right|].
    apply (set_block_spec ny nx (nr a) (nc b)); auto. }
  apply G; [|apply shape_zeros2].
  intros a b Hin. now apply in_proc_grid.
Qed.

Lemma loop_total_2d (n : nat) :
  forall k ps snapshots,
    wf_2d dims ny nx ps ->
    exists ps' snapshots',
      foldM (loop_body_2d dims ny nx steps save_interval) (seq k n) (ps, snapshots)
      = Some (ps', snapshots') /\ wf_2d dims ny nx ps'.
Proof.
  induction n as [|n IH]; intros k ps snapshots Hwf.
  - exists ps, snapshots. auto.
  - cbn [seq foldM]. unfold loop_body_2d at 1.
    pose proof (step_wf_2d ps Hwf) as Hwf1. cbv zeta in Hwf1.
    set (ps1 := map _ ps) in *.
    assert (Hex : exists ps2,
               (if k <? steps - 1 then exchange_all_2d ps1 dims else Some ps1) = Some ps2
               /\ wf_2d dims ny nx ps2).
    { destruct (k <? steps - 1).
      - eexists. split; [now apply (exchange_all_2d_sets dims ny nx)|].
        now apply exchanged_wf_2d.
      - exists ps1. auto. }
    destruct Hex as (ps2 & E2 & Hwf2). rewrite E2. cbn [bind].
    destruct ((0 <? save_interval) && ((k + 1) mod save_interval =? 0)).
    + destruct (gather_grid_2d_total ps2 Hwf2) as (g & Eg & _). rewrite Eg. cbn [bind].
      apply IH. exact Hwf2.
    + apply IH. exact Hwf2.
Qed.

Lemma main_total_2d (G : grid) :
  shape ny nx G ->
  exists snapshots final,
    main_2d dims ny nx steps save_interval G = Some (snapshots, final)
    /\ shape ny nx final.
Proof.
  intros HG. unfold main_2d.
  destruct (scatter_grid_2d_holds dims ny nx Hpy Hpx G HG) as (ps0 & E0 & Hh0).
  rewrite E0. cbn [bind].
  pose proof (holds_wf_2d _ _ _ _ _ Hh0) as Hwf0.
  rewrite (exchange_all_2d_sets dims ny nx _ Hpy Hpx Hwf0). cbn [bind].
  pose proof (exchanged_wf_2d dims ny nx _ Hpy Hpx Hwf0) as Hwf1.
  set (ps1 := map _ (seq 0 (fst dims * snd dims))) in *.
  assert (Hs : exists snaps,
            (if 0 <? save_interval
             then initial_grid <- gather_grid_2d ps1 dims ny nx ;;
                  Some [(0, initial_grid)]
             else Some []) = Some snaps).
  { destruct (0 <? save_interval); [|eauto].
    destruct (gather_grid_2d_total ps1 Hwf1) as (g & Eg & _). rewrite Eg. simpl. eauto. }
  destruct Hs as (snaps & Es). rewrite Es. cbn [bind].
  destruct (loop_total_2d steps 0 ps1 snaps Hwf1) as (ps' & snaps' & E & Hwf').
  rewrite E. cbn [bind fst snd].
  destruct (gather_grid_2d_total ps' Hwf') as (g & Eg & Sg). rewrite Eg. cbn [bind].
  eauto.
Qed.

End Total2D.

(** ** Translations of the torus *)

Lemma py_mod_add_l (a d : Z) (n : nat) :
  0 < n -> py_mod (Z.of_nat (py_mod a n) + d) n = py_mod (a + d) n.
Proof.
  intros Hn. unfold py_mod.
  pose proof (Z.mod_pos_bound a (Z.of_nat n) ltac:(lia)).
  rewrite Z2Nat.id by lia. now rewrite Zplus_mod_idemp_l.
Qed.

Lemma py_mod_sub_l (a d : Z) (n : nat) :
  0 < n -> py_mod (Z.of_nat (py_mod a n) - d) n = py_mod (a - d) n.
Proof.
  intros Hn. unfold py_mod.
  pose proof (Z.mod_pos_bound a (Z.of_nat n) ltac:(lia)).
  rewrite Z2Nat.id by lia. now rewrite Zminus_mod_idemp_l.
Qed.

Lemma torus_translate (ny nx : nat) (dy dx : Z) (G : grid) (y x : Z) :
  0 < ny -> 0 < nx ->
  torus ny nx (translate ny nx dy dx G) y x = torus ny nx G (y - dy) (x - dx).
Proof.
  intros Hy Hx. unfold torus at 1, translate.
  rewrite cell_tabulate by (now apply py_mod_lt).
  unfold torus. now rewrite !py_mod_sub_l.
Qed.

Lemma torus_cell (ny nx : nat) (G : grid) (y x : nat) :
  y < ny -> x < nx -> torus ny nx G (Z.of_nat y) (Z.of_nat x) = cell G y x.
Proof. intros Hy Hx. unfold torus. now rewrite !py_mod_small. Qed.

Lemma global_step_translate (ny nx : nat) (dy dx : Z) (G : grid) :
  global_step ny nx (translate ny nx dy dx G)
  = translate ny nx dy dx (global_step ny nx G).
Proof.
  apply (grid_ext ny nx); try apply shape_tabulate.
  intros y x Hy Hx.
  assert (Hny : 0 < ny) by lia. assert (Hnx : 0 < nx) by lia.
  unfold translate at 2. rewrite cell_tabulate by auto.
  unfold torus at 1. unfold global_step.
  rewrite !cell_tabulate by (auto; now apply py_mod_lt).
  f_equal.
  - rewrite <- (torus_cell ny nx) by auto. now rewrite torus_translate.
  - unfold live_neighbors. f_equal. apply map_ext. intros [dy' dx'].
    rewrite torus_translate by auto. unfold torus.
    rewrite !py_mod_add_l by auto. f_equal; f_equal; lia.
Qed.

Lemma global_steps_translate (ny nx k : nat) (dy dx : Z) (G : grid) :
  global_steps ny nx k (translate ny nx dy dx G)
  = translate ny nx dy dx (global_steps ny nx k G).
Proof.
  induction k as [|k IH]; [reflexivity|].
  change (global_step ny nx (global_steps ny nx k (translate ny nx dy dx G))
          = translate ny nx dy dx (global_step ny nx (global_steps ny nx k G))).
  rewrite IH. apply global_step_translate.
Qed.

Lemma binary_translate (ny nx : nat) (dy dx : Z) (G : grid) :
  binary G -> binary (translate ny nx dy dx G).
Proof. intros B. apply binary_tabulate. intros. apply B. Qed.

(** ** Still life and oscillator *)

Lemma py_mod_sub_0 (y n : nat) :
  y < n -> py_mod (Z.of_nat y - Z.of_nat 0) n = y.
Proof.
  intros H. replace (Z.of_nat y - Z.of_nat 0)%Z with (Z.of_nat y) by lia.
  now apply py_mod_small.
Qed.

Lemma block_grid_translate (ny nx y0 x0 : nat) :
  block_grid ny nx y0 x0
  = translate ny nx (Z.of_nat y0) (Z.of_nat x0) (block_grid ny nx 0 0).
Proof.
  apply (grid_ext ny nx); try apply shape_tabulate.
  intros y x Hy Hx. unfold translate, block_grid, torus.
  rewrite !cell_tabulate by (auto; apply py_mod_lt; lia).
  rewrite !py_mod_sub_0 by (apply py_mod_lt; lia). reflexivity.
Qed.

Lemma blinker_grid_translate (ny nx y0 x0 : nat) :
  blinker_grid ny nx y0 x0
  = translate ny nx (Z.of_nat y0) (Z.of_nat x0) (blinker_grid ny nx 0 0).
Proof.
  apply (grid_ext ny nx); try apply shape_tabulate.
  intros y x Hy Hx. unfold translate, blinker_grid, torus.
  rewrite !cell_tabulate by (auto; apply py_mod_lt; lia).
  rewrite !py_mod_sub_0 by (apply py_mod_lt; lia). reflexivity.
Qed.

Lemma live_neighbors_unfold (ny nx : nat) (G : grid) (y x : nat) :
  y < ny -> x < nx ->
  live_neighbors ny nx G y x =
  let ym := if y =? 0 then ny - 1 else y - 1 in
  let yp := if y + 1 =? ny then 0 else y + 1 in
  let xm := if x =? 0 then nx - 1 else x - 1 in
  let xp := if x + 1 =? nx then 0 else x + 1 in
  (cell G ym xm + (cell G ym x + (cell G ym xp +
   (cell G y xm + (cell G y xp +
   (cell G yp xm + (cell G yp x + (cell G yp xp + 0))))))))%Z.
Proof.
  intros Hy Hx. unfold live_neighbors, moore. cbn [map sumZ fold_right].
  unfold torus.
  replace (Z.of_nat y + -1)%Z with (Z.of_nat y - 1)%Z by lia.
  replace (Z.of_nat x + -1)%Z with (Z.of_nat x - 1)%Z by lia.
  replace (Z.of_nat y + 0)%Z with (Z.of_nat y) by lia.
  replace (Z.of_nat x + 0)%Z with (Z.of_nat x) by lia.
  rewrite !py_mod_pred, !py_mod_succ, !py_mod_small by auto.
  reflexivity.
Qed.

Ltac crunch_nat_bools :=
  repeat (decide_nat_bools;
          match goal with
          | |- context [Nat.ltb ?a ?b] => destruct (Nat.ltb_spec a b)
          | |- context [Nat.leb ?a ?b] => destruct (Nat.leb_spec a b)
          | |- context [Nat.eqb ?a ?b] => destruct (Nat.eqb_spec a b)
          end);
  decide_nat_bools; try reflexivity; try lia.

Lemma global_step_pointwise (ny nx : nat) (f g : nat -> nat -> Z) :
  (forall y x, y < ny -> x < nx ->
     let ym := if y =? 0 then ny - 1 else y - 1 in
     let yp := if y + 1 =? ny then 0 else y + 1 in
     let xm := if x =? 0 then nx - 1 else x - 1 in
     let xp := if x + 1 =? nx then 0 else x + 1 in
     rule_B3S23 (f y x)
       (f ym xm + (f ym x + (f ym xp + (f y xm + (f y xp +
        (f yp xm + (f yp x + (f yp xp + 0))))))))%Z = g y x) ->
  global_step ny nx (tabulate ny nx f) = tabulate ny nx g.
Proof.
  intros Hfg. apply (grid_ext ny nx); try apply shape_tabulate.
  intros y x Hy Hx. unfold global_step. rewrite !cell_tabulate by auto.
  rewrite live_neighbors_unfold by auto. cbv zeta.
  assert (Hym : (if y =? 0 then ny - 1 else y - 1) < ny) by nat_cases.
  assert (Hyp : (if y + 1 =? ny then 0 else y + 1) < ny) by nat_cases.
  assert (Hxm : (if x =? 0 then nx - 1 else x - 1) < nx) by nat_cases.
  assert (Hxp : (if x + 1 =? nx then 0 else x + 1) < nx) by nat_cases.
  rewrite !cell_tabulate by auto. now apply Hfg.
Qed.

Lemma block_canonical (ny nx : nat) :
  block_grid ny nx 0 0
  = tabulate ny nx (fun y x => if (y <? 2) && (x <? 2) then 1%Z else 0%Z).
Proof.
  apply (grid_ext ny nx); try apply shape_tabulate.
  intros y x Hy Hx. unfold block_grid. rewrite !cell_tabulate by auto.
  now rewrite !py_mod_sub_0.
Qed.

Lemma blinker_canonical (ny nx : nat) :
  blinker_grid ny nx 0 0
  = tabulate ny nx (fun y x => if (y =? 0) && (x <? 3) then 1%Z else 0%Z).
Proof.
  apply (grid_ext ny nx); try apply shape_tabulate.
  intros y x Hy Hx. unfold blinker_grid. rewrite !cell_tabulate by auto.
  now rewrite !py_mod_sub_0.
Qed.

Lemma blinker_vertical_canonical (ny nx : nat) :
  blinker_grid_vertical ny nx 0 0
  = tabulate ny nx (fun y x =>
      if ((if y + 1 =? ny then 0 else y + 1) <? 3) && (x =? 1) then 1%Z else 0%Z).
Proof.
  apply (grid_ext ny nx); try apply shape_tabulate.
  intros y x Hy Hx. unfold blinker_grid_vertical. rewrite !cell_tabulate by auto.
  replace (Z.of_nat y - Z.of_nat 0 + 1)%Z with (Z.of_nat y + 1)%Z by lia.
  now rewrite py_mod_succ, py_mod_sub_0.
Qed.

Lemma block_still_canonical (ny nx : nat) :
  3 <= ny -> 3 <= nx ->
  global_step ny nx (block_grid ny nx 0 0) = block_grid ny nx 0 0.
Proof.
  intros Hny Hnx. rewrite block_canonical.
  apply global_step_pointwise. intros y x Hy Hx. cbv zeta.
  destruct (Nat.eqb_spec y 0); destruct (Nat.eqb_spec (y + 1) ny);
    destruct (Nat.eqb_spec x 0); destruct (Nat.eqb_spec (x + 1) nx);
    crunch_nat_bools.
Qed.

Lemma blinker_flip_canonical (ny nx : nat) :
  4 <= ny -> 4 <= nx ->
  global_step ny nx (blinker_grid ny nx 0 0) = blinker_grid_vertical ny nx 0 0.
Proof.
  intros Hny Hnx. rewrite blinker_canonical, blinker_vertical_canonical.
  apply global_step_pointwise. intros y x Hy Hx. cbv zeta.
  destruct (Nat.eqb_spec y 0); destruct (Nat.eqb_spec (y + 1) ny);
    destruct (Nat.eqb_spec x 0); destruct (Nat.eqb_spec (x + 1) nx);
    crunch_nat_bools.
Qed.

Lemma blinker_flop_canonical (ny nx : nat) :
  4 <= ny -> 4 <= nx ->
  global_step ny nx (blinker_grid_vertical ny nx 0 0) = blinker_grid ny nx 0 0.
Proof.
  intros Hny Hnx. rewrite blinker_canonical, blinker_vertical_canonical.
  apply global_step_pointwise. intros y x Hy Hx. cbv zeta.
  destruct (Nat.eqb_spec y 0); destruct (Nat.eqb_spec (y + 1) ny);
    destruct (Nat.eqb_spec x 0); destruct (Nat.eqb_spec (x + 1) nx);
    crunch_nat_bools.
Qed.

(** ** What the kernels read *)

Lemma flatten_kernel_reads (g : grid) (nx : nat) :
  flatten (compute_next_generation g nx) = map (eval_reads g) (kernel_reads g nx).
Proof.
  unfold flatten, compute_next_generation, kernel_reads.
  rewrite flat_map_concat_map, concat_map, map_map. f_equal.
  apply map_ext. intros i. now rewrite map_map.
Qed.

Lemma flatten_kernel_reads_2d (g : grid) :
  flatten (compute_next_generation_2d g) = map (eval_reads g) (kernel_reads_2d g).
Proof.
  unfold flatten, compute_next_generation_2d, kernel_reads_2d.
  rewrite flat_map_concat_map, concat_map, map_map. f_equal.
  apply map_ext. intros i. now rewrite map_map.
Qed.

Lemma neighbor_indices_2d_list (i j : nat) :
  1 <= i -> 1 <= j ->
  neighbor_indices_2d i j =
  [ (i - 1, j - 1); (i - 1, j); (i - 1, j + 1);
    (i, j - 1); (i, j + 1);
    (i + 1, j - 1); (i + 1, j); (i + 1, j + 1) ].
Proof.
  intros Hi Hj. unfold neighbor_indices_2d. rewrite offsets_moore. unfold moore.
  cbn [map]. repeat (f_equal; try lia).
Qed.

Lemma neighbor_indices_list (nx i j : nat) :
  1 <= i -> j < nx ->
  neighbor_indices nx i j =
  [ (i - 1, (j + nx - 1) mod nx); (i - 1, j); (i - 1, (j + 1) mod nx);
    (i, (j + nx - 1) mod nx); (i, (j + 1) mod nx);
    (i + 1, (j + nx - 1) mod nx); (i + 1, j); (i + 1, (j + 1) mod nx) ].
Proof.
  intros Hi Hj. unfold neighbor_indices. rewrite offsets_moore. unfold moore.
  cbn [map].
  replace (Z.of_nat j + -1)%Z with (Z.of_nat j - 1)%Z by lia.
  replace (Z.of_nat j + 0)%Z with (Z.of_nat j) by lia.
  rewrite py_mod_pred, py_mod_succ, py_mod_small, nat_mod_succ by auto.
  assert (E : (j + nx - 1) mod nx = if j =? 0 then nx - 1 else j - 1).
  { destruct (Nat.eqb_spec j 0) as [->|].
    - apply Nat.mod_small. lia.
    - replace (j + nx - 1) with (j - 1 + 1 * nx) by lia.
      rewrite Nat.Div0.mod_add. apply Nat.mod_small. lia. }
  rewrite E. repeat (f_equal; try lia).
Qed.

Lemma reads_2d_halo_only (g : grid) :
  reads_halo_only (nrows g - 2) (ncols g - 2) (kernel_reads_2d g) = true.
Proof.
  unfold reads_halo_only, kernel_reads_2d. apply forallb_forall.
  intros [[i j] idx] Hin. apply in_flat_map in Hin as (i' & Hi & Hin).
  apply in_map_iff in Hin as (j' & E & Hj). inversion E; subst i' j' idx.
  apply in_seq in Hi, Hj. cbn [fst snd].
  rewrite neighbor_indices_2d_list by lia. unfold adjacent. cbn [forallb length fst snd].
  decide_nat_bools. reflexivity.
Qed.

Lemma reads_1d_wrap_columns (g : grid) (nx : nat) :
  reads_wrap_columns (nrows g - 2) nx (kernel_reads g nx) = true.
Proof.
  unfold reads_wrap_columns, kernel_reads. apply forallb_forall.
  intros [[i j] idx] Hin. apply in_flat_map in Hin as (i' & Hi & Hin).
  apply in_map_iff in Hin as (j' & E & Hj). inversion E; subst i' j' idx.
  apply in_seq in Hi, Hj. cbn [fst snd].
  rewrite neighbor_indices_list by lia. cbn [forallb length fst snd].
  rewrite !Nat.eqb_refl, !orb_true_r. cbn [orb].
  decide_nat_bools. reflexivity.
Qed.

(** ** Computable checks *)

Lemma binaryb_binary (g : grid) : binaryb g = true -> binary g.
Proof.
  unfold binaryb. intros E i j. rewrite forallb_forall in E.
  destruct (Nat.lt_ge_cases i (length g)) as [Hi|Hi];
    [|left; now apply cell_overflow_row].
  destruct (Nat.lt_ge_cases j (length (row g i))) as [Hj|Hj];
    [|left; now apply cell_overflow_col].
  assert (Hr : In (row g i) g) by (now apply nth_In).
  specialize (E _ Hr). rewrite forallb_forall in E.
  assert (Hc : In (cell g i j) (row g i)) by (now apply nth_In).
  specialize (E _ Hc). apply orb_prop in E as [E|E]; apply Z.eqb_eq in E; auto.
Qed.

Lemma well_formed_wf (size ny nx : nat) (ps : list grid) :
  well_formed size ny nx ps = true -> wf_1d size ny nx ps.
Proof.
  unfold well_formed. intros E. apply andb_prop in E as [E1 E2].
  apply Nat.eqb_eq in E1. split; auto.
  intros r Hr. rewrite forallb_forall in E2.
  apply has_shape_shape, E2, in_seq. lia.
Qed.

Lemma wf_well_formed (size ny nx : nat) (ps : list grid) :
  wf_1d size ny nx ps -> well_formed size ny nx ps = true.
Proof.
  intros [L Hp]. unfold well_formed. apply andb_true_intro. split.
  - now apply Nat.eqb_eq.
  - apply forallb_forall. intros r Hr. apply in_seq in Hr.
    apply has_shape_true, Hp. lia.
Qed.

Lemma well_formed_2d_wf (dims : nat * nat) (ny nx : nat) (ps : list grid) :
  well_formed_2d dims ny nx ps = true -> wf_2d dims ny nx ps.
Proof.
  unfold well_formed_2d. intros E. apply andb_prop in E as [E1 E2].
  apply Nat.eqb_eq in E1. split; auto.
  intros a b Ha Hb. rewrite forallb_forall in E2.
  apply has_shape_shape. apply (E2 (a, b)). now apply in_proc_grid.
Qed.

Lemma wf_well_formed_2d (dims : nat * nat) (ny nx : nat) (ps : list grid) :
  wf_2d dims ny nx ps -> well_formed_2d dims ny nx ps = true.
Proof.
  intros [L Hp]. unfold well_formed_2d. apply andb_true_intro. split.
  - now apply Nat.eqb_eq.
  - apply forallb_forall. intros [a b] Hin. apply in_proc_grid in Hin as [Ha Hb].
    apply has_shape_true. now apply Hp.
Qed.

Lemma binaryb_app (g1 g2 : grid) :
  binaryb (g1 ++ g2) = binaryb g1 && binaryb g2.
Proof. apply forallb_app. Qed.

Lemma binaryb_firstn (n : nat) (g : grid) :
  binaryb g = true -> binaryb (firstn n g) = true.
Proof.
  intros E. rewrite <- (firstn_skipn n g), binaryb_app in E.
  now apply andb_prop in E.
Qed.

Lemma binaryb_skipn (n : nat) (g : grid) :
  binaryb g = true -> binaryb (skipn n g) = true.
Proof.
  intros E. rewrite <- (firstn_skipn n g), binaryb_app in E.
  now apply andb_prop in E.
Qed.

Lemma binaryb_kernel_1d (g : grid) (nx : nat) :
  binaryb (compute_next_generation g nx) = true.
Proof.
  unfold binaryb, compute_next_generation. apply forallb_forall.
  intros rw Hin. apply in_map_iff in Hin as (i & <- & _).
  apply forallb_forall. intros v Hv. apply in_map_iff in Hv as (j & <- & _).
  destruct (update_cell_binary (cell g i j)
              (neighbors_sum g (neighbor_indices nx i j))) as [-> | ->]; reflexivity.
Qed.

Lemma binaryb_kernel_2d (g : grid) :
  binaryb (compute_next_generation_2d g) = true.
Proof.
  unfold binaryb, compute_next_generation_2d. apply forallb_forall.
  intros rw Hin. apply in_map_iff in Hin as (i & <- & _).
  apply forallb_forall. intros v Hv. apply in_map_iff in Hv as (j & <- & _).
  destruct (update_cell_binary (cell g i j)
              (neighbors_sum g (neighbor_indices_2d i j))) as [-> | ->]; reflexivity.
Qed.

Lemma binaryb_set_rows (g p : grid) :
  binaryb g = true -> binaryb p = true -> binaryb (set_slice 1 p g) = true.
Proof.
  intros Eg Ep. unfold set_slice. rewrite !binaryb_app.
  rewrite binaryb_firstn, Ep, binaryb_skipn; auto.
Qed.

Lemma binaryb_row (g : grid) (i : nat) :
  binaryb g = true -> forallb (fun v => (v =? 0)%Z || (v =? 1)%Z) (row g i) = true.
Proof.
  intros E. unfold binaryb in E. rewrite forallb_forall in E.
  destruct (Nat.lt_ge_cases i (length g)) as [Hi|Hi].
  - apply E. now apply nth_In.
  - now rewrite row_overflow.
Qed.

Lemma binaryb_set_nth (g : grid) (k : nat) (rw : list Z) :
  binaryb g = true -> forallb (fun v => (v =? 0)%Z || (v =? 1)%Z) rw = true ->
  binaryb (set_nth k rw g) = true.
Proof.
  unfold binaryb. revert k. induction g as [|h t IH]; intros k Eg Er;
    [now destruct k|].
  simpl in Eg. apply andb_prop in Eg as [Eh Et].
  destruct k as [|k]; simpl.
  - now rewrite Er, Et.
  - now rewrite Eh, IH.
Qed.

Lemma binaryb_set_block (g p : grid) (r0 c0 : nat) :
  binaryb g = true -> binaryb p = true -> binaryb (set_block g r0 c0 p) = true.
Proof.
  intros Eg Ep. unfold set_block.
  assert (G : forall l g0, binaryb g0 = true ->
    binaryb (fold_left (fun g' k => set_row_slice g' (r0 + k) c0 (row p k)) l g0) = true).
  { induction l as [|k l IH]; intros g0 E0; [exact E0|].
    simpl. apply IH. unfold set_row_slice. apply binaryb_set_nth; auto.
    unfold set_slice. rewrite !forallb_app.
    pose proof (binaryb_row g0 (r0 + k) E0) as Er.
    pose proof (binaryb_row p k Ep) as Erp.
    rewrite <- (firstn_skipn c0 (row g0 (r0 + k))), forallb_app in Er.
    apply andb_prop in Er as [Er1 _]. rewrite Er1, Erp. simpl.
    pose proof (binaryb_row g0 (r0 + k) E0) as Er.
    rewrite <- (firstn_skipn (c0 + length (row p k)) (row g0 (r0 + k))), forallb_app in Er.
    now apply andb_prop in Er as [_ Er2]. }
  now apply G.
Qed.

Lemma empty_strip (n p r : nat) : n <= r -> r < p -> block_count n p r = 0.
Proof.
  intros Hn Hr. unfold block_count.
  rewrite Nat.mod_small, Nat.div_small by lia.
  destruct (Nat.ltb_spec r n); lia.
Qed.

Lemma binary_block_grid (ny nx y0 x0 : nat) : binary (block_grid ny nx y0 x0).
Proof.
  apply binary_tabulate. intros. destruct (_ && _)%bool; auto.
Qed.

Lemma binary_blinker_grid (ny nx y0 x0 : nat) : binary (blinker_grid ny nx y0 x0).
Proof.
  apply binary_tabulate. intros. destruct (_ && _)%bool; auto.
Qed.

Lemma block_still (ny nx y0 x0 : nat) :
  3 <= ny -> 3 <= nx ->
  global_steps ny nx 1 (block_grid ny nx y0 x0) = block_grid ny nx y0 x0.
Proof.
  intros Hy Hx. rewrite block_grid_translate, global_steps_translate. f_equal.
  now apply block_still_canonical.
Qed.

Lemma blinker_period_2 (ny nx y0 x0 : nat) :
  4 <= ny -> 4 <= nx ->
  global_steps ny nx 2 (blinker_grid ny nx y0 x0) = blinker_grid ny nx y0 x0.
Proof.
  intros Hy Hx. rewrite blinker_grid_translate, global_steps_translate. f_equal.
  change (global_step ny nx (global_step ny nx (blinker_grid ny nx 0 0))
          = blinker_grid ny nx 0 0).
  rewrite blinker_flip_canonical by auto. now apply blinker_flop_canonical.
Qed.

Lemma expected_snapshots_none (ny nx steps : nat) (G : grid) :
  expected_snapshots ny nx steps 0 G = [].
Proof.
  unfold expected_snapshots.
  replace (filter (snapshot_due 0) (seq 0 (S steps))) with (@nil nat); [reflexivity|].
  symmetry. generalize (seq 0 (S steps)). induction l as [|a l IH]; auto.
Qed.

(** ** Halo consistency *)

Lemma halo_interior (n p k i : nat) :
  1 <= i <= block_count n p k ->
  halo_strip p k (block_count n p k) i = k /\ halo_index n p k i = i.
Proof.
  intros Hi. unfold halo_strip, halo_index.
  destruct (Nat.eqb_spec i 0); [lia|].
  destruct (Nat.eqb_spec i (block_count n p k + 1)); [lia|]. auto.
Qed.

Lemma halo_consistency_1d (size ny nx : nat) (ps : list grid) :
  0 < size -> size <= ny -> wf_1d size ny nx ps ->
  let ps' := map (exchanged_1d size ny ps) (seq 0 size) in
  exchange_all ps size nx = Some ps' /\ wf_1d size ny nx ps' /\
  same_owned size ny nx ps ps' /\
  forall r, r < size -> halo_consistent size ny nx ps' r.
Proof.
  intros Hsize Hvalid Hwf ps'.
  assert (Hnth : forall r, r < size -> nth r ps' [] = exchanged_1d size ny ps r).
  { intros r Hr. unfold ps', grid. now rewrite (nth_map_seq _ _ 0 _ _ [] Hr). }
  assert (Hown : same_owned size ny nx ps ps').
  { intros r i j Hr Hi Hj. rewrite Hnth by auto.
    destruct (exchanged_1d_spec size ny nx ps Hsize Hwf r Hr) as [_ N].
    rewrite N. decide_nat_bools. reflexivity. }
  split; [now apply (exchange_all_rows size ny nx)|].
  split; [now apply exchanged_wf_1d|]. split; [exact Hown|].
  intros r Hr j Hj.
  destruct (ring_pred ny size r Hsize Hvalid Hr) as (Ht & _ & Hct & _).
  destruct (ring_succ ny size r Hsize Hvalid Hr) as (Hb & _ & Hcb & _).
  rewrite <- bottom_neighbor_py in Hb, Hcb by auto.
  fold (top_neighbor r size) in Ht, Hct.
  rewrite (Hown (top_neighbor r size)) by (auto; lia).
  rewrite (Hown (bottom_neighbor r size)) by (auto; lia).
  rewrite Hnth by auto.
  destruct (exchanged_1d_spec size ny nx ps Hsize Hwf r Hr) as [_ N].
  rewrite !N. decide_nat_bools. auto.
Qed.

Lemma halo_consistency_2d (dims : nat * nat) (ny nx : nat) (ps : list grid) :
  0 < fst dims -> 0 < snd dims -> fst dims <= ny -> snd dims <= nx ->
  wf_2d dims ny nx ps ->
  let ps' := map (fun r => exchanged_2d dims ny nx ps
                             (fst (Get_coords dims r)) (snd (Get_coords dims r)))
                 (seq 0 (fst dims * snd dims)) in
  exchange_all_2d ps dims = Some ps' /\ wf_2d dims ny nx ps' /\
  same_owned_2d dims ny nx ps ps' /\
  forall a b, a < fst dims -> b < snd dims -> halo_consistent_2d dims ny nx ps' a b.
Proof.
  intros Hpy Hpx Hvy Hvx Hwf ps'.
  assert (Hnth : forall a b, a < fst dims -> b < snd dims ->
            nth (Get_cart_rank dims (a, b)) ps' [] = exchanged_2d dims ny nx ps a b).
  { intros a b Ha Hb.
    pose proof (rank_lt (fst dims) (snd dims) a b Ha Hb) as Hr.
    change (a * snd dims + b) with (Get_cart_rank dims (a, b)) in Hr.
    unfold ps', grid. rewrite (nth_map_seq _ _ 0 _ _ [] Hr).
    cbn [Nat.add]. now rewrite (coords_rank dims a b Hb). }
  assert (Hcell : forall a b i j, a < fst dims -> b < snd dims ->
            i < block_count ny (fst dims) a + 2 -> j < block_count nx (snd dims) b + 2 ->
            cell (nth (Get_cart_rank dims (a, b)) ps' []) i j
            = cell (nth (Get_cart_rank dims
                          (halo_strip (fst dims) a (block_count ny (fst dims) a) i,
                           halo_strip (snd dims) b (block_count nx (snd dims) b) j))
                        ps [])
                   (halo_index ny (fst dims) a i) (halo_index nx (snd dims) b j)).
  { intros a b i j Ha Hb Hi Hj. rewrite Hnth by auto.
    now apply exchanged_2d_cells. }
  assert (Hown : same_owned_2d dims ny nx ps ps').
  { intros a b i j Ha Hb Hi Hj. rewrite Hcell by (auto; lia).
    destruct (halo_interior ny (fst dims) a i Hi) as [-> ->].
    destruct (halo_interior nx (snd dims) b j Hj) as [-> ->]. reflexivity. }
  assert (Hsrc : forall a b i j, a < fst dims -> b < snd dims ->
            i < block_count ny (fst dims) a + 2 -> j < block_count nx (snd dims) b + 2 ->
            cell (nth (Get_cart_rank dims (a, b)) ps' []) i j
            = cell (nth (Get_cart_rank dims
                          (halo_strip (fst dims) a (block_count ny (fst dims) a) i,
                           halo_strip (snd dims) b (block_count nx (snd dims) b) j))
                        ps' [])
                   (halo_index ny (fst dims) a i) (halo_index nx (snd dims) b j)).
  { intros a b i j Ha Hb Hi Hj. rewrite Hcell by auto.
    destruct (halo_source_owned ny (fst dims) a i Hpy Hvy Ha Hi) as [Hsa Hia].
    destruct (halo_source_owned nx (snd dims) b j Hpx Hvx Hb Hj) as [Hsb Hjb].
    now rewrite Hown. }
  split; [now apply (exchange_all_2d_sets dims ny nx)|].
  split; [now apply exchanged_wf_2d|]. split; [exact Hown|].
  intros a b Ha Hb. unfold halo_consistent_2d, neighbors_2d, Shift.
  cbn [fst snd north south east west nw ne sw se].
  destruct (ring_topology (fst dims) a Hpy Ha) as (Hu & Hd & _ & _).
  destruct (ring_topology (snd dims) b Hpx Hb) as (Hl & Hr & _ & _).
  pose proof (block_count_pos ny (fst dims) a Hpy Hvy) as Pa.
  pose proof (block_count_pos nx (snd dims) b Hpx Hvx) as Pb.
  rewrite !coords_rank by auto. cbn [fst snd].
  repeat split; intros;
    rewrite Hsrc by lia; unfold halo_strip, halo_index;
    decide_nat_bools; reflexivity.
Qed.

(** ** The model at work *)

Example distribution_5_rows_3_ranks :
  distribution 5 4 3 = ([8; 8; 4], [0; 8; 16]).
Proof. reflexivity. Qed.

Example main_soup_3_strips :
  main 3 5 6 3 0 example_soup
  = Some ([], [[1; 0; 1; 1; 1; 1]; [1; 0; 0; 0; 0; 0]; [1; 0; 1; 1; 0; 1];
               [0; 0; 0; 1; 1; 0]; [1; 1; 0; 1; 0; 1]]%Z).
Proof. vm_compute. reflexivity. Qed.

Example main_2d_soup_2_by_3 :
  main_2d (2, 3) 5 6 3 0 example_soup
  = Some ([], [[1; 0; 1; 1; 1; 1]; [1; 0; 0; 0; 0; 0]; [1; 0; 1; 1; 0; 1];
               [0; 0; 0; 1; 1; 0]; [1; 1; 0; 1; 0; 1]]%Z).
Proof. vm_compute. reflexivity. Qed.

Example main_blinker_snapshots :
  main 2 4 4 2 1 example_blinker
  = Some ([(0, example_blinker);
           (1, [[0; 1; 0; 0]; [0; 1; 0; 0]; [0; 1; 0; 0]; [0; 0; 0; 0]]%Z);
           (2, example_blinker)],
          example_blinker).
Proof. vm_compute. reflexivity. Qed.

Example block_across_the_seam :
  block_grid 4 4 3 3
  = [[1; 0; 0; 1]; [0; 0; 0; 0]; [0; 0; 0; 0]; [1; 0; 0; 1]]%Z.
Proof. vm_compute. reflexivity. Qed.

Example int8_wraps : int8 127 = 127%Z /\ int8 128 = (-128)%Z.
Proof. split; reflexivity. Qed.

(* ================================================================== *)
(** * The claims *)
(* ================================================================== *)



(** C2.  The cell rule: for a current value [v] in {0, 1} and a neighbour
    sum [n] in 0..8, [update_cell] returns 1 exactly when [v = 1] and [n]
    is 2 or 3, or [v = 0] and [n = 3]; otherwise it returns 0. *)
Theorem C2_update_cell_is_B3S23 :
  forall v n : Z,
    v = 0%Z \/ v = 1%Z -> (0 <= n <= 8)%Z ->
    (update_cell v n = 1%Z <->
       (v = 1%Z /\ (n = 2%Z \/ n = 3%Z)) \/ (v = 0%Z /\ n = 3%Z))
    /\ (update_cell v n <> 1%Z -> update_cell v n = 0%Z).
Proof.
  intros v n Hv Hn. unfold update_cell.
  destruct Hv as [-> | ->]; simpl;
    destruct (Z.eqb_spec n 2); destruct (Z.eqb_spec n 3); simpl;
    (split; [split; [intros E; try discriminate E; lia | intros; try reflexivity; lia]
            | intros E; auto; try (exfalso; apply E; reflexivity)]).
Qed.

Lemma C2_witness :
  (update_cell 1 2 = 1%Z <->
     (1 = 1 /\ (2 = 2 \/ 2 = 3))%Z \/ (1 = 0 /\ 2 = 3)%Z)
  /\ (update_cell 1 2 <> 1%Z -> update_cell 1 2 = 0%Z).
Proof.
  apply (C2_update_cell_is_B3S23 1 2); [right; reflexivity | lia].
Defined.

(** C3.  Halo consistency after the exchange.  On every valid layout
    (non-empty strips or patches) and for any local grids of the right
    shapes, the exchange completes on all ranks, leaves every owned cell
    as it was, and afterwards every halo cell of every rank equals the
    owned cell it stands for in the neighbour the periodic topology names
    on that side: two halo rows in 1-D, the eight halo regions in 2-D.
    With a single process every neighbour is the process itself, so the
    same statement describes self-copies. *)
Theorem C3_halo_consistency_after_exchange :
  (forall (size ny nx : nat) (ps : list grid),
     0 < size -> size <= ny -> well_formed size ny nx ps = true ->
     exists ps',
       exchange_all ps size nx = Some ps' /\
       well_formed size ny nx ps' = true /\
       same_owned size ny nx ps ps' /\
       forall r, r < size -> halo_consistent size ny nx ps' r)
  /\
  (forall (dims : nat * nat) (ny nx : nat) (ps : list grid),
     0 < fst dims -> 0 < snd dims -> fst dims <= ny -> snd dims <= nx ->
     well_formed_2d dims ny nx ps = true ->
     exists ps',
       exchange_all_2d ps dims = Some ps' /\
       well_formed_2d dims ny nx ps' = true /\
       same_owned_2d dims ny nx ps ps' /\
       forall a b, a < fst dims -> b < snd dims ->
                   halo_consistent_2d dims ny nx ps' a b)
  /\
  (top_neighbor 0 1 = 0 /\ bottom_neighbor 0 1 = 0 /\
   neighbors_2d (0, 0) (1, 1) = Nbrs 0 0 0 0 0 0 0 0).
Proof.
  split; [|split].
  - intros size ny nx ps Hsize Hvalid Hwf. apply well_formed_wf in Hwf.
    destruct (halo_consistency_1d size ny nx ps Hsize Hvalid Hwf)
      as (E & Hwf' & Hown & Hhalo).
    eexists. split; [exact E|]. split; [now apply wf_well_formed|]. auto.
  - intros dims ny nx ps Hpy Hpx Hvy Hvx Hwf. apply well_formed_2d_wf in Hwf.
    destruct (halo_consistency_2d dims ny nx ps Hpy Hpx Hvy Hvx Hwf)
      as (E & Hwf' & Hown & Hhalo).
    eexists. split; [exact E|]. split; [now apply wf_well_formed_2d|]. auto.
  - repeat split.
Qed.

Lemma C3_witness :
  (exists ps',
     exchange_all (scatter_grid example_soup 3 5 6) 3 6 = Some ps' /\
     well_formed 3 5 6 ps' = true /\
     same_owned 3 5 6 (scatter_grid example_soup 3 5 6) ps' /\
     forall r, r < 3 -> halo_consistent 3 5 6 ps' r)
  /\
  (exists ps',
     exchange_all_2d [zeros2 7 8] (1, 1) = Some ps' /\
     well_formed_2d (1, 1) 5 6 ps' = true /\
     same_owned_2d (1, 1) 5 6 [zeros2 7 8] ps' /\
     forall a b, a < 1 -> b < 1 -> halo_consistent_2d (1, 1) 5 6 ps' a b).
Proof.
  destruct C3_halo_consistency_after_exchange as (H1 & H2 & _). split.
  - apply H1; [lia | lia | reflexivity].
  - apply H2; simpl; try lia. reflexivity.
Defined.



(** C5 (as amended).  The kernels evaluate the local array only at the
    positions listed by [kernel_reads] / [kernel_reads_2d], and combine
    them with [update_cell].  The 2-D kernel updates the cells [(i, j)],
    [1 <= i <= rows], [1 <= j <= cols], of the halo-padded patch and reads
    for each its eight adjacent cells, with no wrap-around of its own.
    The 1-D kernel updates the cells [(i, j)], [1 <= i <= rows],
    [0 <= j < nx], of the strip (which has halo rows but no halo columns)
    and reads rows [i - 1 .. i + 1] as they are and columns
    [(j - 1) mod nx], [j], [(j + 1) mod nx]: it wraps the columns itself. *)
Theorem C5_kernel_reads :
  (forall g : grid,
     flatten (compute_next_generation_2d g)
     = map (eval_reads g) (kernel_reads_2d g) /\
     reads_halo_only (nrows g - 2) (ncols g - 2) (kernel_reads_2d g) = true)
  /\
  (forall (g : grid) (nx : nat),
     flatten (compute_next_generation g nx)
     = map (eval_reads g) (kernel_reads g nx) /\
     reads_wrap_columns (nrows g - 2) nx (kernel_reads g nx) = true).
Proof.
  split.
  - intros g. split; [apply flatten_kernel_reads_2d|apply reads_2d_halo_only].
  - intros g nx. split; [apply flatten_kernel_reads|apply reads_1d_wrap_columns].
Qed.

(** C5, as stated, fails for the 1-D kernel: on a strip with one owned
    row and four columns it updates the cell [(1, 0)], whose column is not
    in [[1, cols]], and reads [(1, 3)] for it, which is not adjacent to
    [(1, 0)] but its neighbour round the seam. *)
Lemma C5_counterexample :
  In ((1, 0), [(0, 3); (0, 0); (0, 1); (1, 3); (1, 1); (2, 3); (2, 0); (2, 1)])
     (kernel_reads (zeros2 3 4) 4)
  /\ adjacent (1, 0) (1, 3) = false
  /\ reads_halo_only 1 4 (kernel_reads (zeros2 3 4) 4) = false.
Proof.
  split; [left; reflexivity|]. split; reflexivity.
Qed.











(** C10.  Cells stay in {0, 1}: [update_cell] returns 0 or 1 whatever its
    arguments, so every cell a kernel writes is 0 or 1 (whatever the input
    patch holds), and a local grid of 0/1 cells is still one after its
    interior has been replaced by the next generation. *)
Theorem C10_cells_stay_binary :
  (forall v n : Z, update_cell v n = 0%Z \/ update_cell v n = 1%Z)
  /\ (forall (g : grid) (nx : nat), binaryb (compute_next_generation g nx) = true)
  /\ (forall g : grid, binaryb (compute_next_generation_2d g) = true)
  /\ (forall (g : grid) (nx : nat),
        binaryb g = true ->
        binaryb (set_slice 1 (compute_next_generation g nx) g) = true)
  /\ (forall g : grid,
        binaryb g = true ->
        binaryb (set_block g 1 1 (compute_next_generation_2d g)) = true).
Proof.
  split; [apply update_cell_binary|].
  split; [apply binaryb_kernel_1d|].
  split; [apply binaryb_kernel_2d|].
  split.
  - intros g nx B. apply binaryb_set_rows; auto. apply binaryb_kernel_1d.
  - intros g B. apply binaryb_set_block; auto. apply binaryb_kernel_2d.
Qed.

Lemma C10_witness :
  binaryb (set_slice 1 (compute_next_generation example_blinker 4) example_blinker)
  = true
  /\ binaryb (set_block example_soup 1 1 (compute_next_generation_2d example_soup))
     = true.
Proof.
  destruct C10_cells_stay_binary as (_ & _ & _ & H1 & H2).
  split; [apply H1; reflexivity | apply H2; reflexivity].
Defined.

(* ================================================================== *)
(** * Further properties: seeding, checksum, snapshot files, visualisers *)
(* ================================================================== *)

(** ** Initial patterns *)

Lemma py_mod_shift_inv (s : Z) (n i y : nat) :
  0 < n -> i < n -> y < n ->
  py_mod (s + Z.of_nat i) n = y <-> py_mod (Z.of_nat y - s) n = i.
Proof.
  intros Hn Hi Hy. unfold py_mod.
  assert (Hn' : (0 < Z.of_nat n)%Z) by lia.
  pose proof (Z.mod_pos_bound (s + Z.of_nat i) (Z.of_nat n) Hn').
  pose proof (Z.mod_pos_bound (Z.of_nat y - s) (Z.of_nat n) Hn').
  split; intros E.
  - assert (E' : ((s + Z.of_nat i) mod Z.of_nat n = Z.of_nat y)%Z) by lia.
    rewrite <- E'.
    rewrite Zminus_mod_idemp_l.
    replace (s + Z.of_nat i - s)%Z with (Z.of_nat i) by lia.
    rewrite Z.mod_small by lia. lia.
  - assert (E' : ((Z.of_nat y - s) mod Z.of_nat n = Z.of_nat i)%Z) by lia.
    rewrite <- E'.
    rewrite Zplus_mod_idemp_r.
    replace (s + (Z.of_nat y - s))%Z with (Z.of_nat y) by lia.
    rewrite Z.mod_small by lia. lia.
Qed.

Lemma find_app (A : Type) (p : A -> bool) (l1 l2 : list A) :
  find p (l1 ++ l2) = match find p l1 with Some a => Some a | None => find p l2 end.
Proof.
  induction l1 as [|a t IH]; simpl; auto. destruct (p a); auto.
Qed.

Lemma find_absent (A : Type) (p : A -> bool) (l : list A) :
  (forall a, In a l -> p a = false) -> find p l = None.
Proof.
  intros H. destruct (find p l) as [a|] eqn:E; auto.
  apply find_some in E. destruct E as [Hin Hp]. rewrite H in Hp; auto. discriminate.
Qed.

Section WritePattern.

Variables (pattern : grid) (ny nx : nat) (start_x start_y : Z).
Hypotheses (Hny : 0 < ny) (Hnx : 0 < nx).

Local Abbreviation write := (fun (g' : grid) '(i, j) =>
  set_cell g' (py_mod (start_y + Z.of_nat i) ny) (py_mod (start_x + Z.of_nat j) nx)
           (cell pattern i j)).

Local Abbreviation hits := (fun (y x : nat) '(i, j) =>
  (py_mod (start_y + Z.of_nat i) ny =? y) && (py_mod (start_x + Z.of_nat j) nx =? x)).

(** Every cell holds what the last write to it stored, or its old value
    when no write went to it. *)
Lemma writes_spec (l : list (nat * nat)) (g : grid) :
  shape ny nx g ->
  shape ny nx (fold_left write l g) /\
  forall y x, y < ny -> x < nx ->
    cell (fold_left write l g) y x
    = match find (hits y x) (rev l) with
      | Some (i, j) => cell pattern i j
      | None => cell g y x
      end.
Proof.
  revert g. induction l as [|[i j] t IH]; intros g S; simpl.
  - split; auto.
  - assert (S' : shape ny nx (write g (i, j))) by now apply shape_set_cell.
    destruct (IH _ S') as [S2 C]. split; [exact S2|].
    intros y x Hy Hx. rewrite (C y x Hy Hx), find_app.
    destruct (find (hits y x) (rev t)) as [[a b]|]; [reflexivity|].
    cbn [find].
    rewrite (cell_set_cell ny nx) by (auto; now apply py_mod_lt).
    rewrite (Nat.eqb_sym y), (Nat.eqb_sym x).
    destruct ((py_mod (start_y + Z.of_nat i) ny =? y)
              && (py_mod (start_x + Z.of_nat j) nx =? x)); reflexivity.
Qed.

Lemma binaryb_writes (l : list (nat * nat)) (g : grid) :
  (forall i j, cell pattern i j = 0%Z \/ cell pattern i j = 1%Z) ->
  binaryb g = true -> binaryb (fold_left write l g) = true.
Proof.
  intros P. revert g. induction l as [|[i j] t IH]; intros g B; simpl; auto.
  apply IH. unfold set_cell. apply binaryb_set_nth; auto.
  pose proof (binaryb_row g (py_mod (start_y + Z.of_nat i) ny) B) as R.
  revert R. generalize (row g (py_mod (start_y + Z.of_nat i) ny)).
  generalize (py_mod (start_x + Z.of_nat j) nx).
  intros k rw. revert k. induction rw as [|v rw IHr]; intros [|k] R; simpl in *; auto.
  - apply andb_true_iff in R. destruct R as [_ R]. rewrite R, andb_true_r.
    destruct (P i j) as [-> | ->]; reflexivity.
  - apply andb_true_iff in R. destruct R as [R1 R2]. rewrite R1. simpl. now apply IHr.
Qed.

(** When the pattern is no larger than the grid the writes do not meet,
    and the result is the pattern laid over the grid. *)
Lemma writes_overlay (h w : nat) (g : grid) :
  h <= ny -> w <= nx -> shape ny nx g ->
  fold_left write (list_prod (seq 0 h) (seq 0 w)) g
  = overlay pattern h w ny nx start_y start_x g.
Proof.
  intros Hh Hw S. destruct (writes_spec (list_prod (seq 0 h) (seq 0 w)) g S) as [S' C].
  apply (grid_ext ny nx); auto; [apply shape_tabulate|].
  intros y x Hy Hx. rewrite (C y x Hy Hx). unfold overlay.
  rewrite cell_tabulate by auto. cbv zeta.
  set (i := py_mod (Z.of_nat y - start_y) ny).
  set (j := py_mod (Z.of_nat x - start_x) nx).
  destruct ((i <? h) && (j <? w)) eqn:E.
  - apply andb_true_iff in E. destruct E as [Ei Ej].
    apply Nat.ltb_lt in Ei, Ej.
    rewrite (find_unique _ (hits y x) (i, j)); auto.
    + apply -> in_rev. apply in_prod; apply in_seq; lia.
    + apply andb_true_intro. split; apply Nat.eqb_eq.
      * apply py_mod_shift_inv; auto. lia.
      * apply py_mod_shift_inv; auto. lia.
    + intros [a b] Hin Hp. apply in_rev in Hin. apply in_prod_iff in Hin.
      destruct Hin as [Ha Hb]. apply in_seq in Ha, Hb.
      apply andb_true_iff in Hp. destruct Hp as [Hp1 Hp2].
      apply Nat.eqb_eq in Hp1, Hp2.
      assert (Ea : i = a) by (apply py_mod_shift_inv; auto; lia).
      assert (Eb : j = b) by (apply py_mod_shift_inv; auto; lia).
      now rewrite Ea, Eb.
  - rewrite find_absent; auto.
    intros [a b] Hin. apply in_rev in Hin. apply in_prod_iff in Hin.
    destruct Hin as [Ha Hb]. apply in_seq in Ha, Hb.
    destruct ((py_mod (start_y + Z.of_nat a) ny =? y)
              && (py_mod (start_x + Z.of_nat b) nx =? x)) eqn:Hp; auto.
    apply andb_true_iff in Hp. destruct Hp as [Hp1 Hp2].
    apply Nat.eqb_eq in Hp1, Hp2.
    assert (Ea : i = a) by (apply py_mod_shift_inv; auto; lia).
    assert (Eb : j = b) by (apply py_mod_shift_inv; auto; lia).
    apply andb_false_iff in E. destruct E as [E|E]; apply Nat.ltb_ge in E; lia.
Qed.

End WritePattern.

Lemma shape_dims (ny nx : nat) (g : grid) :
  0 < ny -> shape ny nx g -> nrows g = ny /\ ncols g = nx.
Proof.
  intros Hny [L R]. split; [exact L|]. unfold ncols. now apply R.
Qed.

Lemma write_pattern_overlay (pattern : grid) (h w ny nx : nat) (g : grid)
      (start_x start_y : Z) :
  0 < ny -> 0 < nx -> h <= ny -> w <= nx -> shape ny nx g ->
  write_pattern pattern h w g start_x start_y
  = Some (overlay pattern h w ny nx start_y start_x g).
Proof.
  intros Hny Hnx Hh Hw S. unfold write_pattern.
  destruct (shape_dims ny nx g Hny S) as [-> ->].
  replace ((ny =? 0) || (nx =? 0)) with false
    by (symmetry; apply orb_false_iff; split; apply Nat.eqb_neq; lia).
  rewrite andb_false_r. f_equal. now apply writes_overlay.
Qed.

Lemma binaryb_zeros2 (r c : nat) : binaryb (zeros2 r c) = true.
Proof.
  unfold binaryb, zeros2. apply forallb_forall. intros rw Hin.
  apply repeat_spec in Hin. subst rw. apply forallb_forall. intros v Hv.
  apply repeat_spec in Hv. now subst v.
Qed.

(** On a grid with at least one row and one column the writes go through
    whatever the size of the pattern; the array keeps its shape, and stays
    a 0/1 array when the pattern is one. *)
Lemma write_pattern_total (pattern : grid) (h w ny nx : nat) (g : grid)
      (start_x start_y : Z) :
  0 < ny -> 0 < nx -> shape ny nx g ->
  exists g', write_pattern pattern h w g start_x start_y = Some g'
             /\ shape ny nx g'
             /\ (binaryb pattern = true -> binaryb g = true -> binaryb g' = true).
Proof.
  intros Hny Hnx S. unfold write_pattern.
  destruct (shape_dims ny nx g Hny S) as [-> ->].
  replace ((ny =? 0) || (nx =? 0)) with false
    by (symmetry; apply orb_false_iff; split; apply Nat.eqb_neq; lia).
  rewrite andb_false_r. eexists. split; [reflexivity|]. split.
  - now apply writes_spec.
  - intros P B. apply binaryb_writes; auto. now apply binaryb_binary.
Qed.

Lemma write_pattern_empty (pattern : grid) (h w : nat) (g : grid)
      (start_x start_y : Z) :
  0 < h -> 0 < w -> nrows g = 0 \/ ncols g = 0 ->
  write_pattern pattern h w g start_x start_y = None.
Proof.
  intros Hh Hw E. unfold write_pattern.
  replace (0 <? h * w) with true by (symmetry; apply Nat.ltb_lt; nia).
  replace ((nrows g =? 0) || (ncols g =? 0)) with true; [reflexivity|].
  symmetry. apply orb_true_iff. destruct E as [E|E]; [left|right]; now apply Nat.eqb_eq.
Qed.

Lemma str_eqb_eq (s t : str) : str_eqb s t = true <-> s = t.
Proof.
  revert t. induction s as [|c s IH]; intros [|d t]; simpl; split; intros E;
    try discriminate; auto.
  - apply andb_true_iff in E. destruct E as [E1 E2].
    apply Ascii.eqb_eq in E1. apply IH in E2. congruence.
  - injection E as -> ->. rewrite Ascii.eqb_refl. simpl. now apply IH.
Qed.

Lemma dims_zeros2_empty (ny nx : nat) :
  ny = 0 \/ nx = 0 -> nrows (zeros2 ny nx) = 0 \/ ncols (zeros2 ny nx) = 0.
Proof.
  intros [-> | ->]; [left; reflexivity|right].
  unfold ncols, row, zeros2. destruct ny; reflexivity.
Qed.

Lemma initialize_grid_ok (random_choice : Z -> nat -> nat -> grid)
      (nx ny : nat) (pattern : str) (seed : Z) :
  0 < ny -> 0 < nx ->
  shape ny nx (random_choice seed ny nx) ->
  binaryb (random_choice seed ny nx) = true ->
  exists G, initialize_grid random_choice nx ny pattern seed = Some G
            /\ shape ny nx G /\ binaryb G = true.
Proof.
  intros Hny Hnx SR BR. unfold initialize_grid. cbv zeta.
  pose proof (shape_zeros2 ny nx) as SZ. pose proof (binaryb_zeros2 ny nx) as BZ.
  destruct (str_eqb pattern (lit "random")); [eauto|].
  destruct (str_eqb pattern (lit "glider_gun")).
  { destruct (write_pattern_total gun_pattern (nrows gun_pattern) (ncols gun_pattern)
                ny nx (zeros2 ny nx) (Z.max 20 (Z.of_nat nx / 4))
                (Z.max 20 (Z.of_nat ny / 4)) Hny Hnx SZ) as (G & E & S & B).
    exists G. split; [exact E|]. split; [exact S|]. now apply B. }
  destruct (str_eqb pattern (lit "glider")).
  { destruct (write_pattern_total glider 3 3 ny nx (zeros2 ny nx)
                (Z.max 10 (Z.of_nat nx / 2)) (Z.max 10 (Z.of_nat ny / 2))
                Hny Hnx SZ) as (G & E & S & B).
    exists G. split; [exact E|]. split; [exact S|]. now apply B. }
  destruct (str_eqb pattern (lit "r_pentomino")).
  { destruct (write_pattern_total r_pentomino 3 3 ny nx (zeros2 ny nx)
                (Z.max 10 (Z.of_nat nx / 2)) (Z.max 10 (Z.of_nat ny / 2))
                Hny Hnx SZ) as (G & E & S & B).
    exists G. split; [exact E|]. split; [exact S|]. now apply B. }
  eauto.
Qed.

(** X1.  The [create_*] functions draw their pattern on the torus.  On a
    grid at least as large as the pattern (3 x 3 for the glider and the
    R-pentomino, 9 x 36 for the glider gun), for any integers [start_x]
    and [start_y], cell [((start_y + i) mod ny, (start_x + j) mod nx)] of
    the result holds [pattern[i, j]] -- the zeros of the pattern
    included, which erase what was there -- and every other cell is left
    as it was. *)
Theorem create_pattern_placed :
  forall (g : grid) (ny nx : nat) (start_x start_y : Z),
    has_shape ny nx g = true ->
    (3 <= ny -> 3 <= nx ->
       create_glider g start_x start_y
       = Some (overlay glider 3 3 ny nx start_y start_x g)
       /\ create_r_pentomino g start_x start_y
          = Some (overlay r_pentomino 3 3 ny nx start_y start_x g))
    /\ (9 <= ny -> 36 <= nx ->
          create_glider_gun g start_x start_y
          = Some (overlay gun_pattern 9 36 ny nx start_y start_x g)).
Proof.
  intros g ny nx start_x start_y S. apply has_shape_shape in S. split.
  - intros Hy Hx. split; apply write_pattern_overlay; auto; lia.
  - intros Hy Hx. unfold create_glider_gun.
    change (nrows gun_pattern) with 9. change (ncols gun_pattern) with 36.
    apply write_pattern_overlay; auto; lia.
Qed.

Lemma create_pattern_placed_witness :
  (create_glider (zeros2 4 5) 3 (-2)
   = Some (overlay glider 3 3 4 5 (-2) 3 (zeros2 4 5))
   /\ create_r_pentomino (zeros2 4 5) 3 (-2)
      = Some (overlay r_pentomino 3 3 4 5 (-2) 3 (zeros2 4 5)))
  /\ create_glider_gun (zeros2 9 36) 20 20
     = Some (overlay gun_pattern 9 36 9 36 20 20 (zeros2 9 36)).
Proof.
  split.
  - apply (create_pattern_placed (zeros2 4 5) 4 5 3 (-2)); [reflexivity | lia | lia].
  - apply (create_pattern_placed (zeros2 9 36) 9 36 20 20); [reflexivity | lia | lia].
Defined.

Example glider_wraps_round :
  create_glider (zeros2 4 5) 3 (-2)
  = Some [[1; 0; 0; 1; 1]; [0; 0; 0; 0; 0]; [0; 0; 0; 0; 1]; [1; 0; 0; 0; 0]]%Z.
Proof. vm_compute. reflexivity. Qed.

(** ** Sums over grids *)

Lemma sumZ_app (l1 l2 : list Z) : sumZ (l1 ++ l2) = (sumZ l1 + sumZ l2)%Z.
Proof. induction l1 as [|a t IH]; simpl; [reflexivity|]. rewrite IH. lia. Qed.

Lemma sum_seq_ext (f g : nat -> Z) (a n : nat) :
  (forall i, a <= i < a + n -> f i = g i) ->
  sumZ (map f (seq a n)) = sumZ (map g (seq a n)).
Proof.
  intros H. f_equal. apply map_ext_in. intros i Hi. apply in_seq in Hi. apply H. lia.
Qed.

Lemma sum_seq_shift (f : nat -> Z) (a c n : nat) :
  sumZ (map (fun i => f (i + c)) (seq a n)) = sumZ (map f (seq (a + c) n)).
Proof.
  revert a. induction n as [|n IH]; intros a; simpl; [reflexivity|].
  rewrite IH. reflexivity.
Qed.

Lemma sum_seq_split (f : nat -> Z) (k n : nat) :
  k <= n ->
  sumZ (map f (seq 0 n)) = (sumZ (map f (seq 0 k)) + sumZ (map f (seq k (n - k))))%Z.
Proof.
  intros Hk. replace n with (k + (n - k)) at 1 by lia.
  now rewrite seq_app, map_app, sumZ_app.
Qed.

Lemma sum_seq_zero (a n : nat) : sumZ (map (fun _ => 0%Z) (seq a n)) = 0%Z.
Proof. revert a. induction n as [|n IH]; intros a; simpl; auto. Qed.

Lemma py_mod_rotate (d : Z) (n y : nat) :
  0 < n -> y < n ->
  py_mod (Z.of_nat y - d) n
  = if y <? py_mod d n then y + (n - py_mod d n) else y - py_mod d n.
Proof.
  intros Hn Hy. unfold py_mod.
  assert (Hn' : (0 < Z.of_nat n)%Z) by lia.
  pose proof (Z.mod_pos_bound d (Z.of_nat n) Hn') as Hk.
  set (k := (d mod Z.of_nat n)%Z) in *.
  rewrite <- Zminus_mod_idemp_r. fold k.
  destruct (Nat.ltb_spec y (Z.to_nat k)).
  - replace (Z.of_nat y - k)%Z with ((Z.of_nat y - k + Z.of_nat n) + (-1) * Z.of_nat n)%Z by lia.
    rewrite Z_mod_plus_full, Z.mod_small by lia. lia.
  - rewrite Z.mod_small by lia. lia.
Qed.

(** A sum over a full turn of the ring does not depend on where the turn
    starts. *)
Lemma sum_rotate (f : nat -> Z) (d : Z) (n : nat) :
  sumZ (map (fun y => f (py_mod (Z.of_nat y - d) n)) (seq 0 n))
  = sumZ (map f (seq 0 n)).
Proof.
  destruct (Nat.eq_dec n 0) as [->|Hn0]; [reflexivity|].
  assert (Hn : 0 < n) by lia.
  pose proof (py_mod_lt d n Hn) as Hk. set (k := py_mod d n) in *.
  rewrite (sum_seq_split _ k n) by lia.
  rewrite (sum_seq_ext _ (fun y => f (y + (n - k))) 0 k).
  2:{ intros y Hy. rewrite py_mod_rotate by lia. fold k.
      replace (y <? k) with true by (symmetry; apply Nat.ltb_lt; lia). reflexivity. }
  rewrite (sum_seq_ext _ (fun y => f (y - k)) k (n - k)).
  2:{ intros y Hy. rewrite py_mod_rotate by lia. fold k.
      replace (y <? k) with false by (symmetry; apply Nat.ltb_ge; lia). reflexivity. }
  rewrite (sum_seq_shift f 0 (n - k) k), Nat.add_0_l.
  rewrite (sum_seq_split f (n - k) n) by lia.
  replace (n - (n - k)) with k by lia.
  assert (E : sumZ (map (fun y => f (y - k)) (seq k (n - k)))
              = sumZ (map f (seq 0 (n - k)))).
  { change k with (0 + k) at 2.
    rewrite <- (sum_seq_shift (fun y => f (y - k)) 0 k (n - k)).
    apply sum_seq_ext. intros i _. f_equal. lia. }
  rewrite E. lia.
Qed.

Lemma sum_tabulate (rows cols : nat) (f : nat -> nat -> Z) :
  sumZ (flatten (tabulate rows cols f))
  = sumZ (map (fun i => sumZ (map (f i) (seq 0 cols))) (seq 0 rows)).
Proof.
  unfold flatten, tabulate. generalize (seq 0 rows) as l.
  induction l as [|i t IH]; simpl; [reflexivity|].
  now rewrite sumZ_app, IH.
Qed.

Lemma tabulate_cells (rows cols : nat) (g : grid) :
  shape rows cols g -> g = tabulate rows cols (cell g).
Proof.
  intros S. apply (grid_ext rows cols); auto; [apply shape_tabulate|].
  intros i j Hi Hj. now rewrite cell_tabulate.
Qed.

Lemma sum_rotate2 (f : nat -> nat -> Z) (dy dx : Z) (ny nx : nat) :
  sumZ (flatten (tabulate ny nx (fun y x =>
          f (py_mod (Z.of_nat y - dy) ny) (py_mod (Z.of_nat x - dx) nx))))
  = sumZ (flatten (tabulate ny nx f)).
Proof.
  rewrite !sum_tabulate.
  rewrite (sum_seq_ext _ (fun y => sumZ (map (f (py_mod (Z.of_nat y - dy) ny)) (seq 0 nx)))).
  2:{ intros y _. apply (sum_rotate (f (py_mod (Z.of_nat y - dy) ny)) dx nx). }
  apply (sum_rotate (fun y => sumZ (map (f y) (seq 0 nx))) dy ny).
Qed.

Lemma sum_translate (ny nx : nat) (dy dx : Z) (G : grid) :
  shape ny nx G ->
  sumZ (flatten (translate ny nx dy dx G)) = sumZ (flatten G).
Proof.
  intros S. rewrite (tabulate_cells ny nx G S) at 2.
  unfold translate, torus. apply (sum_rotate2 (cell G)).
Qed.

Lemma sum_restrict (f : nat -> Z) (h n : nat) :
  h <= n ->
  sumZ (map (fun i => if i <? h then f i else 0%Z) (seq 0 n))
  = sumZ (map f (seq 0 h)).
Proof.
  intros Hh. rewrite (sum_seq_split _ h n) by lia.
  rewrite (sum_seq_ext _ f 0 h).
  2:{ intros i Hi. replace (i <? h) with true by (symmetry; apply Nat.ltb_lt; lia).
      reflexivity. }
  rewrite (sum_seq_ext _ (fun _ => 0%Z) h (n - h)).
  2:{ intros i Hi. replace (i <? h) with false by (symmetry; apply Nat.ltb_ge; lia).
      reflexivity. }
  rewrite sum_seq_zero. lia.
Qed.

(** The cells of a pattern laid on an empty grid add up to the cells of
    the pattern. *)
Lemma sum_overlay (pattern : grid) (h w ny nx : nat) (y0 x0 : Z) :
  h <= ny -> w <= nx ->
  sumZ (flatten (overlay pattern h w ny nx y0 x0 (zeros2 ny nx)))
  = sumZ (map (fun i => sumZ (map (cell pattern i) (seq 0 w))) (seq 0 h)).
Proof.
  intros Hh Hw. unfold overlay.
  pose (F := fun i j => if (i <? h) && (j <? w) then cell pattern i j else 0%Z).
  transitivity (sumZ (flatten (tabulate ny nx (fun y x =>
     F (py_mod (Z.of_nat y - y0) ny) (py_mod (Z.of_nat x - x0) nx))))).
  { f_equal. f_equal. unfold tabulate. apply map_ext. intros y. apply map_ext.
    intros x. unfold F. cbv zeta. now rewrite cell_zeros2. }
  rewrite (sum_rotate2 F y0 x0 ny nx), sum_tabulate. unfold F.
  rewrite (sum_seq_ext _ (fun i => if i <? h
                                   then sumZ (map (cell pattern i) (seq 0 w))
                                   else 0%Z) 0 ny).
  2:{ intros i _. destruct (i <? h); simpl.
      - apply sum_restrict; lia.
      - apply sum_seq_zero. }
  now apply sum_restrict.
Qed.

Lemma int64_small (z : Z) : (- 2 ^ 63 <= z < 2 ^ 63)%Z -> int64 z = z.
Proof. intros H. unfold int64. rewrite Z.mod_small; lia. Qed.

Lemma sum_binary (l : list Z) :
  forallb (fun v => (v =? 0)%Z || (v =? 1)%Z) l = true ->
  sumZ l = Z.of_nat (count_occ Z.eq_dec l 1%Z).
Proof.
  induction l as [|v t IH]; intros B; [reflexivity|].
  simpl in B. apply andb_true_iff in B. destruct B as [Bv Bt].
  cbn [sumZ fold_right count_occ]. fold (sumZ t). rewrite (IH Bt).
  apply orb_true_iff in Bv. destruct Bv as [E|E]; apply Z.eqb_eq in E; subst v.
  - destruct (Z.eq_dec 0 1); lia.
  - destruct (Z.eq_dec 1 1); lia.
Qed.

Lemma binaryb_flatten (g : grid) :
  binaryb g = true ->
  forallb (fun v => (v =? 0)%Z || (v =? 1)%Z) (flatten g) = true.
Proof.
  unfold binaryb, flatten. induction g as [|rw t IH]; intros B; [reflexivity|].
  simpl in *. apply andb_true_iff in B. destruct B as [B1 B2].
  rewrite forallb_app, B1. simpl. now apply IH.
Qed.

Lemma live_count_le (ny nx : nat) (g : grid) :
  shape ny nx g -> live_count g <= ny * nx.
Proof.
  intros S. unfold live_count.
  rewrite <- (length_flatten ny nx g S). apply count_occ_bound.
Qed.

Lemma binary_binaryb (g : grid) : binary g -> binaryb g = true.
Proof.
  intros B. unfold binaryb. apply forallb_forall. intros rw Hrw.
  apply forallb_forall. intros v Hv.
  destruct (In_nth g rw [] Hrw) as (i & Hi & Ei).
  destruct (In_nth rw v 0%Z Hv) as (j & Hj & Ej).
  specialize (B i j). unfold cell, row in B. rewrite Ei, Ej in B.
  destruct B as [-> | ->]; reflexivity.
Qed.

Lemma np_sum_binary (ny nx : nat) (g : grid) :
  shape ny nx g -> binaryb g = true -> (Z.of_nat (ny * nx) < 2 ^ 63)%Z ->
  np_sum g = Z.of_nat (live_count g) /\ (0 <= np_sum g <= Z.of_nat (ny * nx))%Z.
Proof.
  intros S B Hsz. unfold np_sum.
  rewrite (sum_binary _ (binaryb_flatten g B)). fold (live_count g).
  pose proof (live_count_le ny nx g S).
  rewrite int64_small by lia. split; [reflexivity | lia].
Qed.

Lemma np_sum_overlay (pattern : grid) (h w ny nx : nat) (y0 x0 : Z) :
  h <= ny -> w <= nx ->
  np_sum (overlay pattern h w ny nx y0 x0 (zeros2 ny nx))
  = int64 (sumZ (map (fun i => sumZ (map (cell pattern i) (seq 0 w))) (seq 0 h))).
Proof. intros Hh Hw. unfold np_sum. now rewrite sum_overlay. Qed.









(** A grid smaller than the pattern: the glider on a 2 x 2 grid wraps
    onto itself and three cells survive. *)
Example glider_on_2_by_2 :
  initialize_grid (fun _ ny nx => zeros2 ny nx) 2 2 (lit "glider") 42
  = Some [[1; 1]; [1; 0]]%Z.
Proof. vm_compute. reflexivity. Qed.

Lemma np_sum_translate (ny nx : nat) (dy dx : Z) (G : grid) :
  shape ny nx G -> np_sum (translate ny nx dy dx G) = np_sum G.
Proof. intros S. unfold np_sum. now rewrite (sum_translate ny nx dy dx G S). Qed.





(** ** Rank boundaries and workloads *)

Lemma rank_boundaries_loop (ny p k : nat) :
  fold_left
    (fun '(boundaries, current_row) r =>
       let local_rows := if r <? ny mod p then ny / p + 1 else ny / p in
       let end_row := current_row + local_rows in
       (boundaries ++ [(current_row, end_row)], end_row))
    (seq 0 k) ([], 0)
  = (map (fun r => (block_start ny p r, block_start ny p r + block_count ny p r))
         (seq 0 k),
     block_start ny p k).
Proof.
  induction k as [|k IH]; [reflexivity|].
  rewrite seq_S, fold_left_app, IH. cbn [fold_left Nat.add].
  rewrite map_app, block_start_S. reflexivity.
Qed.

Lemma rank_boundaries_spec (ny p : nat) :
  0 < p ->
  rank_boundaries ny p
  = Some (map (fun r => (block_start ny p r, block_start ny p r + block_count ny p r))
              (seq 0 p)).
Proof.
  intros Hp. unfold rank_boundaries.
  replace (p =? 0) with false by (symmetry; apply Nat.eqb_neq; lia).
  cbv zeta. now rewrite rank_boundaries_loop.
Qed.

Lemma firstn_plus (A : Type) (m n : nat) (l : list A) :
  firstn (m + n) l = firstn m l ++ firstn n (skipn m l).
Proof.
  revert l. induction m as [|m IH]; intros [|a l]; simpl; auto.
  - now rewrite firstn_nil.
  - now rewrite IH.
Qed.

Lemma slice_app (A : Type) (a b c : nat) (l : list A) :
  a <= b -> b <= c -> slice a c l = slice a b l ++ slice b c l.
Proof.
  intros Hab Hbc. unfold slice.
  replace (c - a) with ((b - a) + (c - b)) by lia.
  rewrite firstn_plus. f_equal.
  rewrite skipn_skipn. now replace (b - a + a) with b by lia.
Qed.

Lemma sum_workloads (ny p : nat) (g : grid) (k : nat) :
  sumZ (map (fun r => sumZ (flatten (slice (block_start ny p r)
                                           (block_start ny p r + block_count ny p r) g)))
            (seq 0 k))
  = sumZ (flatten (slice 0 (block_start ny p k) g)).
Proof.
  induction k as [|k IH]; [reflexivity|].
  rewrite seq_S, map_app, sumZ_app, IH. cbn [map sumZ fold_right Nat.add].
  rewrite (block_start_S ny p k).
  rewrite (slice_app _ 0 (block_start ny p k) (block_start ny p k + block_count ny p k))
    by lia.
  unfold flatten. rewrite concat_app, sumZ_app. lia.
Qed.

Lemma slice_all (A : Type) (l : list A) : slice 0 (length l) l = l.
Proof. unfold slice. rewrite Nat.sub_0_r. simpl. apply firstn_all. Qed.

Lemma binaryb_slice (a b : nat) (g : grid) :
  binaryb g = true -> binaryb (slice a b g) = true.
Proof. intros B. unfold slice. apply binaryb_firstn. now apply binaryb_skipn. Qed.

Lemma sum_binary_nonneg (g : grid) :
  binaryb g = true -> (0 <= sumZ (flatten g))%Z.
Proof. intros B. rewrite (sum_binary _ (binaryb_flatten g B)). lia. Qed.

Lemma sumZ_member_le (l : list Z) (v : Z) :
  (forall w, In w l -> (0 <= w)%Z) -> In v l -> (v <= sumZ l)%Z.
Proof.
  induction l as [|a t IH]; intros P Hin; [contradiction|].
  cbn [sumZ fold_right]. fold (sumZ t).
  assert (0 <= sumZ t)%Z.
  { clear IH Hin. induction t as [|b t IHt]; [simpl; lia|].
    cbn [sumZ fold_right]. fold (sumZ t).
    assert (0 <= b)%Z by (apply P; right; now left).
    assert (0 <= sumZ t)%Z by (apply IHt; intros w Hw; apply P; destruct Hw; [now left|right; now right]).
    lia. }
  destruct Hin as [->|Hin]; [lia|].
  assert (0 <= a)%Z by (apply P; now left).
  assert (v <= sumZ t)%Z by (apply IH; auto; intros w Hw; apply P; now right).
  lia.
Qed.

Lemma workloads_exact (ny nx p : nat) (g : grid) :
  0 < p -> shape ny nx g -> binaryb g = true -> (Z.of_nat (ny * nx) < 2 ^ 63)%Z ->
  let bs := map (fun r => (block_start ny p r, block_start ny p r + block_count ny p r))
                (seq 0 p) in
  sumZ (rank_workloads g bs) = np_sum g
  /\ Forall (fun w => (0 <= w <= np_sum g)%Z) (rank_workloads g bs).
Proof.
  intros Hp S B Hsz bs.
  pose (part r := sumZ (flatten (slice (block_start ny p r)
                                        (block_start ny p r + block_count ny p r) g))).
  assert (Etot : sumZ (map part (seq 0 p)) = sumZ (flatten g)).
  { unfold part. rewrite sum_workloads, block_start_total by auto.
    destruct S as [L _]. rewrite <- L. now rewrite slice_all. }
  destruct (np_sum_binary ny nx g S B Hsz) as [En Hn].
  assert (Eg : np_sum g = sumZ (flatten g)).
  { unfold np_sum. rewrite (sum_binary _ (binaryb_flatten g B)).
    apply int64_small. pose proof (live_count_le ny nx g S).
    unfold live_count in *. lia. }
  assert (Hpos : forall r, (0 <= part r)%Z).
  { intros r. unfold part. apply sum_binary_nonneg. now apply binaryb_slice. }
  assert (Hle : forall r, r < p -> (part r <= sumZ (flatten g))%Z).
  { intros r Hr. rewrite <- Etot. apply sumZ_member_le.
    - intros w Hw. apply in_map_iff in Hw. destruct Hw as (r' & <- & _). apply Hpos.
    - apply in_map. apply in_seq. lia. }
  assert (Ew : rank_workloads g bs = map part (seq 0 p)).
  { unfold rank_workloads, bs. rewrite map_map. apply map_ext_in.
    intros r Hr. apply in_seq in Hr. unfold np_sum. fold (part r).
    apply int64_small. specialize (Hpos r). specialize (Hle r ltac:(lia)). lia. }
  rewrite Ew. split; [now rewrite Etot|].
  apply Forall_forall. intros w Hw. apply in_map_iff in Hw.
  destruct Hw as (r & <- & Hr). apply in_seq in Hr. rewrite Eg.
  split; [apply Hpos | apply Hle; lia].
Qed.



Example rank_boundaries_5_rows_3_ranks :
  rank_boundaries 5 3 = Some [(0, 2); (2, 4); (4, 5)]
  /\ rank_boundaries 5 0 = None.
Proof. split; reflexivity. Qed.

(** X9.  The workloads of the ranks partition the population.  For a
    0/1 frame of fewer than 2^63 cells and any [num_ranks >= 1], the
    [rank_workloads] of [create_rank_heatmap_animation] (the sums of the
    frame over the row ranges of [rank_boundaries]) add up to the total
    [np.sum(grid)], and each lies between 0 and that total; so the
    percentages drawn add up to 100 when there is a live cell. *)
Theorem workloads_partition_population :
  forall (ny nx num_ranks : nat) (g : grid),
    0 < num_ranks ->
    has_shape ny nx g = true -> binaryb g = true ->
    (Z.of_nat (ny * nx) < 2 ^ 63)%Z ->
    exists boundaries,
      rank_boundaries ny num_ranks = Some boundaries /\
      sumZ (rank_workloads g boundaries) = np_sum g /\
      Forall (fun w => (0 <= w <= np_sum g)%Z) (rank_workloads g boundaries).
Proof.
  intros ny nx p g Hp S B Hsz. apply has_shape_shape in S.
  eexists. split; [now apply rank_boundaries_spec|].
  now apply (workloads_exact ny nx p g).
Qed.

Lemma workloads_partition_population_witness :
  exists boundaries,
    rank_boundaries 5 3 = Some boundaries /\
    sumZ (rank_workloads example_soup boundaries) = np_sum example_soup /\
    Forall (fun w => (0 <= w <= np_sum example_soup)%Z)
           (rank_workloads example_soup boundaries).
Proof.
  apply (workloads_partition_population 5 6 3 example_soup);
    [lia | reflexivity | reflexivity | vm_compute; reflexivity].
Defined.

(** ** Trimming the quiet tail *)

Lemma last_active_idx_spec (alive_counts : list Z) (min_alive : Z) (n : nat) :
  let r := last_active_idx alive_counts min_alive n in
  (-1 <= r < Z.of_nat n)%Z
  /\ ((0 <= r)%Z -> (min_alive < nth (Z.to_nat r) alive_counts 0)%Z)
  /\ (forall i, (r < Z.of_nat i)%Z -> i < n -> (nth i alive_counts 0 <= min_alive)%Z).
Proof.
  induction n as [|n IH]; cbn [last_active_idx].
  - split; [lia|]. split; [lia|]. intros; lia.
  - destruct (Z.leb_spec (nth n alive_counts 0%Z) min_alive) as [Hle|Hgt].
    + destruct IH as (B & P & Q). split; [lia|]. split; [exact P|].
      intros i Hi Hlt. destruct (Nat.eq_dec i n) as [->|Hne]; [exact Hle|].
      apply Q; lia.
    + split; [lia|]. split.
      * intros _. now rewrite Nat2Z.id.
      * intros i Hi Hlt. lia.
Qed.

Lemma last_active_idx_firstn (alive_counts : list Z) (min_alive : Z) (k n : nat) :
  n <= k ->
  last_active_idx (firstn k alive_counts) min_alive n
  = last_active_idx alive_counts min_alive n.
Proof.
  intros Hn. induction n as [|n IH]; [reflexivity|]. cbn [last_active_idx].
  rewrite IH by lia.
  replace (nth n (firstn k alive_counts) 0%Z) with (nth n alive_counts 0%Z); auto.
  rewrite <- (firstn_skipn k alive_counts) at 1.
  destruct (Nat.lt_ge_cases n (length (firstn k alive_counts))) as [Hl|Hl].
  - now rewrite app_nth1.
  - rewrite length_firstn in Hl.
    assert (length alive_counts <= n) by lia.
    rewrite !nth_overflow; auto.
    + rewrite length_firstn. lia.
    + rewrite firstn_skipn. lia.
Qed.

Lemma trim_inactive_tail_spec (A : Type) (snapshots : list A)
      (alive_counts : list Z) (min_alive : Z) :
  exists k,
    k <= length alive_counts /\
    trim_inactive_tail snapshots alive_counts min_alive
    = (if k =? length alive_counts then snapshots else firstn k snapshots,
       firstn k alive_counts) /\
    (alive_counts <> [] -> 0 < k) /\
    (forall i, k <= i -> i < length alive_counts ->
               (nth i alive_counts 0 <= min_alive)%Z) /\
    (k < length alive_counts -> (min_alive < nth (k - 1) alive_counts 0)%Z).
Proof.
  unfold trim_inactive_tail.
  destruct (last_active_idx_spec alive_counts min_alive (length alive_counts))
    as (B & P & Q).
  set (r := last_active_idx alive_counts min_alive (length alive_counts)) in *.
  cbv zeta.
  destruct (Z.eqb_spec r (Z.of_nat (length alive_counts) - 1)) as [E|E].
  - exists (length alive_counts). rewrite Nat.eqb_refl, firstn_all.
    split; [lia|]. split; [reflexivity|]. split.
    + destruct alive_counts; [congruence | simpl; lia].
    + split; intros; lia.
  - destruct (Z.eqb_spec (r + 1) 0) as [E0|E0].
    + exists (length alive_counts). rewrite Nat.eqb_refl, firstn_all.
      split; [lia|]. split; [reflexivity|]. split.
      * destruct alive_counts; [congruence | simpl; lia].
      * split; intros; lia.
    + exists (Z.to_nat (r + 1)).
      replace (Z.to_nat (r + 1) =? length alive_counts) with false
        by (symmetry; apply Nat.eqb_neq; lia).
      split; [lia|]. split; [reflexivity|]. split; [lia|]. split.
      * intros i Hi Hlt. apply Q; lia.
      * intros _. replace (Z.to_nat (r + 1) - 1) with (Z.to_nat r) by lia.
        apply P. lia.
Qed.

Lemma trim_inactive_tail_again (A : Type) (snapshots : list A)
      (alive_counts : list Z) (min_alive : Z) :
  let '(snapshots', alive_counts') :=
    trim_inactive_tail snapshots alive_counts min_alive in
  trim_inactive_tail snapshots' alive_counts' min_alive = (snapshots', alive_counts').
Proof.
  unfold trim_inactive_tail at 1.
  destruct (last_active_idx_spec alive_counts min_alive (length alive_counts))
    as (B & P & Q).
  set (r := last_active_idx alive_counts min_alive (length alive_counts)) in *.
  cbv zeta.
  destruct (Z.eqb_spec r (Z.of_nat (length alive_counts) - 1)) as [E|E].
  - unfold trim_inactive_tail. fold r. cbv zeta.
    now replace (r =? Z.of_nat (length alive_counts) - 1)%Z with true
      by (symmetry; apply Z.eqb_eq; lia).
  - destruct (Z.eqb_spec (r + 1) 0) as [E0|E0].
    + unfold trim_inactive_tail. fold r. cbv zeta.
      replace (r =? Z.of_nat (length alive_counts) - 1)%Z with false
        by (symmetry; apply Z.eqb_neq; lia).
      now replace (r + 1 =? 0)%Z with true by (symmetry; apply Z.eqb_eq; lia).
    + unfold trim_inactive_tail. cbv zeta.
      set (k := Z.to_nat (r + 1)).
      assert (Lk : length (firstn k alive_counts) = k)
        by (rewrite length_firstn; lia).
      rewrite Lk, last_active_idx_firstn by lia.
      assert (Ek : last_active_idx alive_counts min_alive k = (Z.of_nat k - 1)%Z).
      { replace k with (S (Z.to_nat r)) by lia. cbn [last_active_idx].
        specialize (P ltac:(lia)).
        replace (nth (Z.to_nat r) alive_counts 0 <=? min_alive)%Z with false
          by (symmetry; apply Z.leb_gt; lia).
        lia. }
      rewrite Ek. now rewrite Z.eqb_refl.
Qed.

(** X10.  [trim_inactive_tail] keeps a prefix that ends on an active
    frame.  With one alive count per frame, the call returns the first
    [k] frames and their [k] counts, where every frame from [k] on has at
    most [min_alive] live cells and, when frames were dropped, frame
    [k - 1] has more; [k] is positive whenever there is a frame at all,
    so the "no snapshots left after trimming" branch of [main] is never
    taken, and a run whose frames are all quiet is returned whole. *)
Theorem trim_inactive_tail_keeps_active_prefix :
  forall (A : Type) (snapshots : list A) (alive_counts : list Z) (min_alive : Z),
    length snapshots = length alive_counts ->
    exists k,
      k <= length alive_counts /\
      trim_inactive_tail snapshots alive_counts min_alive
      = (firstn k snapshots, firstn k alive_counts) /\
      (alive_counts <> [] -> 0 < k) /\
      (forall i, k <= i -> i < length alive_counts ->
                 (nth i alive_counts 0 <= min_alive)%Z) /\
      (k < length alive_counts -> (min_alive < nth (k - 1) alive_counts 0)%Z) /\
      ((forall i, (nth i alive_counts 0 <= min_alive)%Z) -> k = length alive_counts).
Proof.
  intros A snapshots alive_counts min_alive L.
  destruct (trim_inactive_tail_spec A snapshots alive_counts min_alive)
    as (k & Hk & E & Hpos & Hdrop & Hlast).
  exists k. split; [exact Hk|]. split.
  - rewrite E. destruct (Nat.eqb_spec k (length alive_counts)) as [->|_]; auto.
    now rewrite <- L, firstn_all.
  - split; [exact Hpos|]. split; [exact Hdrop|]. split; [exact Hlast|].
    intros Hall. destruct (Nat.eq_dec k (length alive_counts)) as [|Hne]; auto.
    specialize (Hlast ltac:(lia)). specialize (Hall (k - 1)). lia.
Qed.

Lemma trim_inactive_tail_keeps_active_prefix_witness :
  exists k,
    k <= length [5; 3; 1; 0]%Z /\
    trim_inactive_tail [10; 11; 12; 13] [5; 3; 1; 0]%Z 1
    = (firstn k [10; 11; 12; 13], firstn k [5; 3; 1; 0]%Z) /\
    ([5; 3; 1; 0]%Z <> [] -> 0 < k) /\
    (forall i, k <= i -> i < length [5; 3; 1; 0]%Z ->
               (nth i [5; 3; 1; 0] 0 <= 1)%Z) /\
    (k < length [5; 3; 1; 0]%Z -> (1 < nth (k - 1) [5; 3; 1; 0] 0)%Z) /\
    ((forall i, (nth i [5; 3; 1; 0] 0 <= 1)%Z) -> k = length [5; 3; 1; 0]%Z).
Proof.
  apply (trim_inactive_tail_keeps_active_prefix nat [10; 11; 12; 13] [5; 3; 1; 0]%Z 1).
  reflexivity.
Defined.

Example trim_inactive_tail_examples :
  trim_inactive_tail [10; 11; 12; 13] [5; 3; 1; 0]%Z 1 = ([10; 11], [5; 3]%Z)
  /\ trim_inactive_tail [10; 11; 12] [1; 0; 1]%Z 1 = ([10; 11; 12], [1; 0; 1]%Z)
  /\ trim_inactive_tail [10; 11; 12] [0; 7; 0]%Z 1 = ([10; 11], [0; 7]%Z).
Proof. repeat split. Qed.

(** X11.  Trimming is idempotent: what [trim_inactive_tail] returns is
    returned unchanged when trimmed again with the same threshold
    (whatever the lengths of the two lists). *)
Theorem trim_inactive_tail_idempotent :
  forall (A : Type) (snapshots : list A) (alive_counts : list Z) (min_alive : Z),
    trim_inactive_tail (fst (trim_inactive_tail snapshots alive_counts min_alive))
                       (snd (trim_inactive_tail snapshots alive_counts min_alive))
                       min_alive
    = trim_inactive_tail snapshots alive_counts min_alive.
Proof.
  intros A snapshots alive_counts min_alive.
  pose proof (trim_inactive_tail_again A snapshots alive_counts min_alive) as H.
  destruct (trim_inactive_tail snapshots alive_counts min_alive) as [s c].
  exact H.
Qed.

(** ** Bounding boxes and zoom windows *)

Lemma fold_min_spec (t : list Z) (a : Z) :
  In (fold_left Z.min t a) (a :: t)
  /\ forall v, In v (a :: t) -> (fold_left Z.min t a <= v)%Z.
Proof.
  revert a. induction t as [|b t IH]; intros a; cbn [fold_left].
  - split; [now left|]. intros v [->|[]]. lia.
  - destruct (IH (Z.min a b)) as [Hin Hle]. split.
    + destruct Hin as [E|Hin]; [|right; now right].
      rewrite <- E. destruct (Z.min_spec a b) as [[_ ->]|[_ ->]];
        [now left | right; now left].
    + intros v [->|[->|Hv]].
      * specialize (Hle (Z.min v b) ltac:(now left)). lia.
      * specialize (Hle (Z.min a v) ltac:(now left)). lia.
      * apply Hle. now right.
Qed.

Lemma fold_max_spec (t : list Z) (a : Z) :
  In (fold_left Z.max t a) (a :: t)
  /\ forall v, In v (a :: t) -> (v <= fold_left Z.max t a)%Z.
Proof.
  revert a. induction t as [|b t IH]; intros a; cbn [fold_left].
  - split; [now left|]. intros v [->|[]]. lia.
  - destruct (IH (Z.max a b)) as [Hin Hle]. split.
    + destruct Hin as [E|Hin]; [|right; now right].
      rewrite <- E. destruct (Z.max_spec a b) as [[_ ->]|[_ ->]];
        [right; now left | now left].
    + intros v [->|[->|Hv]].
      * specialize (Hle (Z.max v b) ltac:(now left)). lia.
      * specialize (Hle (Z.max a v) ltac:(now left)). lia.
      * apply Hle. now right.
Qed.

Lemma list_min_spec (l : list Z) :
  l <> [] -> In (list_min l) l /\ forall v, In v l -> (list_min l <= v)%Z.
Proof. destruct l as [|a t]; [congruence|]. intros _. apply fold_min_spec. Qed.

Lemma list_max_spec (l : list Z) :
  l <> [] -> In (list_max l) l /\ forall v, In v l -> (v <= list_max l)%Z.
Proof. destruct l as [|a t]; [congruence|]. intros _. apply fold_max_spec. Qed.

Lemma in_alive_coords (g : grid) (y x : Z) :
  In (y, x) (alive_coords g) <->
  exists i j, y = Z.of_nat i /\ x = Z.of_nat j /\ i < nrows g /\ j < ncols g
              /\ (0 < cell g i j)%Z.
Proof.
  unfold alive_coords. split.
  - intros H. apply in_flat_map in H. destruct H as (i & Hi & H).
    apply in_flat_map in H. destruct H as (j & Hj & H).
    apply in_seq in Hi, Hj.
    destruct (Z.ltb_spec 0 (cell g i j)) as [Hc|Hc]; [|contradiction].
    destruct H as [H|[]]. injection H as <- <-.
    exists i, j. repeat split; auto; lia.
  - intros (i & j & -> & -> & Hi & Hj & Hc).
    apply in_flat_map. exists i. split; [apply in_seq; lia|].
    apply in_flat_map. exists j. split; [apply in_seq; lia|].
    replace (0 <? cell g i j)%Z with true by (symmetry; apply Z.ltb_lt; lia).
    now left.
Qed.

(** The extent of the live cells: what [alive_coords.min(axis=0)] and
    [alive_coords.max(axis=0)] return lies inside the grid and encloses
    every live cell. *)
Lemma alive_extent (g : grid) :
  alive_coords g <> [] ->
  let ys := map fst (alive_coords g) in
  let xs := map snd (alive_coords g) in
  (0 <= list_min ys <= list_max ys)%Z /\ (list_max ys < Z.of_nat (nrows g))%Z /\
  (0 <= list_min xs <= list_max xs)%Z /\ (list_max xs < Z.of_nat (ncols g))%Z /\
  forall i j, i < nrows g -> j < ncols g -> (0 < cell g i j)%Z ->
    (list_min ys <= Z.of_nat i <= list_max ys)%Z /\
    (list_min xs <= Z.of_nat j <= list_max xs)%Z.
Proof.
  intros Hne ys xs.
  assert (Hy : ys <> []) by (unfold ys; destruct (alive_coords g); [congruence|discriminate]).
  assert (Hx : xs <> []) by (unfold xs; destruct (alive_coords g); [congruence|discriminate]).
  destruct (list_min_spec ys Hy) as [My Ly]. destruct (list_max_spec ys Hy) as [MY LY].
  destruct (list_min_spec xs Hx) as [Mx Lx]. destruct (list_max_spec xs Hx) as [MX LX].
  assert (By : forall v, In v ys -> (0 <= v < Z.of_nat (nrows g))%Z).
  { intros v Hv. apply in_map_iff in Hv. destruct Hv as ([y x] & <- & Hin).
    apply in_alive_coords in Hin. destruct Hin as (i & j & -> & -> & Hi & _).
    cbn [fst]. lia. }
  assert (Bx : forall v, In v xs -> (0 <= v < Z.of_nat (ncols g))%Z).
  { intros v Hv. apply in_map_iff in Hv. destruct Hv as ([y x] & <- & Hin).
    apply in_alive_coords in Hin. destruct Hin as (i & j & -> & -> & _ & Hj & _).
    cbn [snd]. lia. }
  pose proof (By _ My). pose proof (By _ MY). pose proof (Bx _ Mx). pose proof (Bx _ MX).
  pose proof (Ly _ MY). pose proof (Lx _ MX).
  split; [lia|]. split; [lia|]. split; [lia|]. split; [lia|].
  intros i j Hi Hj Hc.
  assert (Hin : In (Z.of_nat i, Z.of_nat j) (alive_coords g)).
  { apply in_alive_coords. exists i, j. repeat split; auto. }
  assert (Iy : In (Z.of_nat i) ys)
    by (apply in_map_iff; eexists; split; [|exact Hin]; reflexivity).
  assert (Ix : In (Z.of_nat j) xs)
    by (apply in_map_iff; eexists; split; [|exact Hin]; reflexivity).
  pose proof (Ly _ Iy). pose proof (LY _ Iy). pose proof (Lx _ Ix). pose proof (LX _ Ix).
  lia.
Qed.

Lemma alive_coords_empty (g : grid) :
  (length (alive_coords g) =? 0) = true -> alive_coords g = [].
Proof. intros E. apply Nat.eqb_eq in E. now apply length_zero_iff_nil. Qed.

Lemma alive_coords_nonempty (g : grid) :
  (length (alive_coords g) =? 0) = false -> alive_coords g <> [].
Proof. intros E H. rewrite H in E. discriminate. Qed.

Ltac split_bbox_tests :=
  repeat match goal with
    | |- context [Z.ltb ?a ?b] => destruct (Z.ltb_spec a b)
    | |- context [Z.eqb ?a ?b] => destruct (Z.eqb_spec a b)
    end;
  cbv beta iota.

Lemma get_active_bbox_window (g : grid) (padding : Z) :
  (0 <= padding)%Z ->
  let '(min_y, max_y, min_x, max_x) := get_active_bbox g padding in
  (0 <= min_y <= max_y)%Z /\ (max_y <= Z.of_nat (nrows g))%Z /\
  (max_y - min_y <= 800)%Z /\
  (0 <= min_x <= max_x)%Z /\ (max_x <= Z.of_nat (ncols g))%Z /\
  (max_x - min_x <= 800)%Z.
Proof.
  intros Hp. unfold get_active_bbox. cbv zeta.
  destruct (length (alive_coords g) =? 0) eqn:E.
  - cbv beta iota. repeat split; Z.to_euclidean_division_equations; lia.
  - pose proof (alive_extent g (alive_coords_nonempty g E)) as X. cbv zeta in X.
    destruct X as (Hy & HY & Hx & HX & _).
    revert Hy HY Hx HX.
    generalize (list_min (map fst (alive_coords g))) as a.
    generalize (list_max (map fst (alive_coords g))) as b.
    generalize (list_min (map snd (alive_coords g))) as c.
    generalize (list_max (map snd (alive_coords g))) as d.
    generalize (Z.of_nat (nrows g)) as ny. generalize (Z.of_nat (ncols g)) as nx.
    intros nx ny d c b a Hy HY Hx HX.
    split_bbox_tests; repeat split; Z.to_euclidean_division_equations; lia.
Qed.

Lemma get_active_bbox_covers (g : grid) (padding : Z) :
  (1 <= padding)%Z ->
  (list_max (map fst (alive_coords g)) - list_min (map fst (alive_coords g))
   + 2 * padding <= 800)%Z ->
  (list_max (map snd (alive_coords g)) - list_min (map snd (alive_coords g))
   + 2 * padding <= 800)%Z ->
  let '(min_y, max_y, min_x, max_x) := get_active_bbox g padding in
  forall i j, i < nrows g -> j < ncols g -> (0 < cell g i j)%Z ->
    (min_y <= Z.of_nat i < max_y)%Z /\ (min_x <= Z.of_nat j < max_x)%Z.
Proof.
  intros Hp Sy Sx. unfold get_active_bbox. cbv zeta.
  destruct (length (alive_coords g) =? 0) eqn:E.
  - cbv beta iota. intros i j Hi Hj Hc. exfalso.
    apply alive_coords_empty in E.
    assert (Hin : In (Z.of_nat i, Z.of_nat j) (alive_coords g))
      by (apply in_alive_coords; exists i, j; repeat split; auto).
    now rewrite E in Hin.
  - pose proof (alive_extent g (alive_coords_nonempty g E)) as X. cbv zeta in X.
    destruct X as (Hy & HY & Hx & HX & Hin).
    revert Sy Sx Hy HY Hx HX Hin.
    generalize (list_min (map fst (alive_coords g))) as a.
    generalize (list_max (map fst (alive_coords g))) as b.
    generalize (list_min (map snd (alive_coords g))) as c.
    generalize (list_max (map snd (alive_coords g))) as d.
    intros d c b a Sy Sx Hy HY Hx HX Hin.
    assert (Hin' : forall i j, i < nrows g -> j < ncols g -> (0 < cell g i j)%Z ->
              (a <= Z.of_nat i <= b)%Z /\ (c <= Z.of_nat j <= d)%Z /\
              (Z.of_nat i < Z.of_nat (nrows g))%Z /\ (Z.of_nat j < Z.of_nat (ncols g))%Z).
    { intros i j Hi Hj Hc. destruct (Hin i j Hi Hj Hc). repeat split; lia. }
    clear Hin. revert Hin' HY HX.
    generalize (Z.of_nat (nrows g)) as ny. generalize (Z.of_nat (ncols g)) as nx.
    intros nx ny Hin HY HX.
    split_bbox_tests; intros i j Hi Hj Hc;
      destruct (Hin i j Hi Hj Hc) as (Ii & Ij & Bi & Bj);
      revert Ii Ij Bi Bj; generalize (Z.of_nat i) as zi; generalize (Z.of_nat j) as zj;
      intros zj zi Ii Ij Bi Bj; clear Hin;
      split; Z.to_euclidean_division_equations; lia.
Qed.

Lemma get_active_bbox_expanding_covers (g : grid) (padding : Z) :
  (1 <= padding)%Z ->
  let '(min_y, max_y, min_x, max_x) := get_active_bbox_expanding g padding in
  forall i j, i < nrows g -> j < ncols g -> (0 < cell g i j)%Z ->
    (0 <= min_y <= Z.of_nat i)%Z /\ (Z.of_nat i < max_y <= Z.of_nat (nrows g))%Z /\
    (0 <= min_x <= Z.of_nat j)%Z /\ (Z.of_nat j < max_x <= Z.of_nat (ncols g))%Z.
Proof.
  intros Hp. unfold get_active_bbox_expanding. cbv zeta.
  destruct (length (alive_coords g) =? 0) eqn:E.
  - cbv beta iota. intros i j Hi Hj Hc. exfalso.
    apply alive_coords_empty in E.
    assert (Hin : In (Z.of_nat i, Z.of_nat j) (alive_coords g))
      by (apply in_alive_coords; exists i, j; repeat split; auto).
    now rewrite E in Hin.
  - pose proof (alive_extent g (alive_coords_nonempty g E)) as X. cbv zeta in X.
    destruct X as (Hy & HY & Hx & HX & Hin).
    intros i j Hi Hj Hc. destruct (Hin i j Hi Hj Hc). lia.
Qed.

Lemma fixed_window_size (target : Z) (g : grid) :
  (0 < target)%Z -> Z.even target = true ->
  let '(min_y, max_y, min_x, max_x) :=
    fixed_window target (Z.of_nat (nrows g)) (Z.of_nat (ncols g)) g in
  (0 <= min_y)%Z /\ (max_y <= Z.of_nat (nrows g))%Z /\
  (max_y - min_y = Z.min (Z.of_nat (nrows g)) target)%Z /\
  (0 <= min_x)%Z /\ (max_x <= Z.of_nat (ncols g))%Z /\
  (max_x - min_x = Z.min (Z.of_nat (ncols g)) target)%Z.
Proof.
  intros Ht Hev. unfold fixed_window.
  pose proof (get_active_bbox_window g 50 ltac:(lia)) as W.
  destruct (get_active_bbox g 50) as [[[a b] c] d].
  destruct W as (Wy & WY & _ & Wx & WX & _).
  apply Z.even_spec in Hev. destruct Hev as [h Eh]. subst target.
  replace (2 * h / 2)%Z with h
    by (symmetry; rewrite Z.mul_comm; apply Z.div_mul; lia).
  revert Wy WY Wx WX.
  generalize (Z.of_nat (nrows g)) as ny. generalize (Z.of_nat (ncols g)) as nx.
  intros nx ny Wy WY Wx WX. cbv zeta.
  split_bbox_tests; repeat split; Z.to_euclidean_division_equations; lia.
Qed.

Lemma nth_last (l : list Z) : l <> [] -> nth (length l - 1) l 0%Z = last l 0%Z.
Proof.
  induction l as [|a t IH]; [congruence|]. intros _.
  destruct t as [|b t]; [reflexivity|].
  cbn [length last]. replace (S (S (length t)) - 1) with (S (length (b :: t) - 1))
    by (simpl; lia).
  cbn [nth]. apply IH. discriminate.
Qed.

Lemma view_sizes_loop (max_size : Z) (reqs vs : list Z) :
  vs <> [] ->
  (last vs 0 <= max_size)%Z ->
  (forall k, S k < length vs ->
     (nth k vs 0 <= nth (S k) vs 0 <= nth k vs 0 + 50)%Z /\ (nth (S k) vs 0 <= max_size)%Z) ->
  let vs' :=
    fold_left
      (fun view_sizes req_size =>
         let new_size := Z.max (last view_sizes 0%Z)
                               (Z.min req_size (last view_sizes 0%Z + 50)) in
         let new_size := Z.min new_size max_size in
         view_sizes ++ [new_size]) reqs vs in
  length vs' = length vs + length reqs /\
  nth 0 vs' 0%Z = nth 0 vs 0%Z /\
  forall k, S k < length vs' ->
    (nth k vs' 0 <= nth (S k) vs' 0 <= nth k vs' 0 + 50)%Z /\ (nth (S k) vs' 0 <= max_size)%Z.
Proof.
  revert vs. induction reqs as [|r t IH]; intros vs Hne Hlast Hinv.
  - cbn [fold_left]. split; [simpl; lia|]. split; auto.
  - cbn [fold_left]. cbv zeta.
    set (new := Z.min (Z.max (last vs 0%Z) (Z.min r (last vs 0%Z + 50))) max_size).
    assert (Hl : 0 < length vs) by (destruct vs; [congruence | simpl; lia]).
    destruct (IH (vs ++ [new])) as (L & N0 & Inv).
    + destruct vs; discriminate.
    + rewrite last_last. unfold new. lia.
    + intros k Hk. rewrite length_app in Hk. cbn [length] in Hk.
      destruct (Nat.eq_dec (S k) (length vs)) as [E|E].
      * rewrite (app_nth1 vs [new] 0%Z (n := k)) by lia.
        rewrite (app_nth2 vs [new] 0%Z (n := S k)) by lia.
        rewrite E, Nat.sub_diag. cbn [nth].
        replace k with (length vs - 1) by lia. rewrite nth_last by auto.
        unfold new. lia.
      * rewrite !app_nth1 by lia. apply Hinv. lia.
    + cbv zeta in L, N0, Inv |- *.
      split; [rewrite L, length_app; simpl; lia|]. split; [|exact Inv].
      rewrite N0. now rewrite app_nth1 by lia.
Qed.

(** X12.  [get_active_bbox] of [visualize_local.py] always returns a
    window of the grid.  For every [ny] x [nx] grid and every
    [padding >= 0] the four numbers satisfy [0 <= min_y <= max_y <= ny]
    and [0 <= min_x <= max_x <= nx], so they are valid slice bounds, and
    the window is at most 800 cells high and wide -- with live cells or
    without. *)
Theorem get_active_bbox_is_a_window :
  forall (ny nx : nat) (g : grid) (padding : Z),
    has_shape ny nx g = true -> 0 < ny -> (0 <= padding)%Z ->
    let '(min_y, max_y, min_x, max_x) := get_active_bbox g padding in
    (0 <= min_y <= max_y)%Z /\ (max_y <= Z.of_nat ny)%Z /\
    (max_y - min_y <= 800)%Z /\
    (0 <= min_x <= max_x)%Z /\ (max_x <= Z.of_nat nx)%Z /\
    (max_x - min_x <= 800)%Z.
Proof.
  intros ny nx g padding S Hny Hp. apply has_shape_shape in S.
  destruct (shape_dims ny nx g Hny S) as [<- <-].
  now apply get_active_bbox_window.
Qed.

Lemma get_active_bbox_is_a_window_witness :
  let '(min_y, max_y, min_x, max_x) := get_active_bbox example_soup 50 in
  (0 <= min_y <= max_y)%Z /\ (max_y <= Z.of_nat 5)%Z /\
  (max_y - min_y <= 800)%Z /\
  (0 <= min_x <= max_x)%Z /\ (max_x <= Z.of_nat 6)%Z /\
  (max_x - min_x <= 800)%Z.
Proof.
  apply (get_active_bbox_is_a_window 5 6 example_soup 50); [reflexivity | lia | lia].
Defined.

(** X13.  The bounding boxes enclose the live cells.  On an [ny] x [nx]
    grid and with a padding of at least 1, every live cell [(i, j)]
    satisfies [min_y <= i < max_y] and [min_x <= j < max_x] for the box of
    [deliverables/visualize.py], which also lies inside the grid; the same
    holds for the box of [visualize_local.py] as long as the live cells,
    padding included, span at most 800 rows and 800 columns (beyond that
    the box is cut down to 800 around its centre). *)
Theorem bounding_boxes_cover_live_cells :
  forall (ny nx : nat) (g : grid) (padding : Z),
    has_shape ny nx g = true -> 0 < ny -> (1 <= padding)%Z ->
    (let '(min_y, max_y, min_x, max_x) := get_active_bbox_expanding g padding in
     forall i j, i < ny -> j < nx -> (0 < cell g i j)%Z ->
       (0 <= min_y <= Z.of_nat i)%Z /\ (Z.of_nat i < max_y <= Z.of_nat ny)%Z /\
       (0 <= min_x <= Z.of_nat j)%Z /\ (Z.of_nat j < max_x <= Z.of_nat nx)%Z)
    /\
    ((list_max (map fst (alive_coords g)) - list_min (map fst (alive_coords g))
      + 2 * padding <= 800)%Z ->
     (list_max (map snd (alive_coords g)) - list_min (map snd (alive_coords g))
      + 2 * padding <= 800)%Z ->
     let '(min_y, max_y, min_x, max_x) := get_active_bbox g padding in
     forall i j, i < ny -> j < nx -> (0 < cell g i j)%Z ->
       (min_y <= Z.of_nat i < max_y)%Z /\ (min_x <= Z.of_nat j < max_x)%Z).
Proof.
  intros ny nx g padding S Hny Hp. apply has_shape_shape in S.
  destruct (shape_dims ny nx g Hny S) as [<- <-]. split.
  - now apply get_active_bbox_expanding_covers.
  - intros Sy Sx. now apply get_active_bbox_covers.
Qed.

Lemma bounding_boxes_cover_live_cells_witness :
  (let '(min_y, max_y, min_x, max_x) := get_active_bbox_expanding example_soup 20 in
   forall i j, i < 5 -> j < 6 -> (0 < cell example_soup i j)%Z ->
     (0 <= min_y <= Z.of_nat i)%Z /\ (Z.of_nat i < max_y <= Z.of_nat 5)%Z /\
     (0 <= min_x <= Z.of_nat j)%Z /\ (Z.of_nat j < max_x <= Z.of_nat 6)%Z)
  /\
  (let '(min_y, max_y, min_x, max_x) := get_active_bbox example_soup 20 in
   forall i j, i < 5 -> j < 6 -> (0 < cell example_soup i j)%Z ->
     (min_y <= Z.of_nat i < max_y)%Z /\ (min_x <= Z.of_nat j < max_x)%Z).
Proof.
  destruct (bounding_boxes_cover_live_cells 5 6 example_soup 20 eq_refl
              ltac:(lia) ltac:(lia)) as [H1 H2].
  split; [exact H1|]. apply H2; vm_compute; discriminate.
Defined.

(** With no padding the last live row and column fall outside the box
    (the upper bounds are used as exclusive slice ends); on a grid
    without live cells the box of [deliverables/visualize.py] is not
    clamped to the grid. *)
Example bounding_box_edge_cases :
  get_active_bbox_expanding example_blinker 0 = (1, 1, 0, 2)%Z
  /\ get_active_bbox_expanding (zeros2 4 4) 20 = (-48, 52, -48, 52)%Z
  /\ get_active_bbox (zeros2 4 4) 50 = (0, 4, 0, 4)%Z.
Proof. repeat split. Qed.

(** X14.  The zoom window of the two animations of [visualize_local.py]
    has the same size on every frame.  For an even target size (600 and
    800 in the source) and a frame of [ny] x [nx] cells, the window lies
    inside the frame and is exactly [min(ny, target)] cells high and
    [min(nx, target)] wide, wherever the live cells are. *)
Theorem fixed_window_has_fixed_size :
  forall (ny nx : nat) (target : Z) (g : grid),
    has_shape ny nx g = true -> 0 < ny ->
    (0 < target)%Z -> Z.even target = true ->
    let '(min_y, max_y, min_x, max_x) :=
      fixed_window target (Z.of_nat ny) (Z.of_nat nx) g in
    (0 <= min_y)%Z /\ (max_y <= Z.of_nat ny)%Z /\
    (max_y - min_y = Z.min (Z.of_nat ny) target)%Z /\
    (0 <= min_x)%Z /\ (max_x <= Z.of_nat nx)%Z /\
    (max_x - min_x = Z.min (Z.of_nat nx) target)%Z.
Proof.
  intros ny nx target g S Hny Ht He. apply has_shape_shape in S.
  destruct (shape_dims ny nx g Hny S) as [<- <-].
  now apply fixed_window_size.
Qed.

Lemma fixed_window_has_fixed_size_witness :
  let '(min_y, max_y, min_x, max_x) :=
    fixed_window 600 (Z.of_nat 5) (Z.of_nat 6) example_soup in
  (0 <= min_y)%Z /\ (max_y <= Z.of_nat 5)%Z /\
  (max_y - min_y = Z.min (Z.of_nat 5) 600)%Z /\
  (0 <= min_x)%Z /\ (max_x <= Z.of_nat 6)%Z /\
  (max_x - min_x = Z.min (Z.of_nat 6) 600)%Z.
Proof.
  apply (fixed_window_has_fixed_size 5 6 600 example_soup);
    [reflexivity | lia | lia | reflexivity].
Defined.

(** X15.  The view of the expanding animation never shrinks and never
    jumps.  When [initial_size <= max_size], [view_sizes] has one entry
    per frame, starts at [initial_size], and each entry is at least the
    one before, at most 50 more, and at most [max_size]. *)
Theorem view_sizes_grow_smoothly :
  forall (initial_size max_size : Z) (required_sizes : list Z),
    (initial_size <= max_size)%Z ->
    let vs := view_sizes initial_size max_size required_sizes in
    length vs = Nat.max 1 (length required_sizes) /\
    nth 0 vs 0%Z = initial_size /\
    forall k, S k < length vs ->
      (nth k vs 0 <= nth (S k) vs 0 <= nth k vs 0 + 50)%Z /\
      (nth (S k) vs 0 <= max_size)%Z.
Proof.
  intros initial_size max_size required_sizes H. unfold view_sizes.
  destruct (view_sizes_loop max_size (tl required_sizes) [initial_size])
    as (L & N0 & Inv).
  - discriminate.
  - simpl. lia.
  - intros k Hk. simpl in Hk. lia.
  - cbv zeta in L, N0, Inv |- *. split; [|split; [exact N0 | exact Inv]].
    rewrite L. destruct required_sizes; simpl; lia.
Qed.

Lemma view_sizes_grow_smoothly_witness :
  let vs := view_sizes 400 2000 [900; 410; 380; 700; 5000]%Z in
  length vs = Nat.max 1 (length [900; 410; 380; 700; 5000]%Z) /\
  nth 0 vs 0%Z = 400%Z /\
  forall k, S k < length vs ->
    (nth k vs 0 <= nth (S k) vs 0 <= nth k vs 0 + 50)%Z /\
    (nth (S k) vs 0 <= 2000)%Z.
Proof.
  apply (view_sizes_grow_smoothly 400 2000 [900; 410; 380; 700; 5000]%Z). lia.
Defined.

Example view_sizes_example :
  view_sizes 400 2000 [900; 410; 380; 700; 5000]%Z = [400; 410; 410; 460; 510]%Z
  /\ view_sizes 400 300 [0; 0]%Z = [400; 300]%Z.
Proof. split; reflexivity. Qed.

(** ** Snapshot file names *)

Lemma nat_of_digit_char (d : nat) :
  d < 10 -> Ascii.nat_of_ascii (digit_char d) = 48 + d.
Proof. intros H. unfold digit_char. apply Ascii.nat_ascii_embedding. lia. Qed.

Lemma digit_value_digit_char (d : nat) :
  d < 10 -> digit_value (digit_char d) = Some d.
Proof.
  intros H. unfold digit_value. rewrite nat_of_digit_char by auto. cbv zeta.
  replace ((48 <=? 48 + d) && (48 + d <=? 57)) with true
    by (symmetry; apply andb_true_intro; split; apply Nat.leb_le; lia).
  f_equal. lia.
Qed.

Lemma digit_char_not (d n : nat) :
  d < 10 -> n < 48 \/ 57 < n -> n < 256 ->
  Ascii.eqb (digit_char d) (Ascii.ascii_of_nat n) = false.
Proof.
  intros Hd Hn Hb. destruct (Ascii.eqb_spec (digit_char d) (Ascii.ascii_of_nat n)) as [E|]; auto.
  apply (f_equal Ascii.nat_of_ascii) in E.
  rewrite nat_of_digit_char, Ascii.nat_ascii_embedding in E by auto. lia.
Qed.

Lemma decimal_digits_acc (fuel n : nat) (acc : str) :
  decimal_digits fuel n acc = decimal_digits fuel n [] ++ acc.
Proof.
  revert n acc. induction fuel as [|f IH]; intros n acc; [reflexivity|].
  cbn [decimal_digits]. cbv zeta. destruct (n / 10 =? 0); [reflexivity|].
  rewrite (IH (n / 10) (digit_char (n mod 10) :: acc)).
  rewrite (IH (n / 10) [digit_char (n mod 10)]).
  now rewrite <- app_assoc.
Qed.

Lemma int_digits_app (s t : str) (acc : nat) :
  int_digits (s ++ t) acc
  = match int_digits s acc with Some v => int_digits t v | None => None end.
Proof.
  revert acc. induction s as [|c s IH]; intros acc; [reflexivity|].
  cbn [app int_digits]. unfold bind. destruct (digit_value c); auto.
Qed.

(** The digits of [n]: a non-empty string of digit characters, at most
    [k] of them when [n < 10 ^ k], that reads back as [n]. *)
Lemma decimal_digits_spec (fuel n : nat) :
  n < fuel ->
  decimal_digits fuel n [] <> []
  /\ Forall (fun c => exists d, d < 10 /\ c = digit_char d) (decimal_digits fuel n [])
  /\ int_digits (decimal_digits fuel n []) 0 = Some n
  /\ forall k, 0 < k -> n < 10 ^ k -> length (decimal_digits fuel n []) <= k.
Proof.
  revert n. induction fuel as [|f IH]; intros n Hn; [lia|].
  cbn [decimal_digits]. cbv zeta.
  pose proof (Nat.mod_upper_bound n 10 ltac:(lia)) as Hm.
  pose proof (Nat.div_mod_eq n 10) as Hdm.
  destruct (Nat.eqb_spec (n / 10) 0) as [E|E].
  - split; [discriminate|]. split.
    + constructor; [|constructor]. exists (n mod 10). auto.
    + split.
      * cbn [int_digits]. rewrite digit_value_digit_char by auto. unfold bind.
        f_equal. lia.
      * intros k Hk _. simpl. lia.
  - assert (Hf : n / 10 < f) by lia.
    destruct (IH (n / 10) Hf) as (Hne & Hall & Hval & Hlen).
    rewrite decimal_digits_acc. split.
    + destruct (decimal_digits f (n / 10) []); [congruence|discriminate].
    + split.
      * apply Forall_app. split; [exact Hall|].
        constructor; [|constructor]. exists (n mod 10). auto.
      * split.
        -- rewrite int_digits_app, Hval. cbn [int_digits].
           rewrite digit_value_digit_char by auto. unfold bind. f_equal. lia.
        -- intros k Hk Hlt. rewrite length_app. cbn [length].
           destruct k as [|k]; [lia|].
           destruct k as [|k]; [simpl in Hlt; lia|].
           assert (length (decimal_digits f (n / 10) []) <= S k).
           { apply Hlen; [lia|]. rewrite Nat.pow_succ_r' in Hlt.
             apply Nat.Div0.div_lt_upper_bound. exact Hlt. }
           lia.
Qed.

Lemma int_digits_zeros (m : nat) (s : str) :
  int_digits (repeat (digit_char 0) m ++ s) 0 = int_digits s 0.
Proof.
  induction m as [|m IH]; [reflexivity|].
  cbn [repeat app int_digits]. rewrite digit_value_digit_char by lia. exact IH.
Qed.

Lemma format_06d_spec (step : nat) :
  format_06d step <> []
  /\ Forall (fun c => exists d, d < 10 /\ c = digit_char d) (format_06d step)
  /\ int_digits (format_06d step) 0 = Some step
  /\ (step < 10 ^ 6 -> length (format_06d step) = 6).
Proof.
  unfold format_06d, str_of_nat. cbv zeta.
  destruct (decimal_digits_spec (S step) step ltac:(lia)) as (Hne & Hall & Hval & Hlen).
  split.
  { intros E. apply app_eq_nil in E. now destruct E. }
  split.
  { apply Forall_app. split; [|exact Hall].
    apply Forall_forall. intros c Hc. apply repeat_spec in Hc. exists 0. split; [lia|auto]. }
  split.
  { now rewrite int_digits_zeros. }
  intros Hlt. specialize (Hlen 6 ltac:(lia) Hlt).
  rewrite length_app, repeat_length. lia.
Qed.

Lemma digits_without (n : nat) (s : str) :
  n < 48 \/ 57 < n -> n < 256 ->
  Forall (fun c => exists d, d < 10 /\ c = digit_char d) s ->
  existsb (fun c => Ascii.eqb c (Ascii.ascii_of_nat n)) s = false.
Proof.
  intros Hn Hb H. induction H as [|c s (d & Hd & ->) _ IH]; [reflexivity|].
  cbn [existsb]. rewrite digit_char_not by auto. exact IH.
Qed.

Lemma basename_plain (name : str) :
  existsb is_sep name = false -> basename name = name.
Proof.
  induction name as [|c t IH]; intros E; [reflexivity|].
  cbn [existsb] in E. apply orb_false_iff in E. destruct E as [Ec Et].
  cbn [basename]. now rewrite Et, Ec.
Qed.

Lemma basename_after_sep (a name : str) :
  existsb is_sep name = false -> basename (a ++ sep :: name) = name.
Proof.
  intros E. induction a as [|c a IH].
  - cbn [app basename]. rewrite E. unfold is_sep. now rewrite Ascii.eqb_refl.
  - cbn [app basename].
    replace (existsb is_sep (a ++ sep :: name)) with true; [exact IH|].
    symmetry. rewrite existsb_app. cbn [existsb]. unfold is_sep at 2.
    rewrite Ascii.eqb_refl. simpl. apply orb_true_r.
Qed.

(** [os.path.join] puts the same prefix in front of every relative name,
    and [os.path.basename] takes it off again. *)
Lemma path_join_prefix (a : str) :
  exists prefix,
    forall b, starts_with_sep b = false ->
      path_join a b = prefix ++ b
      /\ (existsb is_sep b = false -> basename (path_join a b) = b).
Proof.
  unfold path_join.
  destruct (Nat.eqb_spec (length a) 0) as [E|E].
  - apply length_zero_iff_nil in E. subst a. exists [].
    intros b Hb. rewrite Hb. cbn [orb app]. split; [reflexivity|apply basename_plain].
  - cbn [orb]. destruct (rev a) as [|d r] eqn:Er.
    + apply (f_equal (@rev _)) in Er. rewrite rev_involutive in Er. subst a.
      simpl in E. congruence.
    + cbn [starts_with_sep]. destruct (is_sep d) eqn:Ed.
      * exists a. intros b Hb. rewrite Hb. split; [reflexivity|].
        intros Hn. apply (f_equal (@rev _)) in Er. rewrite rev_involutive in Er.
        cbn [rev] in Er. unfold is_sep in Ed. apply Ascii.eqb_eq in Ed. subst d a.
        rewrite <- app_assoc. cbn [app]. now apply basename_after_sep.
      * exists (a ++ [sep]). intros b Hb. rewrite Hb. rewrite <- app_assoc. cbn [app].
        split; [reflexivity|]. intros Hn. now apply basename_after_sep.
Qed.

Lemma split_plain (c : Ascii.ascii) (s : str) :
  existsb (fun a => Ascii.eqb a c) s = false -> split c s = [s].
Proof.
  induction s as [|a t IH]; intros E; [reflexivity|].
  cbn [existsb] in E. apply orb_false_iff in E. destruct E as [Ea Et].
  cbn [split]. now rewrite Ea, (IH Et).
Qed.

Lemma split_at (c : Ascii.ascii) (s t : str) :
  existsb (fun a => Ascii.eqb a c) s = false ->
  split c (s ++ c :: t) = s :: split c t.
Proof.
  induction s as [|a s IH]; intros E.
  - cbn [app split]. now rewrite Ascii.eqb_refl.
  - cbn [existsb] in E. apply orb_false_iff in E. destruct E as [Ea Es].
    cbn [app split]. now rewrite Ea, (IH Es).
Qed.

Lemma step_of_snapshot_filename (output_dir : str) (step : nat) :
  step_of_filename (snapshot_filename output_dir step) = Some step.
Proof.
  destruct (format_06d_spec step) as (Hne & Hall & Hval & _).
  destruct (path_join_prefix output_dir) as (prefix & Hp).
  unfold snapshot_filename, step_of_filename.
  set (name := lit "step_" ++ format_06d step ++ lit ".npz").
  destruct (Hp name eq_refl) as [_ Hb].
  assert (Dsep : existsb is_sep (format_06d step) = false)
    by (apply (digits_without 47); auto; lia).
  assert (Dus : existsb (fun a => Ascii.eqb a (Ascii.ascii_of_nat 95)) (format_06d step)
                = false) by (apply (digits_without 95); auto; lia).
  assert (Ddot : existsb (fun a => Ascii.eqb a (Ascii.ascii_of_nat 46)) (format_06d step)
                 = false) by (apply (digits_without 46); auto; lia).
  rewrite Hb.
  2:{ unfold name. rewrite !existsb_app, Dsep. reflexivity. }
  unfold name.
  change (lit "step_" ++ format_06d step ++ lit ".npz")
    with (lit "step" ++ Ascii.ascii_of_nat 95 :: (format_06d step ++ lit ".npz")).
  rewrite split_at by reflexivity.
  rewrite split_plain by (rewrite existsb_app, Dus; reflexivity).
  change (format_06d step ++ lit ".npz")
    with (format_06d step ++ Ascii.ascii_of_nat 46 :: lit "npz").
  rewrite split_at by exact Ddot.
  unfold int_of_str. destruct (format_06d step); [congruence|exact Hval].
Qed.

Lemma str_ltb_prefix (p s t : str) : str_ltb (p ++ s) (p ++ t) = str_ltb s t.
Proof.
  induction p as [|c p IH]; [reflexivity|]. cbn [app str_ltb].
  now rewrite Nat.ltb_irrefl, Nat.eqb_refl, IH.
Qed.

Lemma str_ltb_irrefl (s : str) : str_ltb s s = false.
Proof.
  induction s as [|c s IH]; [reflexivity|]. cbn [str_ltb].
  now rewrite Nat.ltb_irrefl, Nat.eqb_refl, IH.
Qed.

Lemma str_ltb_asym (s t : str) : str_ltb s t = true -> str_ltb t s = false.
Proof.
  revert t. induction s as [|c s IH]; intros [|d t] H; try reflexivity;
    try discriminate.
  cbn [str_ltb] in *.
  destruct (Nat.ltb_spec (Ascii.nat_of_ascii c) (Ascii.nat_of_ascii d)) as [Hlt|Hge].
  - replace (Ascii.nat_of_ascii d <? Ascii.nat_of_ascii c) with false
      by (symmetry; apply Nat.ltb_ge; lia).
    replace (Ascii.nat_of_ascii d =? Ascii.nat_of_ascii c) with false
      by (symmetry; apply Nat.eqb_neq; lia).
    reflexivity.
  - cbn [orb] in H. apply andb_true_iff in H. destruct H as [He Hr].
    apply Nat.eqb_eq in He. rewrite He, Nat.ltb_irrefl, Nat.eqb_refl.
    cbn [orb andb]. now apply IH.
Qed.

Lemma int_digits_value (s : str) :
  Forall (fun c => exists d, d < 10 /\ c = digit_char d) s ->
  exists v, v < 10 ^ length s /\
            forall acc, int_digits s acc = Some (acc * 10 ^ length s + v).
Proof.
  induction 1 as [|c s (d & Hd & ->) _ (v & Hv & IH)].
  - exists 0. split; [simpl; lia|]. intros acc. simpl. f_equal. lia.
  - exists (d * 10 ^ length s + v). split.
    + cbn [length]. rewrite Nat.pow_succ_r'. nia.
    + intros acc. cbn [int_digits]. rewrite digit_value_digit_char by auto.
      unfold bind. rewrite IH. f_equal. cbn [length]. rewrite Nat.pow_succ_r'. nia.
Qed.

(** Between strings of digits of the same length the order of the
    strings is the order of the numbers, whatever follows the digits. *)
Lemma digits_ltb (u v r r' : str) (a b : nat) :
  Forall (fun c => exists d, d < 10 /\ c = digit_char d) u ->
  Forall (fun c => exists d, d < 10 /\ c = digit_char d) v ->
  length u = length v ->
  int_digits u 0 = Some a -> int_digits v 0 = Some b -> a < b ->
  str_ltb (u ++ r) (v ++ r') = true.
Proof.
  intros Hu. revert v a b. induction Hu as [|c u (d & Hd & ->) Hu IH];
    intros v a b Hv L Ea Eb Hab.
  - destruct v; [|discriminate]. simpl in Ea, Eb.
    injection Ea as <-. injection Eb as <-. lia.
  - destruct v as [|c' v]; [discriminate|].
    inversion Hv as [|? ? (d' & Hd' & ->) Hv']; subst.
    injection L as L.
    destruct (int_digits_value u Hu) as (x & Hx & Vu).
    destruct (int_digits_value v Hv') as (y & Hy & Vv).
    cbn [int_digits] in Ea, Eb.
    rewrite digit_value_digit_char in Ea, Eb by auto. unfold bind in Ea, Eb.
    rewrite Vu in Ea. rewrite Vv in Eb. injection Ea as <-. injection Eb as <-.
    assert (Eu : int_digits u 0 = Some x) by (rewrite (Vu 0); f_equal; lia).
    assert (Ev : int_digits v 0 = Some y) by (rewrite (Vv 0); f_equal; lia).
    rewrite <- L in Hy, Hab.
    cbn [app str_ltb]. rewrite !nat_of_digit_char by auto.
    destruct (Nat.ltb_spec (48 + d) (48 + d')) as [Hlt|Hge]; [reflexivity|].
    assert (d = d') by nia. subst d'. rewrite Nat.eqb_refl. cbn [orb andb].
    apply (IH v x y Hv' L Eu Ev). nia.
Qed.

Lemma snapshot_filename_ltb (output_dir : str) (a b : nat) :
  a < 10 ^ 6 -> b < 10 ^ 6 ->
  str_ltb (snapshot_filename output_dir a) (snapshot_filename output_dir b)
  = (a <? b).
Proof.
  intros Ha Hb.
  assert (M : forall a b, a < 10 ^ 6 -> b < 10 ^ 6 -> a < b ->
              str_ltb (snapshot_filename output_dir a) (snapshot_filename output_dir b)
              = true).
  { clear a b Ha Hb. intros a b Ha Hb Hab.
    destruct (format_06d_spec a) as (_ & Fa & Va & La).
    destruct (format_06d_spec b) as (_ & Fb & Vb & Lb).
    destruct (path_join_prefix output_dir) as (prefix & Hp).
    unfold snapshot_filename.
    rewrite (proj1 (Hp (lit "step_" ++ format_06d a ++ lit ".npz") eq_refl)).
    rewrite (proj1 (Hp (lit "step_" ++ format_06d b ++ lit ".npz") eq_refl)).
    rewrite !str_ltb_prefix.
    apply (digits_ltb _ _ _ _ a b); auto. rewrite La, Lb; auto. }
  destruct (Nat.ltb_spec a b) as [Hlt|Hge]; [now apply M|].
  destruct (Nat.eq_dec a b) as [->|Hne]; [apply str_ltb_irrefl|].
  apply str_ltb_asym. apply M; auto. lia.
Qed.

(** *** Sorting *)

Lemma in_insert_sorted (A : Type) (ltb : A -> A -> bool) (a x : A) (l : list A) :
  In x (insert_sorted ltb a l) <-> x = a \/ In x l.
Proof.
  induction l as [|b t IH]; cbn [insert_sorted].
  - simpl. intuition.
  - destruct (ltb b a); cbn [In]; [rewrite IH|]; intuition.
Qed.

Lemma in_sorted (A : Type) (ltb : A -> A -> bool) (x : A) (l : list A) :
  In x (sorted ltb l) <-> In x l.
Proof.
  induction l as [|a t IH]; cbn [sorted]; [reflexivity|].
  rewrite in_insert_sorted, IH. cbn [In]. intuition.
Qed.

Lemma insert_sorted_map (A B : Type) (ltb : A -> A -> bool) (ltb' : B -> B -> bool)
      (f : A -> B) (a : A) (l : list A) :
  (forall x, In x l -> ltb' (f x) (f a) = ltb x a) ->
  insert_sorted ltb' (f a) (map f l) = map f (insert_sorted ltb a l).
Proof.
  induction l as [|b t IH]; intros H; [reflexivity|].
  cbn [map insert_sorted]. rewrite (H b) by (now left).
  destruct (ltb b a); [|reflexivity].
  cbn [map]. f_equal. apply IH. intros x Hx. apply H. now right.
Qed.

(** Sorting commutes with a map that preserves the comparison. *)
Lemma sorted_map (A B : Type) (ltb : A -> A -> bool) (ltb' : B -> B -> bool)
      (f : A -> B) (l : list A) :
  (forall x y, In x l -> In y l -> ltb' (f x) (f y) = ltb x y) ->
  sorted ltb' (map f l) = map f (sorted ltb l).
Proof.
  induction l as [|a t IH]; intros H; [reflexivity|].
  cbn [map sorted]. rewrite IH by (intros; apply H; now right).
  apply insert_sorted_map. intros x Hx. apply in_sorted in Hx.
  apply H; [now right|now left].
Qed.

Lemma insert_sorted_nat (a : nat) (l : list nat) :
  Sorted le l -> Sorted le (insert_sorted Nat.ltb a l) /\
                 Permutation (a :: l) (insert_sorted Nat.ltb a l).
Proof.
  induction l as [|b t IH]; intros S; cbn [insert_sorted].
  - split; [repeat constructor|apply Permutation_refl].
  - inversion S as [|? ? St Hd]; subst.
    destruct (Nat.ltb_spec b a) as [Hlt|Hge].
    + destruct (IH St) as [S' P]. split.
      * constructor; [exact S'|].
        destruct (insert_sorted Nat.ltb a t) as [|c u] eqn:E; constructor.
        assert (Hc : In c (a :: t)).
        { apply (Permutation_in c (Permutation_sym P)). now left. }
        destruct Hc as [<-|Hc]; [lia|].
        destruct t as [|c' t']; [contradiction|].
        inversion Hd; subst.
        apply Sorted_StronglySorted in St; [|intros x y z; lia].
        inversion St as [|? ? _ Hall]; subst.
        destruct Hc as [<-|Hc]; [lia|].
        rewrite Forall_forall in Hall. specialize (Hall c Hc). lia.
      * eapply Permutation_trans; [apply perm_swap|]. now constructor.
    + split; [|apply Permutation_refl].
      constructor; [exact S|]. constructor. lia.
Qed.

Lemma sorted_nat (l : list nat) :
  Sorted le (sorted Nat.ltb l) /\ Permutation l (sorted Nat.ltb l).
Proof.
  induction l as [|a t [S P]]; cbn [sorted].
  - split; constructor.
  - destruct (insert_sorted_nat a (sorted Nat.ltb t) S) as [S' P']. split; auto.
    eapply Permutation_trans; [|exact P']. now constructor.
Qed.

(** X16.  The step number survives the file name.  For every output
    directory and every step, the expression the visualisers use to read
    the step back,
    [int(os.path.basename(filename).split('_')[1].split('.')[0])],
    applied to the name [save_snapshot] writes to, returns that step --
    also when the directory name itself contains [_], [.] or [/], and for
    steps of more than six digits; hence snapshots of different steps are
    never written to the same file. *)
Theorem snapshot_step_round_trip :
  forall (output_dir : str) (step : nat),
    step_of_filename (snapshot_filename output_dir step) = Some step
    /\ forall step',
         snapshot_filename output_dir step' = snapshot_filename output_dir step ->
         step' = step.
Proof.
  intros output_dir step. split; [apply step_of_snapshot_filename|].
  intros step' E. apply (f_equal step_of_filename) in E.
  rewrite !step_of_snapshot_filename in E. congruence.
Qed.

Example snapshot_filename_examples :
  snapshot_filename (lit "snapshots") 100 = lit "snapshots/step_000100.npz"
  /\ snapshot_filename (lit "out_1/run.a/") 7 = lit "out_1/run.a/step_000007.npz"
  /\ snapshot_filename (lit "") 4321 = lit "step_004321.npz"
  /\ step_of_filename (lit "out_1/run.a/step_000007.npz") = Some 7.
Proof. repeat split; vm_compute; reflexivity. Qed.

Lemma six_digits (k : nat) : (Z.of_nat k < 10 ^ 6)%Z -> k < 10 ^ 6.
Proof. intros H. apply Nat2Z.inj_lt. rewrite Nat2Z.inj_pow. exact H. Qed.

Lemma load_snapshots_sorted (output_dir : str) (steps : list nat) (read : str -> grid) :
  0 < length steps -> Forall (fun k => (Z.of_nat k < 10 ^ 6)%Z) steps ->
  load_snapshots (map (snapshot_filename output_dir) steps) read
  = Some (map (fun k => (snapshot_filename output_dir k,
                         read (snapshot_filename output_dir k)))
              (sorted Nat.ltb steps)).
Proof.
  intros Hne Hall. unfold load_snapshots. cbv zeta.
  rewrite (sorted_map _ _ Nat.ltb str_ltb (snapshot_filename output_dir)).
  2:{ intros x y Hx Hy. rewrite Forall_forall in Hall.
      apply snapshot_filename_ltb; apply six_digits; auto. }
  destruct (sorted_nat steps) as [_ P].
  destruct (sorted Nat.ltb steps) as [|k t] eqn:E.
  - apply Permutation_length in P. simpl in P. lia.
  - cbn [map]. f_equal. now rewrite map_map.
Qed.

(** X17.  [load_snapshots] returns the frames in step order.  If the
    directory holds the snapshot files of the steps [steps] (in whatever
    order [glob] lists them) and every step is below 10^6, sorting the
    file names puts the frames in increasing order of step; the steps
    parsed back from the sorted names are the sorted steps. *)
Theorem load_snapshots_in_step_order :
  forall (output_dir : str) (steps : list nat) (read : str -> grid),
    0 < length steps -> Forall (fun k => (Z.of_nat k < 10 ^ 6)%Z) steps ->
    exists frames,
      load_snapshots (map (snapshot_filename output_dir) steps) read = Some frames /\
      map snd frames
      = map (fun k => read (snapshot_filename output_dir k)) (sorted Nat.ltb steps) /\
      map (fun f => step_of_filename (fst f)) frames
      = map Some (sorted Nat.ltb steps) /\
      Sorted le (sorted Nat.ltb steps) /\
      Permutation steps (sorted Nat.ltb steps).
Proof.
  intros output_dir steps read Hne Hall. eexists.
  split; [now apply load_snapshots_sorted|].
  rewrite !map_map. cbn [fst snd]. split; [reflexivity|]. split.
  - apply map_ext. intros k. apply step_of_snapshot_filename.
  - apply sorted_nat.
Qed.

Lemma load_snapshots_in_step_order_witness :
  exists frames,
    load_snapshots (map (snapshot_filename (lit "snapshots")) [200; 0; 300; 100])
                   (fun _ => example_soup) = Some frames /\
    map snd frames
    = map (fun k => (fun _ => example_soup) (snapshot_filename (lit "snapshots") k))
          (sorted Nat.ltb [200; 0; 300; 100]) /\
    map (fun f => step_of_filename (fst f)) frames
    = map Some (sorted Nat.ltb [200; 0; 300; 100]) /\
    Sorted le (sorted Nat.ltb [200; 0; 300; 100]) /\
    Permutation [200; 0; 300; 100] (sorted Nat.ltb [200; 0; 300; 100]).
Proof.
  apply (load_snapshots_in_step_order (lit "snapshots") [200; 0; 300; 100]
           (fun _ => example_soup)).
  - simpl. lia.
  - repeat constructor; lia.
Defined.

(** ** From the run to the frames *)

Lemma sorted_le_head (a : nat) (l : list nat) :
  Sorted le (a :: l) -> forall x, In x (a :: l) -> a <= x.
Proof.
  intros S x Hx. apply Sorted_StronglySorted in S; [|intros u v w; lia].
  inversion S as [|? ? _ Hall]; subst.
  destruct Hx as [<-|Hx]; [lia|].
  rewrite Forall_forall in Hall. now apply Hall.
Qed.

(** A list of numbers has one sorted arrangement. *)
Lemma sorted_le_unique (l1 l2 : list nat) :
  Sorted le l1 -> Sorted le l2 -> Permutation l1 l2 -> l1 = l2.
Proof.
  revert l2. induction l1 as [|a t IH]; intros l2 S1 S2 P.
  - apply Permutation_nil in P. now subst.
  - destruct l2 as [|b u].
    + apply Permutation_sym, Permutation_nil in P. discriminate.
    + assert (a = b).
      { pose proof (sorted_le_head a t S1 b
                      (Permutation_in b (Permutation_sym P) (or_introl eq_refl))).
        pose proof (sorted_le_head b u S2 a
                      (Permutation_in a P (or_introl eq_refl))).
        lia. }
      subst b. f_equal. apply IH.
      * now inversion S1.
      * now inversion S2.
      * now apply Permutation_cons_inv in P.
Qed.

Lemma sorted_permutation (l' l : list nat) :
  Permutation l' l -> Sorted le l -> sorted Nat.ltb l' = l.
Proof.
  intros P S. destruct (sorted_nat l') as [S' P'].
  apply sorted_le_unique; auto.
  eapply Permutation_trans; [apply Permutation_sym; exact P'|exact P].
Qed.

Lemma sorted_filter_seq (p : nat -> bool) (a n : nat) :
  Sorted le (filter p (seq a n)) /\ NoDup (filter p (seq a n)).
Proof.
  split.
  - apply StronglySorted_Sorted. revert a. induction n as [|n IH]; intros a.
    + constructor.
    + cbn [seq filter]. destruct (p a); [|apply IH].
      constructor; [apply IH|]. apply Forall_forall. intros x Hx.
      apply filter_In in Hx. destruct Hx as [Hx _]. apply in_seq in Hx. lia.
  - apply NoDup_filter. apply seq_NoDup.
Qed.

(** The steps whose files exist after a run: the multiples of the
    interval below [steps], then [steps] itself. *)
Lemma saved_steps_sorted (save_interval steps : nat) :
  let ks := filter (snapshot_due save_interval) (seq 0 steps) ++ [steps] in
  Sorted le ks /\ NoDup ks /\ (forall k, In k ks -> k <= steps) /\
  (forall k, In k ks <->
             In k (filter (snapshot_due save_interval) (seq 0 (S steps)) ++ [steps])).
Proof.
  intros ks. destruct (sorted_filter_seq (snapshot_due save_interval) 0 steps) as [S N].
  assert (B : forall k, In k (filter (snapshot_due save_interval) (seq 0 steps)) ->
                        k < steps).
  { intros k Hk. apply filter_In in Hk. destruct Hk as [Hk _].
    apply in_seq in Hk. lia. }
  split; [|split; [|split]].
  - unfold ks. apply StronglySorted_Sorted.
    apply Sorted_StronglySorted in S; [|intros u v w; lia].
    induction S as [|a t St IH Ha]; cbn [app].
    + repeat constructor.
    + constructor.
      * apply IH.
        -- now inversion N.
        -- intros k Hk. apply B. now right.
      * apply Forall_app. split; [exact Ha|].
        constructor; [|constructor]. specialize (B a (or_introl eq_refl)). lia.
  - unfold ks. apply NoDup_app; auto.
    + repeat constructor. intros [].
    + intros k Hk [<-|[]]. specialize (B _ Hk). lia.
  - unfold ks. intros k Hk. apply in_app_iff in Hk.
    destruct Hk as [Hk|[<-|[]]]; [specialize (B _ Hk)|]; lia.
  - intros k. unfold ks.
    rewrite seq_S, filter_app, !in_app_iff. cbn [Nat.add filter].
    destruct (snapshot_due save_interval steps); cbn [In]; intuition.
Qed.

Section Frames.

Variables (output_dir : str) (ny nx steps save_interval : nat) (G : grid).
Hypothesis Hsteps : (Z.of_nat steps < 10 ^ 6)%Z.

Local Abbreviation fn := (snapshot_filename output_dir).
Local Abbreviation Gk := (fun k => global_steps ny nx k G).
Local Abbreviation written :=
  (filter (snapshot_due save_interval) (seq 0 (S steps)) ++ [steps]).
Local Abbreviation run :=
  (expected_snapshots ny nx steps save_interval G, global_steps ny nx steps G).

Lemma snapshot_writes_run :
  snapshot_writes output_dir steps run = map (fun k => (fn k, Gk k)) written.
Proof.
  unfold snapshot_writes, expected_snapshots. cbn [fst snd].
  now rewrite map_map, map_app.
Qed.

Lemma fn_injective (a b : nat) : fn a = fn b -> a = b.
Proof.
  intros E. apply (f_equal step_of_filename) in E.
  rewrite !step_of_snapshot_filename in E. congruence.
Qed.

(** Every write to a name carries the generation the name says, so the
    file holds it whichever write came last. *)
Lemma file_content_run (k : nat) :
  In k written ->
  file_content (snapshot_writes output_dir steps run) (fn k) = Gk k.
Proof.
  intros Hk. rewrite snapshot_writes_run. unfold file_content.
  rewrite <- map_rev. apply in_rev in Hk. revert Hk.
  generalize (rev written) as l.
  induction l as [|a t IH]; intros Hk; [contradiction|].
  cbn [map find fst].
  destruct (str_eqb (fn a) (fn k)) eqn:E.
  - apply str_eqb_eq in E. apply fn_injective in E. now subst a.
  - destruct Hk as [->|Hk]; [|now apply IH].
    rewrite (proj2 (str_eqb_eq (fn k) (fn k)) eq_refl) in E. discriminate.
Qed.

Lemma frames_of_run (files : list str) :
  NoDup files ->
  (forall f, In f files <-> In f (map fst (snapshot_writes output_dir steps run))) ->
  load_snapshots files (file_content (snapshot_writes output_dir steps run))
  = Some (map (fun k => (fn k, Gk k))
              (filter (snapshot_due save_interval) (seq 0 steps) ++ [steps])).
Proof.
  intros ND Hfiles.
  destruct (saved_steps_sorted save_interval steps) as (S & N & B & W). cbv zeta in *.
  set (ks := filter (snapshot_due save_interval) (seq 0 steps) ++ [steps]) in *.
  assert (Names : map fst (snapshot_writes output_dir steps run) = map fn written).
  { rewrite snapshot_writes_run, map_map. reflexivity. }
  rewrite Names in Hfiles.
  pose (step_of := fun f => match step_of_filename f with Some k => k | None => 0 end).
  assert (Sof : forall k, step_of (fn k) = k).
  { intros k. unfold step_of. now rewrite step_of_snapshot_filename. }
  set (ks' := map step_of files).
  assert (Ef : files = map fn ks').
  { unfold ks'. rewrite map_map. rewrite <- (map_id files) at 1.
    apply map_ext_in. intros f Hf. apply Hfiles in Hf. apply in_map_iff in Hf.
    destruct Hf as (k & <- & _). now rewrite Sof. }
  assert (ND' : NoDup ks').
  { apply (NoDup_map_inv fn). now rewrite <- Ef. }
  assert (Same : forall k, In k ks' <-> In k ks).
  { intros k. rewrite W. split; intros Hk.
    - assert (Hf : In (fn k) files) by (rewrite Ef; now apply in_map).
      apply Hfiles in Hf. apply in_map_iff in Hf. destruct Hf as (k' & E & Hk').
      apply fn_injective in E. now subst k'.
    - assert (Hf : In (fn k) files) by (apply Hfiles; now apply in_map).
      rewrite Ef in Hf. apply in_map_iff in Hf. destruct Hf as (k' & E & Hk').
      apply fn_injective in E. now subst k'. }
  assert (P : Permutation ks' ks) by (apply NoDup_Permutation; auto).
  rewrite Ef. rewrite load_snapshots_sorted.
  - rewrite (sorted_permutation ks' ks P S). f_equal.
    apply map_ext_in. intros k Hk. f_equal. apply file_content_run. now apply W.
  - rewrite (Permutation_length P). unfold ks. rewrite length_app. simpl. lia.
  - apply Forall_forall. intros k Hk. apply Same in Hk. specialize (B k Hk). lia.
Qed.

End Frames.

Lemma run_files_consistent (output_dir : str) (ny nx steps save_interval : nat)
      (G : grid) :
  let run := (expected_snapshots ny nx steps save_interval G,
              global_steps ny nx steps G) in
  (forall name g, In (name, g) (snapshot_writes output_dir steps run) ->
     exists k, k <= steps /\ name = snapshot_filename output_dir k /\
               g = global_steps ny nx k G /\
               file_content (snapshot_writes output_dir steps run) name = g)
  /\ (In (snapshot_filename output_dir steps)
         (map (fun s => snapshot_filename output_dir (fst s)) (fst run))
      <-> snapshot_due save_interval steps = true).
Proof.
  intros run. split.
  - intros name g Hin. pose proof Hin as Hin'.
    unfold run in Hin'. rewrite snapshot_writes_run in Hin'.
    apply in_map_iff in Hin'. destruct Hin' as (k & E & Hk). injection E as <- <-.
    exists k. split.
    + apply in_app_iff in Hk. destruct Hk as [Hk|[<-|[]]]; [|lia].
      apply filter_In in Hk. destruct Hk as [Hk _]. apply in_seq in Hk. lia.
    + split; [reflexivity|]. split; [reflexivity|]. now apply file_content_run.
  - unfold run, expected_snapshots. cbn [fst]. rewrite map_map. cbn [fst]. split.
    + intros Hin. apply in_map_iff in Hin. destruct Hin as (k & E & Hk).
      apply fn_injective in E. subst k. apply filter_In in Hk. tauto.
    + intros D. apply in_map. apply filter_In. split; [apply in_seq; lia|exact D].
Qed.





(** A run of three steps saving every second step leaves three files;
    listed in any order, they load as generations 0, 2 and 3. *)
Example frames_of_a_short_run :
  load_snapshots
    [lit "snapshots/step_000003.npz"; lit "snapshots/step_000000.npz";
     lit "snapshots/step_000002.npz"]
    (file_content
       (snapshot_writes (lit "snapshots") 3
          (expected_snapshots 4 4 3 2 example_blinker,
           global_steps 4 4 3 example_blinker)))
  = Some [(lit "snapshots/step_000000.npz", example_blinker);
          (lit "snapshots/step_000002.npz", example_blinker);
          (lit "snapshots/step_000003.npz",
           [[0; 1; 0; 0]; [0; 1; 0; 0]; [0; 1; 0; 0]; [0; 0; 0; 0]]%Z)].
Proof. vm_compute. reflexivity. Qed.

(** ** The exchange, twice *)

Lemma exchange_twice_1d (size ny nx : nat) (ps : list grid) :
  0 < size -> size <= ny -> wf_1d size ny nx ps ->
  let ps' := map (exchanged_1d size ny ps) (seq 0 size) in
  exchange_all ps size nx = Some ps' /\ exchange_all ps' size nx = Some ps'.
Proof.
  intros Hsize Hvalid Hwf ps'.
  destruct (halo_consistency_1d size ny nx ps Hsize Hvalid Hwf)
    as (E & Hwf' & Hown & _). fold ps' in E, Hwf', Hown.
  split; [exact E|].
  rewrite (exchange_all_rows size ny nx ps' Hsize Hwf'). f_equal.
  unfold ps' at 2. apply map_ext_in. intros r Hr. apply in_seq in Hr.
  destruct (exchanged_1d_spec size ny nx ps' Hsize Hwf' r ltac:(lia)) as [S1 C1].
  destruct (exchanged_1d_spec size ny nx ps Hsize Hwf r ltac:(lia)) as [S2 C2].
  apply (grid_ext _ _ _ _ S1 S2). intros i j Hi Hj. rewrite C1, C2.
  assert (Hb : bottom_neighbor r size < size)
    by (unfold bottom_neighbor; apply Nat.mod_upper_bound; lia).
  assert (Ht : top_neighbor r size < size)
    by (unfold top_neighbor; apply py_mod_lt; lia).
  pose proof (block_count_pos ny size (bottom_neighbor r size) Hsize Hvalid).
  pose proof (block_count_pos ny size (top_neighbor r size) Hsize Hvalid).
  pose proof (block_count_pos ny size r Hsize Hvalid).
  destruct (Nat.eqb_spec i (block_count ny size r + 1)); [apply Hown; lia|].
  destruct (Nat.eqb_spec i 0); apply Hown; lia.
Qed.

Lemma exchange_twice_2d (dims : nat * nat) (ny nx : nat) (ps : list grid) :
  0 < fst dims -> 0 < snd dims -> fst dims <= ny -> snd dims <= nx ->
  wf_2d dims ny nx ps ->
  let ps' := map (fun r => exchanged_2d dims ny nx ps (fst (Get_coords dims r))
                                        (snd (Get_coords dims r)))
                 (seq 0 (fst dims * snd dims)) in
  exchange_all_2d ps dims = Some ps' /\ exchange_all_2d ps' dims = Some ps'.
Proof.
  intros Hpy Hpx Hvy Hvx Hwf ps'.
  destruct (halo_consistency_2d dims ny nx ps Hpy Hpx Hvy Hvx Hwf)
    as (E & Hwf' & Hown & _). fold ps' in E, Hwf', Hown.
  split; [exact E|].
  rewrite (exchange_all_2d_sets dims ny nx ps' Hpy Hpx Hwf'). f_equal.
  unfold ps' at 2. apply map_ext_in. intros r Hr. apply in_seq in Hr.
  destruct (coords_lt dims r Hpx ltac:(lia)) as [Ha Hb].
  set (a := fst (Get_coords dims r)) in *. set (b := snd (Get_coords dims r)) in *.
  destruct (exchanged_2d_spec dims ny nx ps' Hpy Hpx Hwf' a b Ha Hb) as [S1 C1].
  destruct (exchanged_2d_spec dims ny nx ps Hpy Hpx Hwf a b Ha Hb) as [S2 C2].
  apply (grid_ext _ _ _ _ S1 S2). intros i j Hi Hj. rewrite C1, C2 by auto.
  destruct (ring_topology (fst dims) a Hpy Ha) as (Hu & Hd & _).
  destruct (ring_topology (snd dims) b Hpx Hb) as (Hl & Hr' & _).
  pose proof (block_count_pos ny (fst dims) a Hpy Hvy).
  pose proof (block_count_pos nx (snd dims) b Hpx Hvx).
  pose proof (block_count_pos ny (fst dims) (py_mod (Z.of_nat a - 1) (fst dims)) Hpy Hvy).
  pose proof (block_count_pos ny (fst dims) (py_mod (Z.of_nat a + 1) (fst dims)) Hpy Hvy).
  pose proof (block_count_pos nx (snd dims) (py_mod (Z.of_nat b - 1) (snd dims)) Hpx Hvx).
  pose proof (block_count_pos nx (snd dims) (py_mod (Z.of_nat b + 1) (snd dims)) Hpx Hvx).
  unfold same_owned_2d in Hown.
  repeat match goal with
    | |- context [Nat.eqb ?x ?y] => destruct (Nat.eqb_spec x y)
    | |- context [Nat.leb ?x ?y] => destruct (Nat.leb_spec x y)
    | |- context [Nat.ltb ?x ?y] => destruct (Nat.ltb_spec x y)
    end; cbn [andb]; try (apply Hown; lia); lia.
Qed.

(** X20.  A second halo exchange changes nothing.  On every valid layout
    (non-empty strips or patches) and for any local grids of the right
    shapes, exchanging the halos of the state an exchange has produced
    gives that state back, in [life_mpi.py] and in [life_mpi_2d.py]: the
    exchange only copies owned cells, which it never modifies. *)
Theorem exchange_is_idempotent :
  (forall (size ny nx : nat) (ps : list grid),
     0 < size -> size <= ny -> well_formed size ny nx ps = true ->
     exists ps',
       exchange_all ps size nx = Some ps' /\ exchange_all ps' size nx = Some ps')
  /\
  (forall (dims : nat * nat) (ny nx : nat) (ps : list grid),
     0 < fst dims -> 0 < snd dims -> fst dims <= ny -> snd dims <= nx ->
     well_formed_2d dims ny nx ps = true ->
     exists ps',
       exchange_all_2d ps dims = Some ps' /\ exchange_all_2d ps' dims = Some ps').
Proof.
  split.
  - intros size ny nx ps Hsize Hvalid Hwf. apply well_formed_wf in Hwf.
    eexists. now apply (exchange_twice_1d size ny nx ps).
  - intros dims ny nx ps Hpy Hpx Hvy Hvx Hwf. apply well_formed_2d_wf in Hwf.
    eexists. now apply (exchange_twice_2d dims ny nx ps).
Qed.

Lemma exchange_is_idempotent_witness :
  (exists ps',
     exchange_all (scatter_grid example_soup 3 5 6) 3 6 = Some ps' /\
     exchange_all ps' 3 6 = Some ps')
  /\
  (exists ps',
     exchange_all_2d [zeros2 7 8] (1, 1) = Some ps' /\
     exchange_all_2d ps' (1, 1) = Some ps').
Proof.
  destruct exchange_is_idempotent as [H1 H2]. split.
  - apply (H1 3 5 6); [lia | lia | reflexivity].
  - apply (H2 (1, 1) 5 6); simpl; try lia. reflexivity.
Defined.

(** With an empty strip (three ranks for two rows) the rows a rank sends
    are its own halo rows, and a second exchange does change the state. *)
Example exchange_twice_with_an_empty_strip :
  exists ps' ps'',
    exchange_all (scatter_grid example_small 3 2 4) 3 4 = Some ps'
    /\ exchange_all ps' 3 4 = Some ps'' /\ ps'' <> ps'.
Proof.
  do 2 eexists. split; [vm_compute; reflexivity|].
  split; [vm_compute; reflexivity|]. discriminate.
Qed.



Lemma sum_of_bits (l : list Z) :
  (forall v, In v l -> v = 0%Z \/ v = 1%Z) ->
  (0 <= sumZ l <= Z.of_nat (length l))%Z.
Proof.
  induction l as [|a t IH]; intros B; [simpl; lia|].
  cbn [sumZ fold_right length]. fold (sumZ t).
  assert (0 <= sumZ t <= Z.of_nat (length t))%Z
    by (apply IH; intros v Hv; apply B; now right).
  destruct (B a (or_introl eq_refl)) as [-> | ->]; lia.
Qed.

Lemma neighbors_sum_exact (g : grid) (idx : list (nat * nat)) :
  binary g -> length idx = 8 ->
  neighbors_sum g idx = sumZ (map (fun p => cell g (fst p) (snd p)) idx)
  /\ (0 <= neighbors_sum g idx <= 8)%Z.
Proof.
  intros B L. rewrite (neighbors_sum_binary g idx B) by lia. split; [reflexivity|].
  assert (L' : length (map (fun p => cell g (fst p) (snd p)) idx) = 8)
    by now rewrite length_map.
  pose proof (sum_of_bits (map (fun p => cell g (fst p) (snd p)) idx)) as S.
  rewrite L' in S. apply S. intros v Hv. apply in_map_iff in Hv.
  destruct Hv as (p & <- & _). apply B.
Qed.

(** X22.  The neighbour counter never overflows on a 0/1 grid.  The
    kernels add the eight neighbours in an [int8]; when the local grid
    (a strip with its halo rows, a patch with its halo rows and columns)
    holds only 0 and 1, the total the kernel forms for every cell it
    updates is the exact sum of the eight cells read and lies between 0
    and 8, in the 1-D and in the 2-D kernel. *)
Theorem neighbor_count_is_exact :
  forall (g : grid) (rows cols nx : nat),
    binaryb g = true ->
    (has_shape (rows + 2) nx g = true ->
     forall c idx, In (c, idx) (kernel_reads g nx) ->
       neighbors_sum g idx = sumZ (map (fun p => cell g (fst p) (snd p)) idx)
       /\ (0 <= neighbors_sum g idx <= 8)%Z)
    /\
    (has_shape (rows + 2) (cols + 2) g = true ->
     forall c idx, In (c, idx) (kernel_reads_2d g) ->
       neighbors_sum g idx = sumZ (map (fun p => cell g (fst p) (snd p)) idx)
       /\ (0 <= neighbors_sum g idx <= 8)%Z).
Proof.
  intros g rows cols nx B. apply binaryb_binary in B. split.
  - intros _ c idx Hin. unfold kernel_reads in Hin.
    apply in_flat_map in Hin. destruct Hin as (i & _ & Hin).
    apply in_map_iff in Hin. destruct Hin as (j & E & _). injection E as _ <-.
    apply neighbors_sum_exact; [exact B | reflexivity].
  - intros _ c idx Hin. unfold kernel_reads_2d in Hin.
    apply in_flat_map in Hin. destruct Hin as (i & _ & Hin).
    apply in_map_iff in Hin. destruct Hin as (j & E & _). injection E as _ <-.
    apply neighbors_sum_exact; [exact B | reflexivity].
Qed.

Lemma neighbor_count_is_exact_witness :
  (forall c idx, In (c, idx) (kernel_reads example_soup 6) ->
     neighbors_sum example_soup idx
     = sumZ (map (fun p => cell example_soup (fst p) (snd p)) idx)
     /\ (0 <= neighbors_sum example_soup idx <= 8)%Z)
  /\
  (forall c idx, In (c, idx) (kernel_reads_2d example_soup) ->
     neighbors_sum example_soup idx
     = sumZ (map (fun p => cell example_soup (fst p) (snd p)) idx)
     /\ (0 <= neighbors_sum example_soup idx <= 8)%Z).
Proof.
  destruct (neighbor_count_is_exact example_soup 3 4 6 eq_refl) as [H1 H2].
  split; [apply H1; reflexivity | apply H2; reflexivity].
Defined.

(** On a grid that holds other values the counter wraps: eight cells of
    20 add up to 160, which an [int8] holds as -96. *)
Example neighbor_count_wraps :
  neighbors_sum (repeat (repeat 20%Z 3) 3) (neighbor_indices_2d 1 1) = (-96)%Z.
Proof. reflexivity. Qed.

(** ** Sends and receives pair up *)

Lemma length_flat_map_const (A B : Type) (f : A -> list B) (k : nat) (l : list A) :
  (forall a, length (f a) = k) -> length (flat_map f l) = k * length l.
Proof.
  intros H. induction l as [|a t IH]; cbn [flat_map length]; [lia|].
  rewrite length_app, H, IH. lia.
Qed.

Lemma delivered_1d (size ny nx : nat) (ps : list grid) :
  0 < size -> wf_1d size ny nx ps ->
  length (halo_network ps size) = 2 * size /\
  forall m, In m (halo_network ps size) ->
    msg_dst m < size /\
    In (msg_src m, msg_tag m, nx) (halo_recvs (msg_dst m) size nx) /\
    Irecv (halo_network ps size) (msg_dst m) (zeros nx) (msg_src m) (msg_tag m)
    = Some (msg_data m).
Proof.
  intros Hsize Hwf. split.
  { unfold halo_network.
    rewrite (length_flat_map_const _ _ _ 2) by reflexivity.
    now rewrite length_seq. }
  intros m Hm. apply in_halo_network in Hm. destruct Hm as (r & Hr & Hm).
  destruct (ring_topology size r Hsize Hr) as (Ht & Hb & Htb & Hbt).
  unfold halo_sends in Hm. rewrite (wf_nrows size ny nx ps Hwf r Hr) in Hm.
  replace (block_count ny size r + 2 - 2) with (block_count ny size r) in Hm by lia.
  destruct Hm as [<-|[<-|[]]]; cbn [msg_dst msg_src msg_tag msg_data].
  - rewrite bottom_neighbor_py by auto.
    set (d := py_mod (Z.of_nat r + 1) size) in *.
    assert (Et : top_neighbor d size = r) by exact Hbt.
    split; [exact Hb|]. split.
    + unfold halo_recvs. rewrite Et. now left.
    + pose proof (recv_top size ny nx ps Hsize Hwf d Hb) as R. cbv zeta in R.
      now rewrite Et in R.
  - unfold top_neighbor.
    set (d := py_mod (Z.of_nat r - 1) size) in *.
    assert (Eb : bottom_neighbor d size = r)
      by (rewrite bottom_neighbor_py by auto; exact Htb).
    split; [exact Ht|]. split.
    + unfold halo_recvs. rewrite Eb. right. now left.
    + pose proof (recv_bottom size ny nx ps Hsize Hwf d Ht) as R. cbv zeta in R.
      now rewrite Eb in R.
Qed.

Section Delivery2D.

Variables (dims : nat * nat) (ny nx : nat) (ps : list grid).
Hypothesis Hpy : 0 < fst dims.
Hypothesis Hpx : 0 < snd dims.
Hypothesis Hwf : wf_2d dims ny nx ps.

Local Abbreviation nr a := (block_count ny (fst dims) a).
Local Abbreviation nc b := (block_count nx (snd dims) b).
Local Abbreviation rk a b := (Get_cart_rank dims (a, b)).
Local Abbreviation patch a b := (nth (Get_cart_rank dims (a, b)) ps []).
Local Abbreviation up a := (py_mod (Z.of_nat a - 1) (fst dims)).
Local Abbreviation down a := (py_mod (Z.of_nat a + 1) (fst dims)).
Local Abbreviation left b := (py_mod (Z.of_nat b - 1) (snd dims)).
Local Abbreviation right b := (py_mod (Z.of_nat b + 1) (snd dims)).

(** The receives posted by the rank at [(a, b)]. *)
Lemma halo_recvs_2d_norm (a b : nat) :
  a < fst dims -> b < snd dims ->
  halo_recvs_2d (patch a b) (Get_coords dims (rk a b)) dims
  = [ (rk (up a) b, 0, nc b); (rk (down a) b, 1, nc b);
      (rk a (left b), 2, nr a); (rk a (right b), 3, nr a);
      (rk (up a) (left b), 4, 1); (rk (up a) (right b), 5, 1);
      (rk (down a) (left b), 6, 1); (rk (down a) (right b), 7, 1) ].
Proof.
  intros Ha Hb. rewrite coords_rank by auto.
  destruct (patch_shape dims ny nx ps Hwf a b Ha Hb) as [L C].
  unfold halo_recvs_2d, neighbors_2d, Shift, nrows, ncols.
  rewrite L, C by lia. cbn [fst snd north south east west nw ne sw se].
  replace (nr a + 2 - 2) with (nr a) by lia.
  replace (nc b + 2 - 2) with (nc b) by lia.
  reflexivity.
Qed.

(** A message of the rank at [(a, b)] addressed to the rank at
    [(a', b')] with tag [tag]: that rank has posted the receive for it,
    and the receive delivers it. *)
Lemma delivered_to (a b a' b' tag len : nat) (data : list Z) :
  a < fst dims -> b < snd dims -> a' < fst dims -> b' < snd dims ->
  In (Msg (rk a b) (rk a' b') tag data)
     (halo_sends_2d (patch a b) (rk a b) (a, b) dims) ->
  In (rk a b, tag, len)
     (halo_recvs_2d (patch a' b') (Get_coords dims (rk a' b')) dims) ->
  length data = len ->
  let m := Msg (rk a b) (rk a' b') tag data in
  msg_dst m < fst dims * snd dims /\
  (exists len,
     In (msg_src m, msg_tag m, len)
        (halo_recvs_2d (nth (msg_dst m) ps []) (Get_coords dims (msg_dst m)) dims) /\
     Irecv (halo_network_2d ps dims) (msg_dst m) (zeros len) (msg_src m) (msg_tag m)
     = Some (msg_data m)).
Proof.
  intros Ha Hb Ha' Hb' Hsend Hrecv Hlen m.
  cbn [m msg_dst msg_src msg_tag msg_data]. split.
  - pose proof (rank_lt _ _ a' b' Ha' Hb'). unfold Get_cart_rank. cbn [fst snd]. lia.
  - exists len. split; [exact Hrecv|].
    apply (recv_from dims ps Hpy Hpx (rk a' b') a b tag (rk a' b') data (zeros len));
      auto. now rewrite length_zeros.
Qed.

Lemma delivered_2d :
  length (halo_network_2d ps dims) = 8 * (fst dims * snd dims) /\
  forall m, In m (halo_network_2d ps dims) ->
    msg_dst m < fst dims * snd dims /\
    exists len,
      In (msg_src m, msg_tag m, len)
         (halo_recvs_2d (nth (msg_dst m) ps []) (Get_coords dims (msg_dst m)) dims) /\
      Irecv (halo_network_2d ps dims) (msg_dst m) (zeros len) (msg_src m) (msg_tag m)
      = Some (msg_data m).
Proof.
  split.
  { unfold halo_network_2d.
    rewrite (length_flat_map_const _ _ _ 8) by reflexivity.
    now rewrite length_seq. }
  intros m Hm. apply (in_halo_network_2d dims ps Hpy Hpx) in Hm.
  destruct Hm as (a & b & Ha & Hb & Hm). pose proof Hm as Hsend.
  destruct (ring_topology (fst dims) a Hpy Ha) as (Hu & Hd & Hud & Hdu).
  destruct (ring_topology (snd dims) b Hpx Hb) as (Hl & Hr & Hlr & Hrl).
  pose proof (patch_shape dims ny nx ps Hwf a b Ha Hb) as [_ Cab].
  rewrite (halo_sends_2d_norm dims ny nx ps Hpy Hpx Hwf a b Ha Hb) in Hm.
  destruct Hm as [<-|[<-|[<-|[<-|[<-|[<-|[<-|[<-|[]]]]]]]]].
  - apply (delivered_to a b (down a) b 0 (nc b)); auto.
    + rewrite halo_recvs_2d_norm by auto. rewrite Hdu. now left.
    + apply (length_row_slice dims ny nx ps Hpy Hpx Hwf); auto. lia.
  - apply (delivered_to a b (up a) b 1 (nc b)); auto.
    + rewrite halo_recvs_2d_norm by auto. rewrite Hud. right. now left.
    + apply (length_row_slice dims ny nx ps Hpy Hpx Hwf); auto. lia.
  - apply (delivered_to a b a (right b) 2 (nr a)); auto.
    + rewrite halo_recvs_2d_norm by auto. rewrite Hrl. do 2 right. now left.
    + apply (length_column dims ny nx ps Hpy Hpx Hwf); auto.
  - apply (delivered_to a b a (left b) 3 (nr a)); auto.
    + rewrite halo_recvs_2d_norm by auto. rewrite Hlr. do 3 right. now left.
    + apply (length_column dims ny nx ps Hpy Hpx Hwf); auto.
  - apply (delivered_to a b (down a) (right b) 4 1); auto.
    rewrite halo_recvs_2d_norm by auto. rewrite Hdu, Hrl. do 4 right. now left.
  - apply (delivered_to a b (down a) (left b) 5 1); auto.
    rewrite halo_recvs_2d_norm by auto. rewrite Hdu, Hlr. do 5 right. now left.
  - apply (delivered_to a b (up a) (right b) 6 1); auto.
    rewrite halo_recvs_2d_norm by auto. rewrite Hud, Hrl. do 6 right. now left.
  - apply (delivered_to a b (up a) (left b) 7 1); auto.
    rewrite halo_recvs_2d_norm by auto. rewrite Hud, Hlr. do 7 right. now left.
Qed.

End Delivery2D.

(** X23.  Sends and receives pair up.  In one halo exchange, on any
    number of ranks (any process grid with positive sides) and for local
    grids of the right shapes, every message a rank sends is addressed to
    a rank of the job that has posted a receive for exactly that source
    and tag, with a buffer of the length of the message, and that receive
    delivers the message; there are as many messages as receives (two per
    rank in 1-D, eight in 2-D), so no message is left undelivered when
    the exchange returns. *)
Theorem sends_and_receives_pair_up :
  (forall (size ny nx : nat) (ps : list grid),
     0 < size -> well_formed size ny nx ps = true ->
     length (halo_network ps size) = 2 * size /\
     forall m, In m (halo_network ps size) ->
       msg_dst m < size /\
       In (msg_src m, msg_tag m, nx) (halo_recvs (msg_dst m) size nx) /\
       Irecv (halo_network ps size) (msg_dst m) (zeros nx) (msg_src m) (msg_tag m)
       = Some (msg_data m))
  /\
  (forall (dims : nat * nat) (ny nx : nat) (ps : list grid),
     0 < fst dims -> 0 < snd dims -> well_formed_2d dims ny nx ps = true ->
     length (halo_network_2d ps dims) = 8 * (fst dims * snd dims) /\
     forall m, In m (halo_network_2d ps dims) ->
       msg_dst m < fst dims * snd dims /\
       exists len,
         In (msg_src m, msg_tag m, len)
            (halo_recvs_2d (nth (msg_dst m) ps []) (Get_coords dims (msg_dst m)) dims) /\
         Irecv (halo_network_2d ps dims) (msg_dst m) (zeros len) (msg_src m)
               (msg_tag m)
         = Some (msg_data m)).
Proof.
  split.
  - intros size ny nx ps Hsize Hwf. apply well_formed_wf in Hwf.
    now apply (delivered_1d size ny nx ps).
  - intros dims ny nx ps Hpy Hpx Hwf. apply well_formed_2d_wf in Hwf.
    now apply (delivered_2d dims ny nx ps).
Qed.

Lemma sends_and_receives_pair_up_witness :
  (length (halo_network (scatter_grid example_soup 3 5 6) 3) = 2 * 3 /\
   forall m, In m (halo_network (scatter_grid example_soup 3 5 6) 3) ->
     msg_dst m < 3 /\
     In (msg_src m, msg_tag m, 6) (halo_recvs (msg_dst m) 3 6) /\
     Irecv (halo_network (scatter_grid example_soup 3 5 6) 3) (msg_dst m) (zeros 6)
           (msg_src m) (msg_tag m)
     = Some (msg_data m))
  /\
  (length (halo_network_2d [zeros2 7 8] (1, 1)) = 8 * (fst (1, 1) * snd (1, 1)) /\
   forall m, In m (halo_network_2d [zeros2 7 8] (1, 1)) ->
     msg_dst m < fst (1, 1) * snd (1, 1) /\
     exists len,
       In (msg_src m, msg_tag m, len)
          (halo_recvs_2d (nth (msg_dst m) [zeros2 7 8] [])
                         (Get_coords (1, 1) (msg_dst m)) (1, 1)) /\
       Irecv (halo_network_2d [zeros2 7 8] (1, 1)) (msg_dst m) (zeros len)
             (msg_src m) (msg_tag m)
       = Some (msg_data m)).
Proof.
  destruct sends_and_receives_pair_up as [H1 H2]. split.
  - apply (H1 3 5 6); [lia | reflexivity].
  - apply (H2 (1, 1) 5 6); simpl; try lia. reflexivity.
Defined.

(** ** Patterns on small grids *)

Lemma list_prod_app (A B : Type) (l1 l2 : list A) (m : list B) :
  list_prod (l1 ++ l2) m = list_prod l1 m ++ list_prod l2 m.
Proof.
  induction l1 as [|a t IH]; [reflexivity|].
  cbn [app list_prod]. now rewrite IH, app_assoc.
Qed.

(** The pairs the double loop visits after [(i, j)]. *)
Lemma list_prod_split (h w i j : nat) :
  i < h -> j < w ->
  exists l1 l2,
    list_prod (seq 0 h) (seq 0 w) = l1 ++ (i, j) :: l2 /\
    forall i' j', In (i', j') l2 ->
      i' < h /\ j' < w /\ (i < i' \/ (i = i' /\ j < j')).
Proof.
  intros Hi Hj.
  exists (list_prod (seq 0 i) (seq 0 w) ++ map (pair i) (seq 0 j)),
         (map (pair i) (seq (S j) (w - S j))
          ++ list_prod (seq (S i) (h - S i)) (seq 0 w)).
  split.
  - replace h with (i + S (h - S i)) at 1 by lia.
    rewrite seq_app, list_prod_app. cbn [Nat.add seq list_prod].
    replace w with (j + S (w - S j)) at 2 by lia.
    rewrite seq_app, map_app. cbn [Nat.add seq map].
    rewrite <- !app_assoc. cbn [app]. reflexivity.
  - intros i' j' Hin. apply in_app_iff in Hin. destruct Hin as [Hin|Hin].
    + apply in_map_iff in Hin. destruct Hin as (x & E & Hx). injection E as <- <-.
      apply in_seq in Hx. lia.
    + apply in_prod_iff in Hin. destruct Hin as [H1 H2].
      apply in_seq in H1, H2. lia.
Qed.

Lemma write_pattern_last_write (pattern : grid) (h w ny nx : nat) (g : grid)
      (start_x start_y : Z) :
  0 < ny -> 0 < nx -> shape ny nx g ->
  exists g', write_pattern pattern h w g start_x start_y = Some g'
             /\ last_write_wins pattern h w ny nx start_x start_y g g'.
Proof.
  intros Hny Hnx S. unfold write_pattern.
  destruct (shape_dims ny nx g Hny S) as [-> ->].
  replace ((ny =? 0) || (nx =? 0)) with false
    by (symmetry; apply orb_false_iff; split; apply Nat.eqb_neq; lia).
  rewrite andb_false_r. eexists. split; [reflexivity|].
  destruct (writes_spec pattern ny nx start_x start_y Hny Hnx
              (list_prod (seq 0 h) (seq 0 w)) g S) as [S' C].
  unfold last_write_wins. cbv zeta. split; [exact S'|]. split.
  - intros i j Hi Hj Hlast. cbn [fst snd].
    rewrite C by (apply py_mod_lt; auto).
    destruct (list_prod_split h w i j Hi Hj) as (l1 & l2 & E & Hl2).
    rewrite E, rev_app_distr. cbn [rev]. rewrite <- app_assoc, find_app.
    rewrite find_absent.
    + cbn [app find]. now rewrite !Nat.eqb_refl.
    + intros [i' j'] Hin. apply in_rev in Hin.
      destruct (Hl2 i' j' Hin) as (Hi' & Hj' & Hlater).
      specialize (Hlast i' j' Hi' Hj' Hlater).
      destruct (Nat.eqb_spec (py_mod (start_y + Z.of_nat i') ny)
                             (py_mod (start_y + Z.of_nat i) ny)) as [E1|]; auto.
      destruct (Nat.eqb_spec (py_mod (start_x + Z.of_nat j') nx)
                             (py_mod (start_x + Z.of_nat j) nx)) as [E2|]; auto.
      exfalso. apply Hlast. now rewrite E1, E2.
  - intros y x Hy Hx Hnone. rewrite C by auto.
    rewrite find_absent; auto.
    intros [i j] Hin. apply in_rev in Hin. apply in_prod_iff in Hin.
    destruct Hin as [H1 H2]. apply in_seq in H1, H2.
    specialize (Hnone i j ltac:(lia) ltac:(lia)).
    destruct (Nat.eqb_spec (py_mod (start_y + Z.of_nat i) ny) y) as [E1|]; auto.
    destruct (Nat.eqb_spec (py_mod (start_x + Z.of_nat j) nx) x) as [E2|]; auto.
    exfalso. apply Hnone. now rewrite E1, E2.
Qed.

(** X24.  Patterns on grids of any size.  On a grid with at least one
    row and one column -- also one smaller than the pattern, on which
    the pattern wraps onto itself -- [create_glider_gun], [create_glider]
    and [create_r_pentomino] return a grid of the same shape in which a
    cell holds the pattern entry written to it last in the order of the
    loops (rows of the pattern first, then columns), and a cell no entry
    is written to keeps its value. *)
Theorem create_pattern_last_write_wins :
  forall (g : grid) (ny nx : nat) (start_x start_y : Z),
    has_shape ny nx g = true -> 0 < ny -> 0 < nx ->
    (exists g', create_glider_gun g start_x start_y = Some g' /\
                last_write_wins gun_pattern 9 36 ny nx start_x start_y g g')
    /\ (exists g', create_glider g start_x start_y = Some g' /\
                   last_write_wins glider 3 3 ny nx start_x start_y g g')
    /\ (exists g', create_r_pentomino g start_x start_y = Some g' /\
                   last_write_wins r_pentomino 3 3 ny nx start_x start_y g g').
Proof.
  intros g ny nx start_x start_y S Hny Hnx. apply has_shape_shape in S.
  split; [|split].
  - apply (write_pattern_last_write gun_pattern 9 36); auto.
  - apply (write_pattern_last_write glider 3 3); auto.
  - apply (write_pattern_last_write r_pentomino 3 3); auto.
Qed.

Lemma create_pattern_last_write_wins_witness :
  (exists g', create_glider_gun (zeros2 4 20) 20 20 = Some g' /\
              last_write_wins gun_pattern 9 36 4 20 20 20 (zeros2 4 20) g')
  /\ (exists g', create_glider (zeros2 4 20) 20 20 = Some g' /\
                 last_write_wins glider 3 3 4 20 20 20 (zeros2 4 20) g')
  /\ (exists g', create_r_pentomino (zeros2 4 20) 20 20 = Some g' /\
                 last_write_wins r_pentomino 3 3 4 20 20 20 (zeros2 4 20) g').
Proof.
  apply (create_pattern_last_write_wins (zeros2 4 20) 4 20 20 20);
    [reflexivity | lia | lia].
Defined.

(** ** The kernels on a strip and on a patch *)

Lemma shape_slice_rows (ny nx r0 rows : nat) (g : grid) :
  shape ny nx g -> r0 + rows <= ny ->
  shape rows nx (slice r0 (r0 + rows) g) /\
  forall i j, i < rows -> cell (slice r0 (r0 + rows) g) i j = cell g (r0 + i) j.
Proof.
  intros [L R] Hr. split.
  - split.
    + rewrite length_slice. lia.
    + intros i Hi. unfold row. rewrite nth_slice by lia. apply R. lia.
  - intros i j Hi. unfold cell, row. now rewrite nth_slice by lia.
Qed.

(** X25.  The kernels compute the rule of the specification.  Given a
    strip (a patch) of a 0/1 grid [H] with its halo taken from the torus
    -- rows [r0 - 1 .. r0 + rows] in 1-D, also columns
    [c0 - 1 .. c0 + cols] in 2-D, modulo the extents --
    [compute_next_generation] returns rows [r0 .. r0 + rows - 1] of one
    global B3/S23 step of [H], and [compute_next_generation_2d] the block
    of that step with top-left corner [(r0, c0)]. *)
Theorem kernels_compute_the_global_step :
  forall (ny nx : nat) (H : grid) (r0 rows c0 cols : nat),
    binaryb H = true -> r0 + rows <= ny ->
    (0 < nx ->
       compute_next_generation (view_1d ny nx H r0 rows) nx
       = slice r0 (r0 + rows) (global_step ny nx H))
    /\
    (c0 + cols <= nx ->
       compute_next_generation_2d (view_2d ny nx H r0 rows c0 cols)
       = subgrid r0 (r0 + rows) c0 (c0 + cols) (global_step ny nx H)).
Proof.
  intros ny nx H r0 rows c0 cols B Hr. apply binaryb_binary in B.
  pose proof (shape_tabulate ny nx (fun y x =>
    rule_B3S23 (cell H y x) (live_neighbors ny nx H y x))) as SG.
  fold (global_step ny nx H) in SG. split.
  - intros Hnx. destruct (kernel_view_1d ny nx H r0 rows Hnx Hr B) as [S C].
    destruct (shape_slice_rows ny nx r0 rows _ SG Hr) as [S' C'].
    apply (grid_ext rows nx); auto. intros i j Hi Hj. now rewrite C, C'.
  - intros Hc. destruct (kernel_view_2d ny nx H r0 rows c0 cols Hr Hc B) as [S C].
    destruct (subgrid_spec ny nx (global_step ny nx H) r0 (r0 + rows) c0 (c0 + cols) SG)
      as [S' C']; [lia | lia |].
    replace (r0 + rows - r0) with rows in * by lia.
    replace (c0 + cols - c0) with cols in * by lia.
    apply (grid_ext rows cols); auto. intros i j Hi Hj. now rewrite C, C'.
Qed.

Lemma kernels_compute_the_global_step_witness :
  compute_next_generation (view_1d 5 6 example_soup 1 2) 6
  = slice 1 (1 + 2) (global_step 5 6 example_soup)
  /\ compute_next_generation_2d (view_2d 5 6 example_soup 1 2 2 3)
     = subgrid 1 (1 + 2) 2 (2 + 3) (global_step 5 6 example_soup).
Proof.
  destruct (kernels_compute_the_global_step 5 6 example_soup 1 2 2 3
              eq_refl ltac:(lia)) as [H1 H2].
  split; [apply H1; lia | apply H2; lia].
Defined.

(** ** The frames as images *)

Lemma length_np_repeat (A : Type) (s : nat) (l : list A) :
  length (np_repeat s l) = s * length l.
Proof.
  unfold np_repeat. apply length_flat_map_const. intros a. apply repeat_length.
Qed.

Lemma nth_np_repeat (A : Type) (s k : nat) (d : A) (l : list A) :
  0 < s -> k < s * length l -> nth k (np_repeat s l) d = nth (k / s) l d.
Proof.
  intros Hs. unfold np_repeat. revert k.
  induction l as [|a t IH]; intros k Hk; [simpl in Hk; lia|].
  cbn [flat_map length] in *.
  destruct (Nat.lt_ge_cases k s) as [Hlt|Hge].
  - rewrite app_nth1 by now rewrite repeat_length.
    rewrite Nat.div_small by auto. cbn [nth].
    apply nth_repeat_lt. exact Hlt.
  - rewrite app_nth2 by (rewrite repeat_length; lia). rewrite repeat_length.
    rewrite IH by nia.
    replace k with ((k - s) + 1 * s) at 2 by lia.
    rewrite Nat.div_add by lia. replace ((k - s) / s + 1) with (S ((k - s) / s)) by lia.
    reflexivity.
Qed.

Lemma np_repeat_once (A : Type) (l : list A) : np_repeat 1 l = l.
Proof.
  unfold np_repeat. induction l as [|a t IH]; [reflexivity|].
  simpl. now f_equal.
Qed.

Lemma enlarged_spec (ny nx s : nat) (img : grid) :
  0 < s -> shape ny nx img ->
  shape (s * ny) (s * nx) (map (np_repeat s) (np_repeat s img)) /\
  forall y x, y < s * ny -> x < s * nx ->
    cell (map (np_repeat s) (np_repeat s img)) y x = cell img (y / s) (x / s).
Proof.
  intros Hs [L R].
  assert (Row : forall y, y < s * ny ->
            row (map (np_repeat s) (np_repeat s img)) y = np_repeat s (row img (y / s))).
  { intros y Hy. unfold row.
    rewrite (nth_indep _ [] (np_repeat s []))
      by (rewrite length_map, length_np_repeat, L; exact Hy).
    rewrite (map_nth (np_repeat s)). f_equal.
    apply nth_np_repeat; auto. now rewrite L. }
  assert (Q : forall y, y < s * ny -> y / s < ny)
    by (intros y Hy; apply Nat.Div0.div_lt_upper_bound; lia).
  split.
  - split.
    + now rewrite length_map, length_np_repeat, L.
    + intros y Hy. rewrite Row by auto. rewrite length_np_repeat, R; auto.
  - intros y x Hy Hx. unfold cell. rewrite Row by auto.
    apply nth_np_repeat; auto. rewrite R; auto.
Qed.

Lemma pixels_spec (ny nx : nat) (f : Z -> Z) (g : grid) :
  shape ny nx g ->
  shape ny nx (map (map f) g) /\
  forall i j, i < ny -> j < nx -> cell (map (map f) g) i j = f (cell g i j).
Proof.
  intros [L R].
  assert (Row : forall i, i < ny -> row (map (map f) g) i = map f (row g i)).
  { intros i Hi. unfold row.
    rewrite (nth_indep _ [] (map f [])) by (rewrite length_map, L; exact Hi).
    apply (map_nth (map f)). }
  split.
  - split; [now rewrite length_map|].
    intros i Hi. rewrite Row by auto. rewrite length_map. now apply R.
  - intros i j Hi Hj. unfold cell. rewrite Row by auto.
    rewrite (nth_indep _ 0%Z (f 0%Z)) by (rewrite length_map, R; auto).
    apply (map_nth f).
Qed.

Lemma frame_image_spec (ny nx : nat) (g : grid) :
  shape ny nx g -> binary g -> 0 < ny -> 0 < nx ->
  exists scale img,
    frame_image g = Some img /\ 1 <= scale <= 4 /\
    (scale = 1 \/ scale * Nat.max nx ny <= 800) /\
    shape (scale * ny) (scale * nx) img /\
    forall y x, y < scale * ny -> x < scale * nx ->
      cell img y x = if (cell g (y / scale) (x / scale) =? 1)%Z then 0%Z else 255%Z.
Proof.
  intros S B Hny Hnx.
  destruct (shape_dims ny nx g Hny S) as [En Ex].
  set (f := fun v => uint8 (int32 (int32 (1 - v) * 255))).
  destruct (pixels_spec ny nx f g S) as [Sp Cp].
  set (M := Z.of_nat (Nat.max nx ny)).
  set (sz := Z.max 1 (Z.min 4 (800 / M))).
  assert (HM : (0 < M)%Z) by (unfold M; lia).
  assert (Hsz : (1 <= sz <= 4)%Z) by (unfold sz; lia).
  assert (Hle : (1 < sz -> sz * M <= 800)%Z).
  { intros H1. assert (sz <= 800 / M)%Z by (unfold sz in *; lia).
    pose proof (Z.mul_div_le 800 M HM). nia. }
  assert (Hs : 0 < Z.to_nat sz) by lia.
  destruct (enlarged_spec ny nx (Z.to_nat sz) (map (map f) g) Hs Sp) as [Se Ce].
  assert (Eimg : frame_image g
                 = Some (map (np_repeat (Z.to_nat sz))
                             (np_repeat (Z.to_nat sz) (map (map f) g)))).
  { unfold frame_image. cbv zeta. rewrite En, Ex. fold f. fold M. fold sz.
    replace (Nat.max nx ny =? 0) with false by (symmetry; apply Nat.eqb_neq; lia).
    destruct (Z.ltb_spec 1 sz) as [H1|H1]; [reflexivity|].
    replace sz with 1%Z by lia. change (Z.to_nat 1) with 1.
    rewrite np_repeat_once. f_equal. symmetry.
    transitivity (map (fun rw : list Z => rw) (map (map f) g)); [|apply map_id].
    apply map_ext. intros rw. apply np_repeat_once. }
  exists (Z.to_nat sz). eexists. split; [exact Eimg|].
  split; [lia|]. split; [|split; [exact Se|]].
  - destruct (Z.ltb_spec 1 sz) as [H1|H1]; [right|left; lia].
    specialize (Hle H1). unfold M in Hle. nia.
  - intros y x Hy Hx. rewrite Ce by auto.
    assert (y / Z.to_nat sz < ny) by (apply Nat.Div0.div_lt_upper_bound; lia).
    assert (x / Z.to_nat sz < nx) by (apply Nat.Div0.div_lt_upper_bound; lia).
    rewrite Cp by auto. unfold f.
    destruct (B (y / Z.to_nat sz) (x / Z.to_nat sz)) as [-> | ->]; reflexivity.
Qed.

(** X26.  The frames of the simple animation.  For a 0/1 frame of
    [ny] x [nx] cells (both positive), [create_simple_animation] of
    [visualize.py] draws an image of [scale * ny] by [scale * nx] pixels
    with [1 <= scale <= 4], enlarged only when the larger side stays
    within 800 pixels; pixel [(y, x)] is 0 (black) when cell
    [(y // scale, x // scale)] is alive and 255 (white) when it is
    dead. *)
Theorem frame_image_is_the_enlarged_frame :
  forall (ny nx : nat) (g : grid),
    has_shape ny nx g = true -> binaryb g = true -> 0 < ny -> 0 < nx ->
    exists scale img,
      frame_image g = Some img /\ 1 <= scale <= 4 /\
      (scale = 1 \/ scale * Nat.max nx ny <= 800) /\
      has_shape (scale * ny) (scale * nx) img = true /\
      forall y x, y < scale * ny -> x < scale * nx ->
        cell img y x
        = if (cell g (y / scale) (x / scale) =? 1)%Z then 0%Z else 255%Z.
Proof.
  intros ny nx g S B Hny Hnx. apply has_shape_shape in S. apply binaryb_binary in B.
  destruct (frame_image_spec ny nx g S B Hny Hnx) as (scale & img & E & H1 & H2 & Si & C).
  exists scale, img. split; [exact E|]. split; [exact H1|]. split; [exact H2|].
  split; [now apply has_shape_true | exact C].
Qed.

Lemma frame_image_is_the_enlarged_frame_witness :
  exists scale img,
    frame_image example_soup = Some img /\ 1 <= scale <= 4 /\
    (scale = 1 \/ scale * Nat.max 6 5 <= 800) /\
    has_shape (scale * 5) (scale * 6) img = true /\
    forall y x, y < scale * 5 -> x < scale * 6 ->
      cell img y x
      = if (cell example_soup (y / scale) (x / scale) =? 1)%Z then 0%Z else 255%Z.
Proof.
  apply (frame_image_is_the_enlarged_frame 5 6 example_soup);
    [reflexivity | reflexivity | lia | lia].
Defined.

Example frame_image_examples :
  frame_image [[1; 0]]%Z
  = Some [[0; 0; 0; 0; 255; 255; 255; 255]; [0; 0; 0; 0; 255; 255; 255; 255];
          [0; 0; 0; 0; 255; 255; 255; 255]; [0; 0; 0; 0; 255; 255; 255; 255]]%Z
  /\ frame_image [] = None
  /\ frame_image [[2]]%Z
     = Some [[1; 1; 1; 1]; [1; 1; 1; 1]; [1; 1; 1; 1]; [1; 1; 1; 1]]%Z.
Proof. repeat split. Qed.

Lemma window_image_spec (ny nx : nat) (g : grid) (r0 r1 c0 c1 : Z) :
  shape ny nx g -> binary g ->
  (0 <= r0 < r1)%Z -> (r1 <= Z.of_nat ny)%Z ->
  (0 <= c0 < c1)%Z -> (c1 <= Z.of_nat nx)%Z ->
  let wy := Z.to_nat (r1 - r0) in
  let wx := Z.to_nat (c1 - c0) in
  let scale := Z.to_nat (Z.max 4 (Z.min 20 (2000 / Z.of_nat (Nat.max wx wy)))) in
  exists img,
    window_image r0 r1 c0 c1 g = Some img /\
    shape (scale * wy) (scale * wx) img /\
    forall y x, y < scale * wy -> x < scale * wx ->
      cell img y x
      = (255 * cell g (Z.to_nat r0 + y / scale) (Z.to_nat c0 + x / scale))%Z.
Proof.
  intros S B Hr Hr1 Hc Hc1 wy wx scale.
  destruct (subgrid_spec ny nx g (Z.to_nat r0) (Z.to_nat r1) (Z.to_nat c0) (Z.to_nat c1) S
              ltac:(lia) ltac:(lia)) as [Sz Cz].
  replace (Z.to_nat r1 - Z.to_nat r0) with wy in Sz, Cz by (unfold wy; lia).
  replace (Z.to_nat c1 - Z.to_nat c0) with wx in Sz, Cz by (unfold wx; lia).
  assert (Hwy : 0 < wy) by (unfold wy; lia).
  assert (Hwx : 0 < wx) by (unfold wx; lia).
  destruct (shape_dims wy wx _ Hwy Sz) as [En Ex].
  set (f := fun v => uint8 (uint8 v * 255)).
  destruct (pixels_spec wy wx f _ Sz) as [Sp Cp].
  assert (Hs : 0 < scale) by (unfold scale; lia).
  destruct (enlarged_spec wy wx scale _ Hs Sp) as [Se Ce].
  eexists. split; [|split; [exact Se|]].
  - unfold window_image. cbv zeta. rewrite En, Ex.
    replace (Nat.max wx wy =? 0) with false by (symmetry; apply Nat.eqb_neq; lia).
    reflexivity.
  - intros y x Hy Hx. rewrite Ce by auto.
    assert (Qy : y / scale < wy) by (apply Nat.Div0.div_lt_upper_bound; lia).
    assert (Qx : x / scale < wx) by (apply Nat.Div0.div_lt_upper_bound; lia).
    rewrite Cp by auto. rewrite Cz by auto. unfold f.
    destruct (B (Z.to_nat r0 + y / scale) (Z.to_nat c0 + x / scale)) as [-> | ->];
      reflexivity.
Qed.

Lemma zoomed_image_spec (auto_zoom : bool) (ny nx : nat) (g : grid) :
  shape ny nx g -> binary g -> 0 < ny -> 0 < nx ->
  let wy := if auto_zoom then Nat.min ny 600 else ny in
  let wx := if auto_zoom then Nat.min nx 600 else nx in
  let scale := Z.to_nat (Z.max 4 (Z.min 20 (2000 / Z.of_nat (Nat.max wx wy)))) in
  let '(min_y, _, min_x, _) :=
    if auto_zoom then fixed_window 600 (Z.of_nat ny) (Z.of_nat nx) g
    else (0%Z, Z.of_nat ny, 0%Z, Z.of_nat nx) in
  exists img,
    zoomed_image auto_zoom (Z.of_nat ny) (Z.of_nat nx) g = Some img /\
    4 <= scale <= 20 /\
    Z.to_nat min_y + wy <= ny /\ Z.to_nat min_x + wx <= nx /\
    shape (scale * wy) (scale * wx) img /\
    forall y x, y < scale * wy -> x < scale * wx ->
      cell img y x
      = (255 * cell g (Z.to_nat min_y + y / scale) (Z.to_nat min_x + x / scale))%Z.
Proof.
  intros S B Hny Hnx wy wx scale.
  assert (Hsc : 4 <= scale <= 20) by (unfold scale; lia).
  unfold zoomed_image. destruct auto_zoom.
  - destruct (shape_dims ny nx g Hny S) as [En Ex].
    pose proof (fixed_window_size 600 g ltac:(lia) eq_refl) as W.
    rewrite En, Ex in W.
    destruct (fixed_window 600 (Z.of_nat ny) (Z.of_nat nx) g) as [[[r0 r1] c0] c1].
    destruct W as (W1 & W2 & W3 & W4 & W5 & W6).
    destruct (window_image_spec ny nx g r0 r1 c0 c1 S B ltac:(lia) W2 ltac:(lia) W5)
      as (img & E & Si & C).
    cbv zeta in Si, C.
    replace (Z.to_nat (r1 - r0)) with wy in Si, C by (unfold wy; lia).
    replace (Z.to_nat (c1 - c0)) with wx in Si, C by (unfold wx; lia).
    fold scale in Si, C.
    exists img. repeat split; try exact E; try exact C; try apply Si; try lia.
  - destruct (window_image_spec ny nx g 0 (Z.of_nat ny) 0 (Z.of_nat nx) S B
                ltac:(lia) ltac:(lia) ltac:(lia) ltac:(lia)) as (img & E & Si & C).
    cbv zeta in Si, C.
    replace (Z.to_nat (Z.of_nat ny - 0)) with wy in Si, C by (unfold wy; lia).
    replace (Z.to_nat (Z.of_nat nx - 0)) with wx in Si, C by (unfold wx; lia).
    fold scale in Si, C.
    exists img. repeat split; try exact E; try exact C; try apply Si; try lia.
Qed.



Example zoomed_image_example :
  zoomed_image false 1 2 [[1; 0]]%Z
  = Some (repeat (repeat 255 20 ++ repeat 0 20) 20)%Z.
Proof. reflexivity. Qed.
